(** * Document chunking, text metrics and summary aggregation

    A shallow embedding of the size-normalisation core of the file
    classifier:

    - [src/utils/textAnalysis.ts]: [countWords], [countTokens],
      [analyzeText], [contentToText];
    - [src/utils/documentChunking.ts]: [chunkTextByTokens],
      [chunkDocumentByTokens], and the retry budget computed by the upload
      page's [handleRetry];
    - [src/lib/services/backend/groq-summary.service.ts]:
      [processDocumentChunk], [combineSummaries], [summarizeDocument];

    and of what surrounds it:

    - [src/src/utils/duplicateDetection.ts]: [isDuplicate],
      [findDuplicateFiles], [removeDuplicates];
    - the file validation ([validateFileType], [getFileExtension]) and the
      choice of an extractor by [extractFileContent];
    - the classification service: [classifyDocuments], [processBatch],
      [regenerateDocumentClassification];
    - the summary route [POST], up to its call of [summarizeDocument].

    JavaScript strings are sequences of UTF-16 code units; they are modelled
    as lists of code units, so that [text.length] is [length].  Numbers that
    the code only uses as integers (token counts, budgets, indices) are [Z]
    or [nat]; a quotient is taken in [Q] before [Math.ceil] or [Math.floor]
    is applied to it.  Token counts are integers, so a budget that is not
    one compares with them exactly as its floor does: budgets are integers
    here. *)

From Stdlib Require Import Strings.String Strings.Ascii.
From Stdlib Require Import Numbers.DecimalString.
From Stdlib Require Import List ZArith QArith Qround Lia Bool Arith.
From Stdlib Require DecimalN.
Import ListNotations.

Local Open Scope Z_scope.

(* ------------------------------------------------------------------ *)
(** ** JavaScript strings *)

Module Js.

(** A UTF-16 code unit. *)
Definition char := N.

(** A JavaScript string. *)
Definition jsstring := list char.

(** A string literal, from its Latin-1 spelling. *)
Fixpoint str (s : String.string) : jsstring :=
  match s with
  | EmptyString => []
  | String a s' => N_of_ascii a :: str s'
  end.

(** The class [\s] of regular expressions, which is also what
    [String.prototype.trim] strips: WhiteSpace and LineTerminator. *)
Definition is_ws (c : char) : bool :=
  ((9 <=? c) && (c <=? 13) || (c =? 32) || (c =? 160) || (c =? 5760)
   || (8192 <=? c) && (c <=? 8202) || (c =? 8232) || (c =? 8233)
   || (c =? 8239) || (c =? 8287) || (c =? 12288) || (c =? 65279))%N.

(** Truthiness of a string: every string but the empty one. *)
Definition truthy (s : jsstring) : bool :=
  match s with [] => false | _ :: _ => true end.

(** [String.prototype.trimStart]. *)
Fixpoint trimStart (s : jsstring) : jsstring :=
  match s with
  | [] => []
  | c :: s' => if is_ws c then trimStart s' else s
  end.

(** [String.prototype.trimEnd]. *)
Fixpoint trimEnd (s : jsstring) : jsstring :=
  match s with
  | [] => []
  | c :: s' =>
      match trimEnd s' with
      | [] => if is_ws c then [] else [c]
      | t => c :: t
      end
  end.

(** [String.prototype.trim]. *)
Definition trim (s : jsstring) : jsstring := trimEnd (trimStart s).

(** [s.split(/\s+/)]: the pieces of [s] between maximal runs of
    whitespace.  [inWs] tells that the previous code unit belonged to a
    separator, which the current whitespace unit then extends.  The empty
    string gives one empty piece; leading or trailing whitespace gives an
    empty first or last piece. *)
Fixpoint split_go (inWs : bool) (s : jsstring) : list jsstring :=
  match s with
  | [] => [[]]
  | c :: s' =>
      if is_ws c then
        if inWs then split_go true s' else [] :: split_go true s'
      else
        match split_go false s' with
        | w :: ws => (c :: w) :: ws
        | [] => [[c]]
        end
  end.

Definition split_ws (s : jsstring) : list jsstring := split_go false s.

(** [Array.prototype.join]. *)
Fixpoint join (sep : jsstring) (ws : list jsstring) : jsstring :=
  match ws with
  | [] => []
  | [w] => w
  | w :: ws' => w ++ sep ++ join sep ws'
  end.

(** The one-space separator. *)
Definition SP : jsstring := [32%N].

(** Any value a caller may pass where the signature says [string]: the
    functions test [typeof text !== 'string'] at run time. *)
Inductive value :=
| VString (s : jsstring)
| VOther.   (* undefined, null, a number, an object, ... *)

(** [Math.ceil] on an exact quotient. *)
Definition Math_ceil (q : Q) : Z := Qceiling q.

(** [Math.floor] on an exact quotient. *)
Definition Math_floor (q : Q) : Z := Qfloor q.

(** Decimal spelling of a natural number, as template literals print it. *)
Definition decimal (n : nat) : jsstring :=
  str (NilZero.string_of_uint (Nat.to_uint n)).

End Js.

Import Js.
Coercion VString : jsstring >-> value.

(* ------------------------------------------------------------------ *)
(** ** src/utils/textAnalysis.ts *)

(** The guard [!text || typeof text !== 'string']: [None] when it fires,
    the string otherwise. *)
Definition usableText (text : value) : option jsstring :=
  match text with
  | VString [] => None
  | VString s => Some s
  | VOther => None
  end.

(** The words [countWords] counts:
    [text.trim().split(/\s+/).filter(word => word.length > 0)]. *)
Definition wordsOf (text : jsstring) : list jsstring :=
  filter truthy (split_ws (trim text)).

Definition countWords (text : value) : Z :=
  match usableText text with
  | None => 0
  | Some s => Z.of_nat (length (wordsOf s))
  end.

Definition countTokens (text : value) : Z :=
  match usableText text with
  | None => 0
  | Some s =>
      let characters := Z.of_nat (length s) in
      Math_ceil (inject_Z characters / 4)
  end.

Record TextAnalysis := { wordCount : Z; tokenCount : Z }.

Definition analyzeText (text : value) : TextAnalysis :=
  match usableText text with
  | None => {| wordCount := 0; tokenCount := 0 |}
  | Some _ => {| wordCount := countWords text; tokenCount := countTokens text |}
  end.

(** Document content as [contentToText] sees it.  An object is represented
    by what [JSON.stringify(content, null, 2)] prints for it, any other
    non-string value by what [String(content)] gives. *)
Inductive Content :=
| CString (s : jsstring)
| CObject (json : jsstring)
| COther (shown : jsstring).

Definition contentToText (content : Content) : jsstring :=
  match content with
  | CString s => s
  | CObject json => json
  | COther shown => shown
  end.

(* ------------------------------------------------------------------ *)
(** ** src/utils/documentChunking.ts *)

Definition MAX_TOKENS_PER_CHUNK : Z := 10000.
Definition TOKEN_OVERLAP : Z := 200.

(** The variables of the word loop of [chunkTextByTokens]. *)
Record LoopState := {
  chunks : list jsstring;
  currentChunk : jsstring;
  currentTokens : Z;
  overlapWords : list jsstring
}.

Definition initialState : LoopState :=
  {| chunks := []; currentChunk := []; currentTokens := 0; overlapWords := [] |}.

(** [currentChunk + wordWithSpace]. *)
Definition testChunk (st : LoopState) (word : jsstring) : jsstring :=
  currentChunk st ++ (if truthy (currentChunk st) then SP ++ word else word).

(** The test [testTokens > maxTokens && currentChunk]. *)
Definition splitsAt (maxTokens : Z) (st : LoopState) (word : jsstring) : bool :=
  (countTokens (testChunk st word) >? maxTokens) && truthy (currentChunk st).

(** The [if]/[else] of the loop body. *)
Definition placeWord (maxTokens : Z) (st : LoopState) (word : jsstring)
  : LoopState :=
  if splitsAt maxTokens st word then
    let overlapText := join SP (overlapWords st) in
    let cur : jsstring := overlapText ++ (if truthy overlapText then SP ++ word else word) in
    {| chunks := chunks st ++ [currentChunk st];
       currentChunk := cur;
       currentTokens := countTokens cur;
       overlapWords := [] |}
  else
    {| chunks := chunks st;
       currentChunk := testChunk st word;
       currentTokens := countTokens (testChunk st word);
       overlapWords := overlapWords st |}.

(** The overlap tracking at the end of the loop body:
    push, then at most one shift. *)
Definition trackOverlap (overlapTokens : Z) (tracked : list jsstring)
    (word : jsstring) : list jsstring :=
  let pushed := tracked ++ [word] in
  if (50 <? length pushed)%nat then
    if countTokens (join SP pushed) >? overlapTokens then tl pushed else pushed
  else pushed.

(** One iteration of the loop. *)
Definition step (maxTokens overlapTokens : Z) (st : LoopState)
    (word : jsstring) : LoopState :=
  let st1 := placeWord maxTokens st word in
  {| chunks := chunks st1;
     currentChunk := currentChunk st1;
     currentTokens := currentTokens st1;
     overlapWords := trackOverlap overlapTokens (overlapWords st1) word |}.

(** The loop, from state [st] over the remaining [words]. *)
Fixpoint loop (maxTokens overlapTokens : Z) (st : LoopState)
    (words : list jsstring) : LoopState :=
  match words with
  | [] => st
  | word :: rest => loop maxTokens overlapTokens (step maxTokens overlapTokens st word) rest
  end.

Definition chunkTextByTokens (text : value) (maxTokens overlapTokens : Z)
  : list jsstring :=
  match usableText text with
  | None => []
  | Some s =>
      let words := split_ws (trim s) in
      let totalTokens := countTokens s in
      if totalTokens <=? maxTokens then [s]
      else
        let st := loop maxTokens overlapTokens initialState words in
        let chunks :=
          if truthy (currentChunk st) then chunks st ++ [currentChunk st]
          else chunks st in
        if (0 <? length chunks)%nat then chunks else [s]
  end.

Record ChunkPlan := {
  plan_chunks : list jsstring;
  originalTokenCount : Z;
  chunkCount : Z;
  needsChunking : bool;
  plan_text : jsstring
}.

Definition chunkDocumentByTokens (content : Content)
    (maxTokens overlapTokens : Z) : ChunkPlan :=
  let text := contentToText content in
  let originalTokenCount := countTokens text in
  let needsChunking := originalTokenCount >? maxTokens in
  if negb needsChunking then
    {| plan_chunks := [text];
       originalTokenCount := originalTokenCount;
       chunkCount := 1;
       needsChunking := false;
       plan_text := text |}
  else
    let chunks := chunkTextByTokens text maxTokens overlapTokens in
    {| plan_chunks := chunks;
       originalTokenCount := originalTokenCount;
       chunkCount := Z.of_nat (length chunks);
       needsChunking := true;
       plan_text := text |}.


(** The budget [handleRetry] (upload page) derives from the chunk count the
    user selected; the branch is only taken when that count exceeds 1. *)
Definition retryTargetTokens (fileContent : jsstring) (chunkCount : Z) : Z :=
  let documentTokens := countTokens fileContent in
  let idealTokensPerChunk :=
    Math_floor (inject_Z documentTokens / inject_Z chunkCount) in
  let targetTokensPerChunk := Z.max idealTokensPerChunk 500 in
  targetTokensPerChunk.

(** [chunkDocumentByTokens(fileContent, targetTokensPerChunk)] of the retry,
    the overlap left to its default. *)
Definition retryPlan (fileContent : jsstring) (chunkCount : Z) : ChunkPlan :=
  chunkDocumentByTokens (CString fileContent)
    (retryTargetTokens fileContent chunkCount) TOKEN_OVERLAP.

(** *** Bookkeeping for the properties of the loop *)

(** [overlapWords.length] at each split of the loop run from [st]: the
    number of words that open the next chunk as its duplicated prefix. *)
Fixpoint overlapSeeds (maxTokens overlapTokens : Z) (st : LoopState)
    (words : list jsstring) : list nat :=
  match words with
  | [] => []
  | word :: rest =>
      (if splitsAt maxTokens st word then [length (overlapWords st)] else [])
      ++ overlapSeeds maxTokens overlapTokens
           (step maxTokens overlapTokens st word) rest
  end.

(** For each chunk [chunkTextByTokens] returns, the number of its leading
    words that were duplicated from the chunk before: none for the first
    chunk and for a text returned as it is. *)
Definition overlapCounts (text : value) (maxTokens overlapTokens : Z)
  : list nat :=
  match usableText text with
  | None => []
  | Some s =>
      if countTokens s <=? maxTokens then [0%nat]
      else
        let words := split_ws (trim s) in
        let st := loop maxTokens overlapTokens initialState words in
        if truthy (currentChunk st)
        then 0%nat :: overlapSeeds maxTokens overlapTokens initialState words
        else [0%nat]
  end.

(** The words of each chunk once its duplicated prefix is removed. *)
Definition stripOverlaps (counts : list nat) (chunks : list jsstring)
  : list (list jsstring) :=
  map (fun kc => skipn (fst kc) (wordsOf (snd kc))) (combine counts chunks).

(** Every stripped prefix is a copy of the tail of the chunk before
    ([prev] holds that chunk's words). *)
Fixpoint duplicatedTails (prev : list jsstring)
    (kcs : list (nat * jsstring)) : Prop :=
  match kcs with
  | [] => True
  | (k, c) :: rest =>
      (exists before, prev = before ++ firstn k (wordsOf c))
      /\ duplicatedTails (wordsOf c) rest
  end.

(** A word as the loop sees it in a text that is not all whitespace:
    not empty, and without whitespace. *)
Definition good (w : jsstring) : bool :=
  truthy w && forallb (fun c => negb (is_ws c)) w.

(** The words of a chunk under construction: those seeded from the overlap
    buffer, and those taken from the text. *)
Record Ghost := {
  g_closed : list (list jsstring * list jsstring);
  g_ov : list jsstring;
  g_new : list jsstring
}.

Definition chunkWords (p : list jsstring * list jsstring) : list jsstring :=
  fst p ++ snd p.

Definition g_all (g : Ghost) : list (list jsstring * list jsstring) :=
  g_closed g ++ [(g_ov g, g_new g)].

Definition ghost0 : Ghost := {| g_closed := []; g_ov := []; g_new := [] |}.

Definition gstep (maxTokens : Z) (st : LoopState) (g : Ghost)
    (word : jsstring) : Ghost :=
  if splitsAt maxTokens st word then
    {| g_closed := g_closed g ++ [(g_ov g, g_new g)];
       g_ov := overlapWords st;
       g_new := [word] |}
  else
    {| g_closed := g_closed g; g_ov := g_ov g; g_new := g_new g ++ [word] |}.

Fixpoint gloop (maxTokens overlapTokens : Z) (st : LoopState) (g : Ghost)
    (words : list jsstring) : Ghost :=
  match words with
  | [] => g
  | word :: rest =>
      gloop maxTokens overlapTokens (step maxTokens overlapTokens st word)
        (gstep maxTokens st g word) rest
  end.

(** The loop state describes the chunks whose words [g] lists. *)
Record Sim (st : LoopState) (g : Ghost) : Prop := {
  sim_chunks : chunks st = map (fun p => join SP (chunkWords p)) (g_closed g);
  sim_current : currentChunk st = join SP (g_ov g ++ g_new g);
  sim_overlap : exists before, g_new g = before ++ overlapWords st;
  sim_truthy : Forall (fun w => truthy w = true) (g_ov g ++ g_new g)
}.

(** Each chunk's seeded words end the chunk before. *)
Fixpoint chained (prev : list jsstring)
    (l : list (list jsstring * list jsstring)) : Prop :=
  match l with
  | [] => True
  | p :: rest => (exists before, prev = before ++ fst p) /\ chained (chunkWords p) rest
  end.

Definition lastWords (prev : list jsstring)
    (l : list (list jsstring * list jsstring)) : list jsstring :=
  fold_left (fun _ p => chunkWords p) l prev.

(** A chunk is within budget, or took a single word from the text. *)
Definition withinOrSeed (maxTokens : Z) (p : list jsstring * list jsstring)
  : Prop :=
  countTokens (join SP (chunkWords p)) <= maxTokens \/ length (snd p) = 1%nat.

(** Two runs of the loop over the same words, the first under the larger
    budget: it has closed no more chunks; level with the second, its chunk
    is no longer and its buffer is the end of the other's; one chunk behind,
    its buffer is no longer than the other's chunk. *)
Record Coupled (s1 s2 : LoopState) : Prop := {
  cp_count : (length (chunks s1) <= length (chunks s2))%nat;
  cp_level : length (chunks s1) = length (chunks s2) ->
             (length (currentChunk s1) <= length (currentChunk s2))%nat
             /\ exists before, overlapWords s2 = before ++ overlapWords s1;
  cp_behind : S (length (chunks s1)) = length (chunks s2) ->
              (length (join SP (overlapWords s1))
               <= length (currentChunk s2))%nat;
  cp_truthy1 : Forall (fun w => truthy w = true) (overlapWords s1);
  cp_truthy2 : Forall (fun w => truthy w = true) (overlapWords s2);
  cp_current2 : (0 < length (chunks s2))%nat -> truthy (currentChunk s2) = true
}.

(* ------------------------------------------------------------------ *)
(** ** src/lib/services/backend/groq-summary.service.ts *)

Record DocumentChunk := {
  content : Content;
  chunkIndex : option nat
}.

Record SummaryRequest := {
  documentContent : Content;
  documentChunks : option (list DocumentChunk);
  extractionScope : jsstring;
  scopeDescription : jsstring;
  filename : jsstring
}.

Record SummaryResponse := {
  res_filename : jsstring;
  summary : jsstring;
  res_chunkCount : Z;
  res_wordCount : Z;
  res_tokenCount : Z;
  success : bool;
  error : option jsstring
}.

(** The two prompts sent to the model.  Their fixed template text is left
    out: a prompt is given by the values interpolated into it. *)
Inductive Prompt :=
| ChunkPrompt (extractionScope scopeDescription : jsstring)
    (chunkIndex totalChunks : nat) (contentText : jsstring)
| MergePrompt (filename : jsstring) (summaries : list jsstring).

(** [groq.chat.completions.create] either rejects, with an error of the given
    message, or resolves to a completion whose first choice has the given
    content ([None] for [null]).  A completion without a first choice makes
    the caller throw inside the same [try], as a rejection does. *)
Inductive ChatResponse :=
| Rejected (message : jsstring)
| Completed (content : option jsstring).

(** What the service does to the outside world, in order. *)
Inductive Event :=
| GroqCall (p : Prompt) (r : ChatResponse)
| Sleep (ms : Z).

(** The remote model: its answer may depend on everything that happened
    before. *)
Definition Groq := list Event -> Prompt -> ChatResponse.

(** An asynchronous computation: from the events so far to a value or a
    thrown error (its message), and the events after. *)
Definition Async (A : Type) : Type :=
  list Event -> (jsstring + A) * list Event.

Definition ret {A} (a : A) : Async A := fun tr => (inr a, tr).

Definition throw {A} (message : jsstring) : Async A :=
  fun tr => (inl message, tr).

Definition bind {A B} (c : Async A) (k : A -> Async B) : Async B :=
  fun tr =>
    match c tr with
    | (inl message, tr') => (inl message, tr')
    | (inr a, tr') => k a tr'
    end.

Definition tryCatch {A} (c : Async A) (handler : jsstring -> Async A)
  : Async A :=
  fun tr =>
    match c tr with
    | (inl message, tr') => handler message tr'
    | (inr a, tr') => (inr a, tr')
    end.

Notation "x <- c ;; k" := (bind c (fun x => k))
  (at level 61, c at next level, right associativity).

Definition create (groq : Groq) (p : Prompt) : Async (option jsstring) :=
  fun tr =>
    let r := groq tr p in
    match r with
    | Rejected message => (inl message, tr ++ [GroqCall p r])
    | Completed c => (inr c, tr ++ [GroqCall p r])
    end.

(** [await new Promise(resolve => setTimeout(resolve, ms))]. *)
Definition sleep (ms : Z) : Async unit :=
  fun tr => (inr tt, tr ++ [Sleep ms]).

(** [content || fallback]. *)
Definition orElse (c : option jsstring) (fallback : jsstring) : jsstring :=
  match c with
  | Some s => if truthy s then s else fallback
  | None => fallback
  end.

(** The [chunkInfo] line of the chunk prompt. *)
Definition chunkInfo (chunkIndex totalChunks : nat) : jsstring :=
  if (1 <? totalChunks)%nat
  then str " (Part " ++ decimal (chunkIndex + 1) ++ str " of "
       ++ decimal totalChunks ++ str ")"
  else [].

Definition processDocumentChunk (groq : Groq) (content : Content)
    (extractionScope scopeDescription : jsstring)
    (chunkIndex totalChunks : nat) : Async jsstring :=
  let contentText := contentToText content in
  tryCatch
    (c <- create groq (ChunkPrompt extractionScope scopeDescription
                         chunkIndex totalChunks contentText) ;;
     ret (orElse c (str "No summary generated")))
    (fun message => throw (str "Failed to process chunk: " ++ message)).

Fixpoint mapi_from {A B} (f : A -> nat -> B) (i : nat) (l : list A) : list B :=
  match l with
  | [] => []
  | a :: l' => f a i :: mapi_from f (S i) l'
  end.

(** The [combinedSummaries] text of the merge prompt. *)
Definition combinedSummaries (summaries : list jsstring) : jsstring :=
  join [10%N; 10%N]
    (mapi_from (fun summary index =>
       str "=== Part " ++ decimal (index + 1) ++ str " ===" ++ [10%N] ++ summary)
       0 summaries).

(** The values a prompt interpolates into its template, in order. *)
Definition interpolated (p : Prompt) : list jsstring :=
  match p with
  | ChunkPrompt extractionScope scopeDescription chunkIndex totalChunks contentText =>
      [extractionScope; scopeDescription; extractionScope;
       chunkInfo chunkIndex totalChunks; contentText]
  | MergePrompt filename summaries => [filename; combinedSummaries summaries]
  end.

Definition combineSummaries (groq : Groq) (summaries : list jsstring)
    (extractionScope scopeDescription filename : jsstring) : Async jsstring :=
  tryCatch
    (c <- create groq (MergePrompt filename summaries) ;;
     ret (orElse c (str "No final summary generated")))
    (fun message => throw (str "Failed to combine summaries: " ++ message)).

(** The loop over the chunks of a document, from index [i], with
    [chunkSummaries] the summaries pushed so far. *)
Fixpoint summarizeChunks (groq : Groq)
    (extractionScope scopeDescription : jsstring) (total : nat)
    (i : nat) (rest : list Content) (chunkSummaries : list jsstring)
  : Async (list jsstring) :=
  match rest with
  | [] => ret chunkSummaries
  | chunk :: rest' =>
      chunkSummary <- processDocumentChunk groq chunk extractionScope
                        scopeDescription i total ;;
      _ <- (if (i <? total - 1)%nat then sleep 500 else ret tt) ;;
      summarizeChunks groq extractionScope scopeDescription total (S i) rest'
        (chunkSummaries ++ [chunkSummary])
  end.

Definition summarizeDocument (groq : Groq) (request : SummaryRequest)
  : Async SummaryResponse :=
  tryCatch
    (let chunks :=
       match documentChunks request with
       | Some cs => map content cs
       | None => [documentContent request]
       end in
     let chunkCount := length chunks in
     let totalWordCount :=
       fold_left (fun n chunk => n + wordCount (analyzeText (contentToText chunk)))
         chunks 0 in
     let totalTokenCount :=
       fold_left (fun n chunk => n + tokenCount (analyzeText (contentToText chunk)))
         chunks 0 in
     match chunks with
     | [chunk] =>
         summary <- processDocumentChunk groq chunk (extractionScope request)
                      (scopeDescription request) 0 1 ;;
         ret {| res_filename := filename request;
                summary := summary;
                res_chunkCount := 1;
                res_wordCount := totalWordCount;
                res_tokenCount := totalTokenCount;
                success := true;
                error := None |}
     | _ =>
         chunkSummaries <- summarizeChunks groq (extractionScope request)
                             (scopeDescription request) chunkCount 0 chunks [] ;;
         finalSummary <- combineSummaries groq chunkSummaries
                           (extractionScope request) (scopeDescription request)
                           (filename request) ;;
         ret {| res_filename := filename request;
                summary := finalSummary;
                res_chunkCount := Z.of_nat chunkCount;
                res_wordCount := totalWordCount;
                res_tokenCount := totalTokenCount;
                success := true;
                error := None |}
     end)
    (fun message =>
       ret {| res_filename := filename request;
              summary := [];
              res_chunkCount := 0;
              res_wordCount := 0;
              res_tokenCount := 0;
              success := false;
              error := Some message |}).

(** Reading a trace: the chunk requests made, as (index, total, text). *)
Fixpoint chunkRequests (tr : list Event) : list (nat * nat * jsstring) :=
  match tr with
  | GroqCall (ChunkPrompt _ _ i n text) _ :: tr' => (i, n, text) :: chunkRequests tr'
  | _ :: tr' => chunkRequests tr'
  | [] => []
  end.

(** The partial summaries [processDocumentChunk] returned for the chunk
    requests that were answered. *)
Fixpoint chunkResults (tr : list Event) : list jsstring :=
  match tr with
  | GroqCall (ChunkPrompt _ _ _ _ _) (Completed c) :: tr' =>
      orElse c (str "No summary generated") :: chunkResults tr'
  | _ :: tr' => chunkResults tr'
  | [] => []
  end.

(** The summaries each merge request carried. *)
Fixpoint mergeRequests (tr : list Event) : list (jsstring * list jsstring) :=
  match tr with
  | GroqCall (MergePrompt f sums) _ :: tr' => (f, sums) :: mergeRequests tr'
  | _ :: tr' => mergeRequests tr'
  | [] => []
  end.

(** The messages of the chunk requests that were rejected. *)
Fixpoint chunkFailures (tr : list Event) : list jsstring :=
  match tr with
  | GroqCall (ChunkPrompt _ _ _ _ _) (Rejected m) :: tr' => m :: chunkFailures tr'
  | _ :: tr' => chunkFailures tr'
  | [] => []
  end.

(** The failed response of [summarizeDocument]'s [catch]. *)
Definition failedResponse (request : SummaryRequest) (message : jsstring)
  : SummaryResponse :=
  {| res_filename := filename request;
     summary := [];
     res_chunkCount := 0;
     res_wordCount := 0;
     res_tokenCount := 0;
     success := false;
     error := Some message |}.

(* ------------------------------------------------------------------ *)
(** ** Definitions used to state and prove the properties *)

(** The words taken from the text so far, chunk after chunk. *)
Definition taken (g : Ghost) : list jsstring :=
  concat (map snd (g_closed g)) ++ g_new g.

(** [P] holds of every word of every chunk. *)
Definition wordsAll (P : jsstring -> Prop) (g : Ghost) : Prop :=
  Forall (fun p => Forall P (chunkWords p)) (g_all g).

(** Every closed chunk is within budget or a bare seed, and so is the open
    one unless it is still empty. *)
Definition budgeted (maxTokens : Z) (g : Ghost) : Prop :=
  Forall (withinOrSeed maxTokens) (g_closed g)
  /\ (withinOrSeed maxTokens (g_ov g, g_new g) \/ g_ov g ++ g_new g = []).

(** A word appended to a text, after a space unless the text is empty: the
    shape of both [testChunk] and the seed of a new chunk. *)
Definition glue (a w : jsstring) : jsstring :=
  a ++ (if truthy a then SP ++ w else w).

(** The words of a text as the specification counts them: the maximal runs
    of code units that are not whitespace.  [afterWs] tells that a run may
    start here. *)
Fixpoint wordRuns (afterWs : bool) (s : jsstring) : nat :=
  match s with
  | [] => 0
  | c :: s' =>
      if is_ws c then wordRuns true s'
      else ((if afterWs then 1 else 0) + wordRuns false s')%nat
  end.

Definition spec_wordCount (s : jsstring) : nat := wordRuns true s.

(** The chunks [summarizeDocument] works on. *)
Definition requestChunks (request : SummaryRequest) : list Content :=
  match documentChunks request with
  | Some cs => map content cs
  | None => [documentContent request]
  end.

(** The successful response of [summarizeDocument] over [chunks]. *)
Definition successResponse (request : SummaryRequest) (chunks : list Content)
    (text : jsstring) (count : Z) : SummaryResponse :=
  {| res_filename := filename request;
     summary := text;
     res_chunkCount := count;
     res_wordCount :=
       fold_left (fun n chunk => n + wordCount (analyzeText (contentToText chunk)))
         chunks 0;
     res_tokenCount :=
       fold_left (fun n chunk => n + tokenCount (analyzeText (contentToText chunk)))
         chunks 0;
     success := true;
     error := None |}.

(** The run on a single chunk. *)
Definition singleRun (groq : Groq) (request : SummaryRequest) (c : Content) : (jsstring + SummaryResponse) * list Event :=
  let p := ChunkPrompt (extractionScope request) (scopeDescription request) 0 1 (contentToText c) in
  match groq [] p with
  | Rejected m =>
      (inr (failedResponse request (str "Failed to process chunk: " ++ m)),
       [GroqCall p (Rejected m)])
  | Completed c0 =>
      (inr (successResponse request [c] (orElse c0 (str "No summary generated")) 1),
       [GroqCall p (Completed c0)])
  end.

(** The run on any other number of chunks. *)
Definition multiRun (groq : Groq) (request : SummaryRequest)
    (chunks : list Content)
  : (jsstring + SummaryResponse) * list Event :=
  match summarizeChunks groq (extractionScope request) (scopeDescription request) (length chunks) 0 chunks [] [] with
  | (inl m, tr) => (inr (failedResponse request m), tr)
  | (inr sums, tr) =>
      let p := MergePrompt (filename request) sums in
      match groq tr p with
      | Rejected m =>
          (inr (failedResponse request (str "Failed to combine summaries: " ++ m)),
           tr ++ [GroqCall p (Rejected m)])
      | Completed c0 =>
          (inr (successResponse request chunks
                  (orElse c0 (str "No final summary generated"))
                  (Z.of_nat (length chunks))),
           tr ++ [GroqCall p (Completed c0)])
      end
  end.

(** A document in three chunks whose second request is rejected. *)
Definition threeChunks : SummaryRequest :=
  {| documentContent := CString [];
     documentChunks :=
       Some [ {| content := CString (str "one"); chunkIndex := Some 0%nat |};
              {| content := CString (str "two"); chunkIndex := Some 1%nat |};
              {| content := CString (str "three"); chunkIndex := Some 2%nat |} ];
     extractionScope := str "Team";
     scopeDescription := str "Founders";
     filename := str "deck.pdf" |}.

Definition rejectsSecond : Groq :=
  fun _ p =>
    match p with
    | ChunkPrompt _ _ 1 _ _ => Rejected (str "rate limit")
    | ChunkPrompt _ _ _ _ text => Completed (Some (str "about " ++ text))
    | MergePrompt _ sums => Completed (Some (join SP sums))
    end.

Definition answersAll : Groq :=
  fun _ p =>
    match p with
    | ChunkPrompt _ _ _ _ text => Completed (Some (str "about " ++ text))
    | MergePrompt _ sums => Completed (Some (join SP sums))
    end.

(** A whole document, not chunked. *)
Definition wholeDocument : SummaryRequest :=
  {| documentContent := CString (str "memo");
     documentChunks := None;
     extractionScope := str "Team";
     scopeDescription := str "Founders";
     filename := str "memo.txt" |}.

(** Forty words of a hundred letters each. *)
Definition fortyLongWords : jsstring := join SP (repeat (repeat 97%N 100) 40).

(** Three words on two lines, the first two apart by two spaces. *)
Definition twoLines : jsstring := str "aaaa  bbbb" ++ [10%N] ++ str "cccc".

(** Fifty-three one-letter words. *)
Definition fiftyThreeWords : jsstring := join SP (repeat (str "a") 53).

(** A document of 50,000 code units, which measure 12,500 tokens. *)
Definition scenarioDocument : jsstring := repeat 97%N (N.to_nat 50000).

(* ------------------------------------------------------------------ *)
(** ** More of src/utils/documentChunking.ts *)

Definition shouldChunkDocumentByTokens (content : Content) (maxTokens : Z)
  : bool :=
  let text := contentToText content in
  let tokenCount := countTokens text in
  tokenCount >? maxTokens.

(** An integer in a template literal. *)
Definition decimalZ (z : Z) : jsstring :=
  str (NilZero.string_of_int (Z.to_int z)).

Record ChunkingRecommendation := {
  shouldChunk : bool;
  estimatedChunks : Z;
  reason : jsstring
}.

Record TokenChunkingAnalysis := {
  analysis : TextAnalysis;
  recommendation : ChunkingRecommendation;
  analysis_text : jsstring
}.

Definition analyzeDocumentForTokenChunking (content : Content)
  : TokenChunkingAnalysis :=
  let text := contentToText content in
  let analysis := analyzeText text in
  let shouldChunk := tokenCount analysis >? MAX_TOKENS_PER_CHUNK in
  let estimatedChunks :=
    if shouldChunk
    then Math_ceil (inject_Z (tokenCount analysis)
                    / inject_Z (MAX_TOKENS_PER_CHUNK - TOKEN_OVERLAP))
    else 1 in
  let reason :=
    if negb shouldChunk
    then str "Document is " ++ decimalZ (tokenCount analysis)
         ++ str " tokens, which fits in a single chunk (limit: "
         ++ decimalZ MAX_TOKENS_PER_CHUNK ++ str " tokens)"
    else str "Document is " ++ decimalZ (tokenCount analysis)
         ++ str " tokens, exceeding the " ++ decimalZ MAX_TOKENS_PER_CHUNK
         ++ str " token limit. Estimated " ++ decimalZ estimatedChunks
         ++ str " chunks needed." in
  {| analysis := analysis;
     recommendation :=
       {| shouldChunk := shouldChunk;
          estimatedChunks := estimatedChunks;
          reason := reason |};
     analysis_text := text |}.

(** Once a word has been placed: the open chunk has taken a word, the
    buffer tracks one, every closed chunk took a word, and every chunk but
    the first was seeded with one. *)
Record Fresh (st : LoopState) (g : Ghost) : Prop := {
  fr_new : g_new g <> [];
  fr_buf : overlapWords st <> [];
  fr_closed : Forall (fun p => snd p <> []) (g_closed g);
  fr_seeded : Forall (fun p => fst p <> []) (tl (g_all g))
}.

(** [R] holds of every two neighbours of a list. *)
Fixpoint consecutive {A} (R : A -> A -> Prop) (l : list A) : Prop :=
  match l with
  | a :: ((b :: _) as rest) => R a b /\ consecutive R rest
  | _ => True
  end.

(** Reading a trace: the pauses taken, in milliseconds. *)
Fixpoint sleeps (tr : list Event) : list Z :=
  match tr with
  | Sleep ms :: tr' => ms :: sleeps tr'
  | _ :: tr' => sleeps tr'
  | [] => []
  end.

(** The messages of the merge requests that were rejected. *)
Fixpoint mergeFailures (tr : list Event) : list jsstring :=
  match tr with
  | GroqCall (MergePrompt _ _) (Rejected m) :: tr' => m :: mergeFailures tr'
  | _ :: tr' => mergeFailures tr'
  | [] => []
  end.

(** The requests sent to the model. *)
Fixpoint groqCalls (tr : list Event) : list Prompt :=
  match tr with
  | GroqCall p _ :: tr' => p :: groqCalls tr'
  | _ :: tr' => groqCalls tr'
  | [] => []
  end.

(** The sum of a list of integers. *)
Definition sumZ (l : list Z) : Z := fold_right Z.add 0 l.

(** The chunk requests [summarizeDocument] makes when none is rejected. *)
Definition expectedRequests (chunks : list Content) : list (nat * nat * jsstring) :=
  mapi_from (fun c j => (j, length chunks, contentToText c)) 0 chunks.

(** A request with an empty array of chunks. *)
Definition noChunks : SummaryRequest :=
  {| documentContent := CString [];
     documentChunks := Some [];
     extractionScope := str "Team";
     scopeDescription := str "Founders";
     filename := str "empty.pdf" |}.

(** A model that answers the chunks and rejects the merge. *)
Definition rejectsMerge : Groq :=
  fun _ p =>
    match p with
    | ChunkPrompt _ _ _ _ text => Completed (Some (str "about " ++ text))
    | MergePrompt _ _ => Rejected (str "too long")
    end.

(* ------------------------------------------------------------------ *)
(** ** src/src/utils/duplicateDetection.ts *)

(** [a === b] on strings. *)
Fixpoint jseqb (a b : jsstring) : bool :=
  match a, b with
  | [], [] => true
  | x :: a', y :: b' => (x =? y)%N && jseqb a' b'
  | _, _ => false
  end.

(** A non-negative integer in a template literal. *)
Definition decimalN (n : N) : jsstring :=
  str (NilZero.string_of_uint (N.to_uint n)).

(** [DocumentFile] of src/types/document.ts, without its [File] object,
    which the functions below do not read.  [size] is a byte count. *)
Record DocumentFile := {
  df_id : jsstring;
  df_name : jsstring;
  df_size : N;
  df_type : jsstring;
  df_content : option jsstring;
  df_lastModified : Z
}.

(** [file1.content && file2.content && file1.content === file2.content]. *)
Definition sameContent (c1 c2 : option jsstring) : bool :=
  match c1, c2 with
  | Some a, Some b => truthy a && truthy b && jseqb a b
  | _, _ => false
  end.

Definition isDuplicate (file1 file2 : DocumentFile) : bool :=
  if jseqb (df_name file1) (df_name file2)
     && (df_size file1 =? df_size file2)%N
  then true
  else if sameContent (df_content file1) (df_content file2) then true
  else false.

(** [set.has(key)], the set given by the keys added to it. *)
Definition has (set : list jsstring) (key : jsstring) : bool :=
  existsb (jseqb key) set.

(** The inner loop of [findDuplicateFiles], over the files after [file]. *)
Fixpoint collectDuplicates (file : DocumentFile) (later : list DocumentFile)
    (duplicateGroup : list DocumentFile) (processed : list jsstring)
  : list DocumentFile * list jsstring :=
  match later with
  | [] => (duplicateGroup, processed)
  | other :: later' =>
      if isDuplicate file other
      then collectDuplicates file later' (duplicateGroup ++ [other])
             (processed ++ [df_id other])
      else collectDuplicates file later' duplicateGroup processed
  end.

(** The outer loop of [findDuplicateFiles], from the files still to visit
    and the ids processed so far; it gives the groups pushed from there on,
    in the order they are pushed. *)
Fixpoint findDuplicatesFrom (files : list DocumentFile)
    (processed : list jsstring) : list (list DocumentFile) :=
  match files with
  | [] => []
  | file :: later =>
      if has processed (df_id file) then findDuplicatesFrom later processed
      else
        let '(duplicateGroup, processed') :=
          collectDuplicates file later [file] (processed ++ [df_id file]) in
        (if (1 <? length duplicateGroup)%nat then [duplicateGroup] else [])
        ++ findDuplicatesFrom later processed'
  end.

Definition findDuplicateFiles (files : list DocumentFile)
  : list (list DocumentFile) :=
  findDuplicatesFrom files [].

(** The key [`${file.name}-${file.size}`]. *)
Definition fileKey (file : DocumentFile) : jsstring :=
  df_name file ++ str "-" ++ decimalN (df_size file).

(** The loop of [removeDuplicates], with the files kept and the keys seen
    so far. *)
Fixpoint removeDuplicatesFrom (files uniqueFiles : list DocumentFile)
    (seen : list jsstring) : list DocumentFile :=
  match files with
  | [] => uniqueFiles
  | file :: rest =>
      let key := fileKey file in
      if negb (has seen key)
      then removeDuplicatesFrom rest (uniqueFiles ++ [file]) (seen ++ [key])
      else removeDuplicatesFrom rest uniqueFiles seen
  end.

Definition removeDuplicates (files : list DocumentFile) : list DocumentFile :=
  removeDuplicatesFrom files [] [].

(** [l1] is [l2] with some elements left out. *)
Inductive Subseq {A} : list A -> list A -> Prop :=
| Subseq_nil : Subseq [] []
| Subseq_keep a l1 l2 : Subseq l1 l2 -> Subseq (a :: l1) (a :: l2)
| Subseq_skip a l1 l2 : Subseq l1 l2 -> Subseq l1 (a :: l2).

(** Two files of the same name and size. *)
Definition sameNameAndSize (f g : DocumentFile) : Prop :=
  df_name f = df_name g /\ df_size f = df_size g.

(** A group of [findDuplicateFiles]: a file and, after it, at least one
    later file that duplicates it. *)
Definition duplicateGroupOf (files group : list DocumentFile) : Prop :=
  exists file members,
    group = file :: members /\ members <> []
    /\ Forall (fun other => isDuplicate file other = true) members
    /\ Subseq group files.

(** Three files: the first two of one name and size, the last two of one
    content. *)
Definition reportA : DocumentFile :=
  {| df_id := str "1"; df_name := str "report.pdf"; df_size := 10;
     df_type := str "application/pdf"; df_content := Some (str "alpha");
     df_lastModified := 0 |}.
Definition reportB : DocumentFile :=
  {| df_id := str "2"; df_name := str "report.pdf"; df_size := 10;
     df_type := str "application/pdf"; df_content := Some (str "beta");
     df_lastModified := 0 |}.
Definition reportC : DocumentFile :=
  {| df_id := str "3"; df_name := str "copy.pdf"; df_size := 12;
     df_type := str "application/pdf"; df_content := Some (str "beta");
     df_lastModified := 0 |}.

(* ------------------------------------------------------------------ *)
(** ** utils/fileValidation.ts *)

(** [array.includes(x)] on an array of strings. *)
Definition arrayIncludes (array : list jsstring) (x : jsstring) : bool :=
  existsb (jseqb x) array.

Definition allowedTypes : list jsstring :=
  [ str "application/pdf";
    str "application/vnd.openxmlformats-officedocument.spreadsheetml.sheet";
    str "application/vnd.openxmlformats-officedocument.wordprocessingml.document";
    str "application/vnd.openxmlformats-officedocument.presentationml.presentation";
    str "text/plain";
    str "text/csv" ].

(** [validateFileType(file)], from [file.type]. *)
Definition validateFileType (fileType : jsstring) : bool :=
  arrayIncludes allowedTypes fileType.

(** [s.lastIndexOf(c)] for a search string of one code unit: the index of
    its last occurrence, or -1. *)
Fixpoint lastIndexOf (s : jsstring) (c : char) : Z :=
  match s with
  | [] => -1
  | x :: s' =>
      let r := lastIndexOf s' c in
      if 0 <=? r then r + 1
      else if (x =? c)%N then 0 else -1
  end.

(** [x >>> 0]: the integer [x] modulo 2^32. *)
Definition toUint32 (x : Z) : Z := x mod 2 ^ 32.

(** [s.slice(start)]: a negative [start] counts from the end, and the
    start is clamped to the string. *)
Definition slice (s : jsstring) (start : Z) : jsstring :=
  let len := Z.of_nat (length s) in
  let from := if start <? 0 then Z.max (len + start) 0 else Z.min start len in
  skipn (Z.to_nat from) s.

(** The code unit of the full stop. *)
Definition DOT : char := 46%N.

Definition getFileExtension (filename : jsstring) : jsstring :=
  slice filename (toUint32 (lastIndexOf filename DOT - 1) + 2).

(* ------------------------------------------------------------------ *)
(** ** lib/services/frontend/fileProcessing.ts *)

(** [s.startsWith(prefix)]. *)
Fixpoint startsWith (s prefix : jsstring) {struct prefix} : bool :=
  match prefix, s with
  | [], _ => true
  | p :: prefix', c :: s' => (c =? p)%N && startsWith s' prefix'
  | _ :: _, [] => false
  end.

(** [s.includes(sub)]. *)
Fixpoint includes (s sub : jsstring) : bool :=
  startsWith s sub
  || match s with [] => false | _ :: s' => includes s' sub end.

(** [s.endsWith(suffix)]. *)
Definition endsWith (s suffix : jsstring) : bool :=
  startsWith (rev s) (rev suffix).

(** The extractors [extractFileContent] chooses from; [Unsupported] is the
    fall-through that returns the [[Unsupported file type: ...]] text. *)
Inductive Extractor :=
| ExtractPDF
| ExtractExcel
| ExtractWord
| ExtractPowerPoint
| ExtractText
| ExtractCSV
| Unsupported.

(** The [if] chain of [extractFileContent]: the extractor it awaits for a
    file of type [fileType] and name [name]. *)
Definition extractFileContent_dispatch (fileType name : jsstring)
  : Extractor :=
  if jseqb fileType (str "application/pdf") then ExtractPDF
  else if includes fileType (str "spreadsheet")
          || includes fileType (str "excel")
          || jseqb fileType
               (str "application/vnd.openxmlformats-officedocument.spreadsheetml.sheet")
          || endsWith name (str ".xlsx")
  then ExtractExcel
  else if includes fileType (str "word")
          || includes fileType (str "document")
          || jseqb fileType
               (str "application/vnd.openxmlformats-officedocument.wordprocessingml.document")
          || endsWith name (str ".docx")
  then ExtractWord
  else if includes fileType (str "presentation")
          || endsWith name (str ".pptx")
  then ExtractPowerPoint
  else if includes fileType (str "text") || endsWith name (str ".txt")
  then ExtractText
  else if includes fileType (str "csv") || endsWith name (str ".csv")
  then ExtractCSV
  else Unsupported.

(** The type browsers report for a [.pptx] file. *)
Definition pptxType : jsstring :=
  str "application/vnd.openxmlformats-officedocument.presentationml.presentation".

(* ------------------------------------------------------------------ *)
(** ** The classification service: [classifyDocuments], [processBatch] *)

Module Classify.

(** A document of the request; [doc_type] and [doc_size] are its
    [metadata]. *)
Record Document := {
  doc_filename : jsstring;
  doc_content : jsstring;
  doc_type : jsstring;
  doc_size : N
}.

Record Request := {
  documents : list Document;
  projectContext : option jsstring
}.

(** An entry of the result.  [confidence] is a number the code only
    copies or sets to a constant. *)
Record Classification := {
  filename : jsstring;
  category : jsstring;
  reasoning : jsstring;
  confidence : Q;
  relevantChapters : list jsstring;
  keyInsights : list jsstring
}.

(** One pass through the [try] block of [processBatch] as far as
    [transformedClassifications]: the request is built and sent, the reply
    parsed, and each entry validated and transformed.  Each of these steps
    may throw; otherwise the entries are there, at the types the
    validation has checked or the response interface declares. *)
Inductive Attempt :=
| Throws
| Transformed (transformedClassifications : list Classification).

(** The remote model together with the parsing of its reply: the outcome
    of the request numbered [n] in this run (from 0), for the documents
    and the context sent. *)
Definition Groq := nat -> list Document -> option jsstring -> Attempt.

(** What a run has done to the outside world: the number of requests sent
    and the delays waited, in order. *)
Record Log := {
  requests : nat;
  delays : list Z
}.

Definition sent (log : Log) : Log :=
  {| requests := S (requests log); delays := delays log |}.

Definition waited (ms : Z) (log : Log) : Log :=
  {| requests := requests log; delays := delays log ++ [ms] |}.

Definition MAX_RETRIES : nat := 3.
Definition INITIAL_RETRY_DELAY : Z := 1000.
Definition BATCH_SIZE : nat := 10.

(** [new Map(documents.map(doc => [key(doc), doc])).get(k)]: of the
    documents with key [k], the last one. *)
Definition mapGet (key : Document -> jsstring) (documents : list Document)
    (k : jsstring) : option Document :=
  find (fun doc => jseqb (key doc) k) (rev documents).

(** The assignment [classification.filename = name]. *)
Definition withFilename (classification : Classification)
    (name : jsstring) : Classification :=
  {| filename := name;
     category := category classification;
     reasoning := reasoning classification;
     confidence := confidence classification;
     relevantChapters := relevantChapters classification;
     keyInsights := keyInsights classification |}.

Definition missingClassification (doc : Document) : Classification :=
  {| filename := doc_filename doc;
     category := str "context";
     reasoning :=
       str "Document not classified by API - defaulting to context category";
     confidence := 3 # 10;
     relevantChapters := [];
     keyInsights := [] |}.

Definition fallbackClassification (doc : Document) : Classification :=
  {| filename := doc_filename doc;
     category := str "context";
     reasoning :=
       str "Classification unavailable due to API error - defaulting to context";
     confidence := 1 # 2;
     relevantChapters := [];
     keyInsights := [] |}.

Section ProcessBatch.

(** [normalizeFilename] lower-cases a name and normalises its spaces and
    dashes; nothing below depends on what it computes. *)
Variable normalizeFilename : jsstring -> jsstring.
Variable groq : Groq.

(** The loop over [transformedClassifications], with
    [finalClassifications] and the set [matchedDocuments] so far. *)
Fixpoint matchClassifications (documents : list Document)
    (transformedClassifications finalClassifications : list Classification)
    (matchedDocuments : list jsstring)
  : list Classification * list jsstring :=
  match transformedClassifications with
  | [] => (finalClassifications, matchedDocuments)
  | classification :: rest =>
      match mapGet doc_filename documents (filename classification) with
      | Some matchedDoc =>
          matchClassifications documents rest
            (finalClassifications ++ [classification])
            (matchedDocuments ++ [doc_filename matchedDoc])
      | None =>
          match mapGet (fun doc => normalizeFilename (doc_filename doc))
                  documents (normalizeFilename (filename classification)) with
          | Some matchedDoc =>
              matchClassifications documents rest
                (finalClassifications
                 ++ [withFilename classification (doc_filename matchedDoc)])
                (matchedDocuments ++ [doc_filename matchedDoc])
          | None =>
              matchClassifications documents rest
                finalClassifications matchedDocuments
          end
      end
  end.

(** The rest of the [try] block: the entries matched with the documents,
    and a default entry for each document left unmatched. *)
Definition finalClassifications (documents : list Document)
    (transformedClassifications : list Classification)
  : list Classification :=
  let '(final, matchedDocuments) :=
    matchClassifications documents transformedClassifications [] [] in
  let unmatchedDocuments :=
    filter (fun doc => negb (has matchedDocuments (doc_filename doc)))
      documents in
  if (0 <? length unmatchedDocuments)%nat
  then final ++ map missingClassification unmatchedDocuments
  else final.

(** The retry loop of [processBatch], at [attempt], with [remaining]
    attempts to go ([MAX_RETRIES - attempt] of them). *)
Fixpoint retryLoop (documents : list Document)
    (projectContext : option jsstring) (remaining attempt : nat) (log : Log)
  : list Classification * Log :=
  match remaining with
  | O => (map fallbackClassification documents, log)
  | S remaining' =>
      match groq (requests log) documents projectContext with
      | Transformed transformedClassifications =>
          (finalClassifications documents transformedClassifications,
           sent log)
      | Throws =>
          let log' :=
            if (attempt <? MAX_RETRIES - 1)%nat
            then waited (INITIAL_RETRY_DELAY * 2 ^ Z.of_nat attempt)
                   (sent log)
            else sent log in
          retryLoop documents projectContext remaining' (S attempt) log'
      end
  end.

Definition processBatch (documents : list Document)
    (projectContext : option jsstring) (log : Log)
  : list Classification * Log :=
  retryLoop documents projectContext MAX_RETRIES 0 log.

(** The returned classification, or the message of the error thrown. *)
Definition regenerateDocumentClassification (document : Document)
    (projectContext : option jsstring) (log : Log)
  : (jsstring + Classification) * Log :=
  let '(classifications, log') :=
    processBatch [document] projectContext log in
  match classifications with
  | [] => (inl (str "Failed to regenerate classification"), log')
  | classification :: _ => (inr classification, log')
  end.

(** The loop of [classifyDocuments] from index [i]; [fuel] bounds the
    number of batches. *)
Fixpoint batchLoop (request : Request) (fuel i : nat)
    (allClassifications : list Classification) (log : Log)
  : list Classification * Log :=
  match fuel with
  | O => (allClassifications, log)
  | S fuel' =>
      if (i <? length (documents request))%nat then
        let batch := firstn BATCH_SIZE (skipn i (documents request)) in
        let '(batchClassifications, log') :=
          processBatch batch (projectContext request) log in
        batchLoop request fuel' (i + BATCH_SIZE)
          (allClassifications ++ batchClassifications) log'
      else (allClassifications, log)
  end.

(** [validateApiKey()], from the value of the environment variable. *)
Definition validateApiKey (apiKey : option jsstring) : bool :=
  match apiKey with
  | Some key => truthy key
  | None => false
  end.

(** The classifications of the response, or the message of the error
    thrown. *)
Definition classifyDocuments (apiKey : option jsstring) (request : Request)
    (log : Log) : (jsstring + list Classification) * Log :=
  if negb (validateApiKey apiKey)
  then (inl (str "Groq API key is not configured. Please set NEXT_PUBLIC_GROQ_API_KEY in your .env.local file"),
        log)
  else
    let '(allClassifications, log') :=
      batchLoop request (length (documents request)) 0 [] log in
    (inr allClassifications, log').

End ProcessBatch.

(** The filenames of the documents, and of the classifications. *)
Definition documentNames (documents : list Document) : list jsstring :=
  map doc_filename documents.

Definition classifiedNames (classifications : list Classification)
  : list jsstring :=
  map filename classifications.

(** Two lists with the same elements. *)
Definition sameNames (l1 l2 : list jsstring) : Prop :=
  forall name, In name l1 <-> In name l2.

(** A model whose requests all fail, one that answers the third request,
    and one that answers the first. *)
Definition alwaysThrows : Groq := fun _ _ _ => Throws.

Definition universal (doc : Document) : Classification :=
  {| filename := doc_filename doc;
     category := str "universal";
     reasoning := str "pitch deck";
     confidence := 9 # 10;
     relevantChapters := [];
     keyInsights := [] |}.

Definition answersThird : Groq :=
  fun n documents _ =>
    if (n <? 2)%nat then Throws else Transformed (map universal documents).

Definition answersFirst : Groq :=
  fun _ documents _ => Transformed (map universal documents).

Definition deck : Document :=
  {| doc_filename := str "deck.pdf"; doc_content := str "Series A";
     doc_type := str "application/pdf"; doc_size := 2048 |}.

Definition model : Document :=
  {| doc_filename := str "model.xlsx"; doc_content := str "Key Metrics";
     doc_type := str "application/vnd.ms-excel"; doc_size := 4096 |}.

Definition log0 : Log := {| requests := 0; delays := [] |}.

End Classify.

(* ------------------------------------------------------------------ *)
(** ** The summary route: [POST] *)

Module Route.

(** A value of the parsed request body, or [undefined], which reading an
    absent property gives.  Of a number only its being zero matters. *)
#[local] Unset Elimination Schemes.
Inductive Json :=
| JUndefined
| JNull
| JBool (b : bool)
| JNumber (zero : bool)
| JString (s : jsstring)
| JArray (items : list Json)
| JObject (fields : list (jsstring * Json)).
#[local] Set Elimination Schemes.

(** Truthiness. *)
Definition truthyJson (v : Json) : bool :=
  match v with
  | JUndefined | JNull => false
  | JBool b => b
  | JNumber zero => negb zero
  | JString s => truthy s
  | JArray _ | JObject _ => true
  end.

(** [typeof v === 'object']. *)
Definition isObject (v : Json) : bool :=
  match v with
  | JNull | JArray _ | JObject _ => true
  | _ => false
  end.

(** [Array.isArray(v)]. *)
Definition isArray (v : Json) : bool :=
  match v with
  | JArray _ => true
  | _ => false
  end.

(** [typeof v === 'string']. *)
Definition isString (v : Json) : bool :=
  match v with
  | JString _ => true
  | _ => false
  end.

(** [v.key], for the property names the route reads, none of which a
    string, a number, a boolean or an array has: [None] is the TypeError of
    reading a property of [null] or [undefined].  Of the fields of an
    object with the same name, the last one counts. *)
Definition get (v : Json) (key : jsstring) : option Json :=
  match v with
  | JUndefined | JNull => None
  | JObject fields =>
      match find (fun field => jseqb (fst field) key) (rev fields) with
      | Some field => Some (snd field)
      | None => Some JUndefined
      end
  | _ => Some JUndefined
  end.

(** What the [try] block may throw: the rejection of [request.json()], the
    TypeError of a property read, or an [Error] with its message. *)
Inductive Thrown :=
| SyntaxError
| TypeError
| Error (message : jsstring).

Inductive Payload :=
| ErrorPayload (error : jsstring)
| CaughtPayload (thrown : Thrown)
| SummaryPayload (response : SummaryResponse).

Record Reply := {
  status : Z;
  payload : Payload
}.

Definition badRequest (error : jsstring) : Reply :=
  {| status := 400; payload := ErrorPayload error |}.

(** The reply of the [catch] block: the failed summary of the file
    'unknown', with the message of what was thrown. *)
Definition caught (thrown : Thrown) : Reply :=
  {| status := 500; payload := CaughtPayload thrown |}.

Definition QUOTE : jsstring := [34%N].

(** [validateGroqApiKey()], from the value of the environment variable. *)
Definition validateGroqApiKey (apiKey : option jsstring) : bool :=
  match apiKey with
  | Some key => truthy key
  | None => false
  end.

Section Post.

(** [String(v)] and [JSON.stringify(v, null, 2)]. *)
Variable toString : Json -> jsstring.
Variable stringify : Json -> jsstring.

(** A file name as the templates print it. *)
Definition asString (v : Json) : jsstring :=
  match v with
  | JString s => s
  | _ => toString v
  end.

(** A parsed content as [contentToText] sees it. *)
Definition asContent (v : Json) : Content :=
  match v with
  | JString s => CString s
  | JNull | JArray _ | JObject _ => CObject (stringify v)
  | _ => COther (toString v)
  end.

(** [documentChunks.map((chunk, index) => ...)], from [index] on. *)
Fixpoint mapChunks (documentChunks : list Json) (index : nat)
  : Thrown + list DocumentChunk :=
  match documentChunks with
  | [] => inr []
  | chunk :: rest =>
      match get chunk (str "parsedContent") with
      | None => inl TypeError
      | Some parsedContent =>
          if negb (truthyJson parsedContent)
          then inl (Error (str "Missing parsedContent in chunk "
                           ++ decimal index))
          else
            match mapChunks rest (S index) with
            | inl thrown => inl thrown
            | inr chunks =>
                inr ({| content := asContent parsedContent;
                        chunkIndex := Some index |} :: chunks)
            end
      end
  end.

(** The branch of a single whole document. *)
Definition wholeDocumentRequest (document : Json)
    (extractionScope scopeDescription : jsstring) : Reply + SummaryRequest :=
  match get document (str "filename"),
        get document (str "parsedContent") with
  | Some filename, Some parsedContent =>
      if negb (truthyJson filename) || negb (truthyJson parsedContent)
      then inl (badRequest
                  (str "Invalid document structure - missing filename or parsedContent"))
      else inr {| documentContent := asContent parsedContent;
                  documentChunks := None;
                  extractionScope := extractionScope;
                  scopeDescription := scopeDescription;
                  filename := asString filename |}
  | _, _ => inl (caught TypeError)
  end.

(** The branch of the chunks of a document. *)
Definition chunkedRequest (documentChunks : list Json)
    (extractionScope scopeDescription : jsstring) : Reply + SummaryRequest :=
  match documentChunks with
  | [] => inl (badRequest (str "documentChunks array cannot be empty"))
  | first :: _ =>
      match get first (str "filename") with
      | None => inl (caught TypeError)
      | Some filename =>
          if negb (truthyJson filename)
          then inl (badRequest (str "Missing filename in first chunk"))
          else
            match mapChunks documentChunks 0 with
            | inl thrown => inl (caught thrown)
            | inr chunks =>
                inr {| documentContent := COther (str "undefined");
                       documentChunks := Some chunks;
                       extractionScope := extractionScope;
                       scopeDescription := scopeDescription;
                       filename := asString filename |}
            end
      end
  end.

(** The checks of the body, after the destructuring. *)
Definition checkFields (document documentChunks extractionScope
    scopeDescription : Json) : Reply + SummaryRequest :=
  let hasDocument := truthyJson document && isObject document in
  let hasDocumentChunks :=
    truthyJson documentChunks && isArray documentChunks in
  if negb hasDocument && negb hasDocumentChunks
  then inl (badRequest
              (str "Must provide either " ++ QUOTE ++ str "document" ++ QUOTE
               ++ str " (whole document) or " ++ QUOTE
               ++ str "documentChunks" ++ QUOTE ++ str " (array of chunks)"))
  else if hasDocument && hasDocumentChunks
  then inl (badRequest
              (str "Provide either " ++ QUOTE ++ str "document" ++ QUOTE
               ++ str " or " ++ QUOTE ++ str "documentChunks" ++ QUOTE
               ++ str ", not both"))
  else if negb (truthyJson extractionScope)
          || negb (isString extractionScope)
  then inl (badRequest (str "Missing or invalid extractionScope"))
  else if negb (truthyJson scopeDescription)
          || negb (isString scopeDescription)
  then inl (badRequest (str "Missing or invalid scopeDescription"))
  else if hasDocument
  then wholeDocumentRequest document (asString extractionScope)
         (asString scopeDescription)
  else
    match documentChunks with
    | JArray items =>
        chunkedRequest items (asString extractionScope)
          (asString scopeDescription)
    | _ => inl (caught TypeError)   (* not reached: it is an array here *)
    end.

(** Everything [POST] does before it calls [summarizeDocument]: the reply
    it returns, or the request it passes on.  [body] is [None] when
    [request.json()] rejects. *)
Definition validate (apiKey : option jsstring) (body : option Json)
  : Reply + SummaryRequest :=
  if negb (validateGroqApiKey apiKey)
  then inl {| status := 500;
              payload := ErrorPayload (str "Groq API key not configured") |}
  else
    match body with
    | None => inl (caught SyntaxError)
    | Some body =>
        match get body (str "document"), get body (str "documentChunks"),
              get body (str "extractionScope"),
              get body (str "scopeDescription") with
        | Some document, Some documentChunks, Some extractionScope,
          Some scopeDescription =>
            checkFields document documentChunks extractionScope
              scopeDescription
        | _, _, _, _ => inl (caught TypeError)
        end
    end.

(** The route: the reply, and the requests made to the model. *)
Definition POST (groq : Groq) (apiKey : option jsstring)
    (body : option Json) : Reply * list Event :=
  match validate apiKey body with
  | inl reply => (reply, [])
  | inr request =>
      match summarizeDocument groq request [] with
      | (inr summary, events) =>
          ({| status := 200; payload := SummaryPayload summary |}, events)
      | (inl message, events) => (caught (Error message), events)
      end
  end.

End Post.

(** A body with two chunks, and one whose array of chunks is empty. *)
Definition chunkJson (name text : String.string) : Json :=
  JObject [(str "filename", JString (str name));
           (str "parsedContent", JString (str text))].

Definition twoChunkBody : Json :=
  JObject [(str "documentChunks",
            JArray [chunkJson "deck.pdf" "Revenue grew";
                    chunkJson "deck.pdf" "Costs fell"]);
           (str "extractionScope", JString (str "finance"));
           (str "scopeDescription", JString (str "revenue and costs"))].

Definition emptyChunksBody : Json :=
  JObject [(str "documentChunks", JArray []);
           (str "extractionScope", JString (str "finance"));
           (str "scopeDescription", JString (str "revenue and costs"))].

(** Spellings that play no part: every value printed as the empty string. *)
Definition unprinted : Json -> jsstring := fun _ => [].

End Route.

(* ------------------------------------------------------------------ *)
(** ** Facts about strings, trimming, splitting and joining *)

Lemma truthy_length (s : jsstring) : truthy s = true <-> (0 < length s)%nat.
Proof. destruct s; simpl; split; intros; try lia; try discriminate; auto. Qed.

Lemma truthy_false (s : jsstring) : truthy s = false <-> s = [].
Proof. destruct s; simpl; split; intros; congruence. Qed.

Lemma good_truthy (w : jsstring) : good w = true -> truthy w = true.
Proof. unfold good. intros H. apply andb_prop in H. tauto. Qed.

Lemma Forall_good_truthy (ws : list jsstring) :
  Forall (fun w => good w = true) ws -> Forall (fun w => truthy w = true) ws.
Proof. apply Forall_impl. exact good_truthy. Qed.

(** *** Token estimate *)

Lemma Math_ceil_quarter (n : Z) : Math_ceil (inject_Z n / 4) = (n + 3) / 4.
Proof.
  unfold Math_ceil, Qceiling, Qfloor, Qdiv, Qmult, Qinv, Qopp, inject_Z. simpl.
  rewrite Z.mul_1_r.
  pose proof (Z.div_mod (- n) 4 ltac:(lia)).
  pose proof (Z.mod_pos_bound (- n) 4 ltac:(lia)).
  pose proof (Z.div_mod (n + 3) 4 ltac:(lia)).
  pose proof (Z.mod_pos_bound (n + 3) 4 ltac:(lia)).
  lia.
Qed.

Lemma countTokens_string (s : jsstring) :
  countTokens s = (Z.of_nat (length s) + 3) / 4.
Proof.
  unfold countTokens. destruct s as [|c s]; [reflexivity|].
  cbv [usableText]. apply Math_ceil_quarter.
Qed.

Lemma countTokens_mono (s1 s2 : jsstring) :
  (length s1 <= length s2)%nat -> countTokens s1 <= countTokens s2.
Proof.
  intros H. rewrite !countTokens_string.
  apply Z.div_le_mono; lia.
Qed.

Lemma countTokens_nonneg (v : value) : 0 <= countTokens v.
Proof.
  destruct v as [s|]; [|cbv; discriminate].
  rewrite countTokens_string. apply Z.div_pos; lia.
Qed.

Lemma countTokens_bounds (s : jsstring) :
  4 * (countTokens s - 1) < Z.of_nat (length s) <= 4 * countTokens s.
Proof.
  rewrite countTokens_string.
  pose proof (Z.div_mod (Z.of_nat (length s) + 3) 4 ltac:(lia)).
  pose proof (Z.mod_pos_bound (Z.of_nat (length s) + 3) 4 ltac:(lia)).
  lia.
Qed.

(** *** Splitting *)

Lemma split_go_not_nil (b : bool) (s : jsstring) : split_go b s <> [].
Proof.
  revert b. induction s as [|c s IH]; intros b; simpl; [discriminate|].
  destruct (is_ws c).
  - destruct b; [apply IH|discriminate].
  - destruct (split_go false s); discriminate.
Qed.

Lemma split_go_flag (s : jsstring) :
  split_go false s = split_go true s \/ split_go false s = [] :: split_go true s.
Proof.
  destruct s as [|c s]; simpl; [now left|].
  destruct (is_ws c); [now right|now left].
Qed.

Lemma split_go_wsfree (b : bool) (s : jsstring) :
  Forall (fun w => forallb (fun c => negb (is_ws c)) w = true) (split_go b s).
Proof.
  revert b. induction s as [|c s IH]; intros b; simpl.
  - repeat constructor.
  - destruct (is_ws c) eqn:Hc.
    + destruct b; [apply IH|]. constructor; [reflexivity|apply IH].
    + specialize (IH false). destruct (split_go false s) as [|w ws].
      * repeat constructor. simpl. now rewrite Hc.
      * inversion IH; subst. constructor; [|assumption].
        simpl. rewrite Hc. simpl. assumption.
Qed.

Lemma trimEnd_idem (s : jsstring) : trimEnd (trimEnd s) = trimEnd s.
Proof.
  induction s as [|c s IH]; simpl; [reflexivity|].
  destruct (trimEnd s) as [|d t] eqn:E.
  - destruct (is_ws c) eqn:Hc; simpl; [reflexivity|now rewrite Hc].
  - change (trimEnd (c :: d :: t)) with
      (match trimEnd (d :: t) with
       | [] => if is_ws c then [] else [c]
       | x => c :: x end).
    rewrite IH. reflexivity.
Qed.

Lemma trimEnd_head (c : char) (s : jsstring) :
  is_ws c = false -> exists t, trimEnd (c :: s) = c :: t.
Proof.
  intros Hc. simpl. destruct (trimEnd s); rewrite ?Hc; eauto.
Qed.

Lemma trimStart_head (s : jsstring) :
  trimStart s = [] \/ exists c t, trimStart s = c :: t /\ is_ws c = false.
Proof.
  induction s as [|c s IH]; simpl; [now left|].
  destruct (is_ws c) eqn:Hc; [exact IH|]. right. eauto.
Qed.

(** Pieces of a string that does not end in whitespace. *)
Lemma split_go_trimmed_end (s : jsstring) :
  s <> [] -> trimEnd s = s ->
  Forall (fun w => truthy w = true) (split_go true s).
Proof.
  induction s as [|c s IH]; intros Hne Hs; [congruence|].
  simpl in Hs. simpl.
  destruct (trimEnd s) as [|d t] eqn:E.
  - destruct (is_ws c) eqn:Hc; [discriminate|].
    injection Hs as Hs. subst s. simpl. repeat constructor.
  - injection Hs as Hs.
    assert (Hs' : s <> []) by (rewrite <- Hs; discriminate).
    pose proof (IH Hs' Hs) as Hall.
    destruct (is_ws c) eqn:Hc; [exact Hall|].
    destruct (split_go_flag s) as [Hf|Hf]; rewrite Hf.
    + destruct (split_go true s) as [|w ws]; [repeat constructor|].
      inversion Hall; subst. constructor; [reflexivity|assumption].
    + constructor; [reflexivity|assumption].
Qed.

(** The words of a trimmed text: one empty word when nothing is left,
    otherwise words that are not empty and hold no whitespace. *)
Lemma words_of_trim (s : jsstring) :
  (trim s = [] /\ split_ws (trim s) = [[]]) \/
  (trim s <> [] /\ Forall (fun w => good w = true) (split_ws (trim s))).
Proof.
  destruct (trim s) as [|c t] eqn:E; [left; split; reflexivity|].
  right. split; [discriminate|].
  assert (Hc : is_ws c = false).
  { unfold trim in E. destruct (trimStart_head s) as [H0|(c0 & t0 & H0 & Hws)];
      rewrite H0 in E; [discriminate|].
    destruct (trimEnd_head c0 t0 Hws) as [t1 H1]. rewrite H1 in E.
    congruence. }
  assert (Hfix : trimEnd (c :: t) = c :: t).
  { rewrite <- E. unfold trim. apply trimEnd_idem. }
  assert (Hsw : split_ws (c :: t) = split_go true (c :: t)).
  { unfold split_ws. simpl. rewrite Hc. reflexivity. }
  rewrite Hsw.
  pose proof (split_go_trimmed_end (c :: t) ltac:(discriminate) Hfix) as Ht.
  pose proof (split_go_wsfree true (c :: t)) as Hw.
  rewrite Forall_forall in *. intros w Hin. unfold good.
  rewrite (Ht w Hin), (Hw w Hin). reflexivity.
Qed.

(** *** Joining *)

Lemma join_cons2 (sep w x : jsstring) (r : list jsstring) :
  join sep (w :: x :: r) = w ++ sep ++ join sep (x :: r).
Proof. reflexivity. Qed.

Lemma join_truthy (ws : list jsstring) :
  Forall (fun w => truthy w = true) ws -> ws <> [] ->
  truthy (join SP ws) = true.
Proof.
  intros H Hne. destruct ws as [|w [|x r]]; [congruence| |].
  - inversion H; assumption.
  - rewrite join_cons2. inversion H; subst.
    destruct w; [discriminate|reflexivity].
Qed.

Lemma join_snoc (b : list jsstring) (w : jsstring) :
  Forall (fun w => truthy w = true) b ->
  join SP (b ++ [w]) = join SP b ++ (if truthy (join SP b) then SP ++ w else w).
Proof.
  induction b as [|x b IH]; intros H; [reflexivity|].
  inversion H as [|? ? Hx Hb]; subst.
  rewrite (join_truthy (x :: b) H ltac:(discriminate)).
  destruct b as [|y b]; [reflexivity|].
  change ((x :: y :: b) ++ [w]) with (x :: y :: (b ++ [w])).
  rewrite !join_cons2.
  change (y :: b ++ [w]) with ((y :: b) ++ [w]).
  rewrite (IH Hb), (join_truthy (y :: b) Hb ltac:(discriminate)).
  now rewrite <- !app_assoc.
Qed.

Lemma join_length_suffix (pre b : list jsstring) :
  (length (join SP b) <= length (join SP (pre ++ b)))%nat.
Proof.
  induction pre as [|x pre IH]; simpl app; [lia|].
  destruct (pre ++ b) as [|y r] eqn:E.
  - destruct b; [simpl; lia|]. destruct pre; discriminate.
  - rewrite join_cons2, !length_app. lia.
Qed.

Lemma join_length_tl (b : list jsstring) :
  (length (join SP (tl b)) <= length (join SP b))%nat.
Proof.
  destruct b as [|x b]; [simpl; lia|]. apply (join_length_suffix [x] b).
Qed.

Lemma join_length_snoc (b : list jsstring) (w : jsstring) :
  Forall (fun w => truthy w = true) b ->
  length (join SP (b ++ [w])) =
  (length (join SP b) + (if truthy (join SP b) then 1 else 0) + length w)%nat.
Proof.
  intros H. rewrite (join_snoc b w H).
  destruct (truthy (join SP b)); rewrite ?length_app; simpl; lia.
Qed.

Lemma join_head (w : jsstring) (ws : list jsstring) :
  good w = true ->
  exists c t, join SP (w :: ws) = c :: t /\ is_ws c = false.
Proof.
  intros Hw. unfold good in Hw. apply andb_prop in Hw as [Hne Hfree].
  destruct w as [|c w]; [discriminate|].
  simpl in Hfree. apply andb_prop in Hfree as [Hc _].
  apply negb_true_iff in Hc.
  destruct ws; [exists c, w|eexists c, _]; split; try reflexivity; assumption.
Qed.

(** *** Words of a joined list of words *)

Lemma trimEnd_app (s1 s2 : jsstring) :
  trimEnd s2 <> [] -> trimEnd (s1 ++ s2) = s1 ++ trimEnd s2.
Proof.
  intros H. induction s1 as [|c s1 IH]; [reflexivity|].
  simpl. rewrite IH. destruct (s1 ++ trimEnd s2) eqn:E; [|reflexivity].
  apply app_eq_nil in E. tauto.
Qed.

Lemma trimEnd_wsfree (w : jsstring) :
  forallb (fun c => negb (is_ws c)) w = true -> trimEnd w = w.
Proof.
  induction w as [|c w IH]; intros H; [reflexivity|].
  simpl in H. apply andb_prop in H as [Hc Hw]. apply negb_true_iff in Hc.
  simpl. rewrite (IH Hw). destruct w; [now rewrite Hc|reflexivity].
Qed.

Lemma trimEnd_join (ws : list jsstring) :
  Forall (fun w => good w = true) ws -> trimEnd (join SP ws) = join SP ws.
Proof.
  induction ws as [|w ws IH]; intros H; [reflexivity|].
  inversion H as [|? ? Hw Hws]; subst.
  destruct ws as [|x r].
  - apply trimEnd_wsfree. unfold good in Hw. apply andb_prop in Hw. tauto.
  - rewrite join_cons2, app_assoc, trimEnd_app; rewrite (IH Hws); [reflexivity|].
    pose proof (join_truthy (x :: r) (Forall_good_truthy _ Hws) ltac:(discriminate)) as Ht.
    intros E. rewrite E in Ht. discriminate.
Qed.

Lemma trim_join (ws : list jsstring) :
  Forall (fun w => good w = true) ws -> trim (join SP ws) = join SP ws.
Proof.
  intros H. unfold trim. destruct ws as [|w ws]; [reflexivity|].
  inversion H as [|? ? Hw Hws]; subst.
  destruct (join_head w ws Hw) as (c & t & E & Hc).
  rewrite E. simpl trimStart. rewrite Hc, <- E. now apply trimEnd_join.
Qed.

Lemma split_go_wsfree_app (w s : jsstring) :
  forallb (fun c => negb (is_ws c)) w = true ->
  split_go false (w ++ s) =
  (w ++ hd [] (split_go false s)) :: tl (split_go false s).
Proof.
  induction w as [|c w IH]; intros H.
  - simpl. pose proof (split_go_not_nil false s).
    destruct (split_go false s); [congruence|reflexivity].
  - simpl in H. apply andb_prop in H as [Hc Hw]. apply negb_true_iff in Hc.
    simpl. rewrite Hc, (IH Hw). reflexivity.
Qed.

Lemma split_ws_join (ws : list jsstring) :
  Forall (fun w => good w = true) ws -> ws <> [] ->
  split_ws (join SP ws) = ws.
Proof.
  unfold split_ws.
  induction ws as [|w ws IH]; intros H Hne; [congruence|].
  inversion H as [|? ? Hw Hws]; subst.
  assert (Hfree : forallb (fun c => negb (is_ws c)) w = true).
  { unfold good in Hw. apply andb_prop in Hw. tauto. }
  destruct ws as [|x r].
  - simpl join. rewrite <- (app_nil_r w) at 1.
    rewrite (split_go_wsfree_app w [] Hfree). simpl. now rewrite app_nil_r.
  - rewrite join_cons2, (split_go_wsfree_app w _ Hfree).
    inversion Hws as [|? ? Hx Hr]; subst.
    destruct (join_head x r Hx) as (c & t & E & Hc).
    assert (Hsp : split_go false (SP ++ join SP (x :: r)) = [] :: x :: r).
    { rewrite <- (IH Hws ltac:(discriminate)) at 2.
      rewrite E. simpl. rewrite Hc. reflexivity. }
    rewrite Hsp. simpl. now rewrite app_nil_r.
Qed.

Lemma filter_truthy_id (ws : list jsstring) :
  Forall (fun w => truthy w = true) ws -> filter truthy ws = ws.
Proof.
  induction 1 as [|w ws Hw _ IH]; simpl; [reflexivity|].
  now rewrite Hw, IH.
Qed.

Lemma wordsOf_join (ws : list jsstring) :
  Forall (fun w => good w = true) ws -> wordsOf (join SP ws) = ws.
Proof.
  intros H. unfold wordsOf. rewrite (trim_join ws H).
  destruct ws as [|w ws]; [reflexivity|].
  rewrite (split_ws_join _ H ltac:(discriminate)).
  apply filter_truthy_id, Forall_good_truthy, H.
Qed.

(* ------------------------------------------------------------------ *)
(** ** Concrete runs *)

Example split_keeps_outer_pieces :
  split_ws (str " a  b ") = [[]; str "a"; str "b"; []].
Proof. reflexivity. Qed.

Example words_of_padded_text :
  wordsOf (str "  one   two ") = [str "one"; str "two"].
Proof. reflexivity. Qed.

Example tokens_of_five_units : countTokens (str "aaaab") = 2.
Proof. reflexivity. Qed.

Example chunks_of_three_words :
  chunkTextByTokens (str "aaaa bbbb cccc") 2 200
  = [str "aaaa"; str "aaaa bbbb"; str "bbbb cccc"]
  /\ overlapCounts (str "aaaa bbbb cccc") 2 200 = [0; 1; 1]%nat.
Proof. split; vm_compute; reflexivity. Qed.

Example stripped_chunks_of_three_words :
  stripOverlaps (overlapCounts (str "aaaa bbbb cccc") 2 200)
    (chunkTextByTokens (str "aaaa bbbb cccc") 2 200)
  = [[str "aaaa"]; [str "bbbb"]; [str "cccc"]].
Proof. vm_compute. reflexivity. Qed.

Example chunks_under_zero_budget :
  chunkTextByTokens (str "a b") 0 200 = [str "a"; str "a b"].
Proof. vm_compute. reflexivity. Qed.

Example blank_text_is_returned_whole :
  chunkTextByTokens (str "     ") 1 200 = [str "     "].
Proof. vm_compute. reflexivity. Qed.

Example padded_text_is_rebuilt :
  chunkTextByTokens (str "a          b") 2 200 = [str "a b"].
Proof. vm_compute. reflexivity. Qed.

Example three_chunk_trace :
  snd (summarizeDocument answersAll threeChunks [])
  = [ GroqCall (ChunkPrompt (str "Team") (str "Founders") 0 3 (str "one"))
        (Completed (Some (str "about one")));
      Sleep 500;
      GroqCall (ChunkPrompt (str "Team") (str "Founders") 1 3 (str "two"))
        (Completed (Some (str "about two")));
      Sleep 500;
      GroqCall (ChunkPrompt (str "Team") (str "Founders") 2 3 (str "three"))
        (Completed (Some (str "about three")));
      GroqCall (MergePrompt (str "deck.pdf")
                  [str "about one"; str "about two"; str "about three"])
        (Completed (Some (str "about one about two about three"))) ].
Proof. vm_compute. reflexivity. Qed.

Example rejected_chunk_trace :
  snd (summarizeDocument rejectsSecond threeChunks [])
  = [ GroqCall (ChunkPrompt (str "Team") (str "Founders") 0 3 (str "one"))
        (Completed (Some (str "about one")));
      Sleep 500;
      GroqCall (ChunkPrompt (str "Team") (str "Founders") 1 3 (str "two"))
        (Rejected (str "rate limit")) ].
Proof. vm_compute. reflexivity. Qed.

Example part_label : chunkInfo 1 3 = str " (Part 2 of 3)".
Proof. vm_compute. reflexivity. Qed.

(* ------------------------------------------------------------------ *)
(** ** The word loop *)

Section Loop.

Variables maxTokens overlapTokens : Z.

Local Abbreviation step' := (step maxTokens overlapTokens).
Local Abbreviation loop' := (loop maxTokens overlapTokens).

Lemma trackOverlap_nil (w : jsstring) : trackOverlap overlapTokens [] w = [w].
Proof. reflexivity. Qed.

Lemma trackOverlap_suffix (tracked : list jsstring) (w : jsstring) :
  exists q, tracked ++ [w] = q ++ trackOverlap overlapTokens tracked w.
Proof.
  unfold trackOverlap.
  destruct (50 <? length (tracked ++ [w]))%nat; [|now exists []].
  destruct (countTokens (join SP (tracked ++ [w])) >? overlapTokens);
    [|now exists []].
  destruct (tracked ++ [w]) as [|x r]; [now exists []|now exists [x]].
Qed.

Lemma trackOverlap_Forall (P : jsstring -> Prop) (tracked : list jsstring)
    (w : jsstring) :
  Forall P tracked -> P w -> Forall P (trackOverlap overlapTokens tracked w).
Proof.
  intros Ht Hw.
  destruct (trackOverlap_suffix tracked w) as [q Hq].
  assert (H : Forall P (tracked ++ [w])) by (apply Forall_app; auto).
  rewrite Hq in H. apply Forall_app in H. tauto.
Qed.

Lemma step_split (st : LoopState) (w : jsstring) :
  splitsAt maxTokens st w = true ->
  chunks (step' st w) = chunks st ++ [currentChunk st]
  /\ currentChunk (step' st w) =
     join SP (overlapWords st)
     ++ (if truthy (join SP (overlapWords st)) then SP ++ w else w)
  /\ overlapWords (step' st w) = [w].
Proof.
  intros H. unfold step, placeWord. rewrite H. simpl. auto.
Qed.

Lemma step_keep (st : LoopState) (w : jsstring) :
  splitsAt maxTokens st w = false ->
  chunks (step' st w) = chunks st
  /\ currentChunk (step' st w) = testChunk st w
  /\ overlapWords (step' st w) = trackOverlap overlapTokens (overlapWords st) w.
Proof.
  intros H. unfold step, placeWord. rewrite H. simpl. auto.
Qed.

Lemma loop_app (st : LoopState) (ws1 ws2 : list jsstring) :
  loop' st (ws1 ++ ws2) = loop' (loop' st ws1) ws2.
Proof.
  revert st. induction ws1 as [|w ws1 IH]; intros st; [reflexivity|].
  simpl. apply IH.
Qed.

(** *** The loop state and the words of its chunks *)

Lemma Sim_initial : Sim initialState ghost0.
Proof. constructor; simpl; auto. now exists []. Qed.

Lemma Sim_overlap_truthy (st : LoopState) (g : Ghost) :
  Sim st g -> Forall (fun w => truthy w = true) (overlapWords st).
Proof.
  intros [_ _ [before Hb] Ht]. rewrite Hb in Ht.
  apply Forall_app in Ht as [_ Ht]. apply Forall_app in Ht. tauto.
Qed.

Lemma Sim_step (st : LoopState) (g : Ghost) (w : jsstring) :
  Sim st g -> truthy w = true -> Sim (step' st w) (gstep maxTokens st g w).
Proof.
  intros HS Hw. pose proof (Sim_overlap_truthy st g HS) as Hov.
  destruct HS as [Hc Hcur [before Hb] Ht].
  unfold gstep. destruct (splitsAt maxTokens st w) eqn:E.
  - destruct (step_split st w E) as (H1 & H2 & H3).
    constructor; cbn [g_closed g_ov g_new].
    + rewrite H1, Hc, map_app. simpl. unfold chunkWords. simpl.
      now rewrite Hcur.
    + rewrite H2. symmetry. now apply join_snoc.
    + rewrite H3. now exists [].
    + apply Forall_app. split; [assumption|now constructor].
  - destruct (step_keep st w E) as (H1 & H2 & H3).
    constructor; cbn [g_closed g_ov g_new].
    + now rewrite H1.
    + rewrite H2. unfold testChunk. rewrite Hcur, app_assoc.
      symmetry. now apply join_snoc.
    + rewrite H3. destruct (trackOverlap_suffix (overlapWords st) w) as [q Hq].
      exists (before ++ q). rewrite Hb, <- !app_assoc. now rewrite Hq.
    + rewrite app_assoc. apply Forall_app. split; [assumption|now constructor].
Qed.

Lemma Sim_loop (words : list jsstring) (st : LoopState) (g : Ghost) :
  Sim st g -> Forall (fun w => truthy w = true) words ->
  Sim (loop' st words) (gloop maxTokens overlapTokens st g words).
Proof.
  revert st g. induction words as [|w words IH]; intros st g HS Hw; [exact HS|].
  inversion Hw; subst. simpl. apply IH; [now apply Sim_step|assumption].
Qed.

(** *** Every word is taken once, in order *)

Lemma taken_step (st : LoopState) (g : Ghost) (w : jsstring) :
  taken (gstep maxTokens st g w) = taken g ++ [w].
Proof.
  unfold taken, gstep. destruct (splitsAt maxTokens st w); simpl.
  - rewrite map_app, concat_app. simpl. now rewrite app_nil_r.
  - now rewrite app_assoc.
Qed.

Lemma taken_loop (words : list jsstring) (st : LoopState) (g : Ghost) :
  taken (gloop maxTokens overlapTokens st g words) = taken g ++ words.
Proof.
  revert st g. induction words as [|w words IH]; intros st g; simpl.
  - now rewrite app_nil_r.
  - rewrite IH, taken_step, <- app_assoc. reflexivity.
Qed.

Lemma taken_all (g : Ghost) : concat (map snd (g_all g)) = taken g.
Proof.
  unfold g_all, taken. rewrite map_app, concat_app. simpl.
  now rewrite app_nil_r.
Qed.

(** *** The seeded words are those the buffer held at the split *)

Lemma seeds_step (st : LoopState) (g : Ghost) (w : jsstring) :
  map (fun p => length (fst p)) (g_all (gstep maxTokens st g w)) =
  map (fun p => length (fst p)) (g_all g)
  ++ (if splitsAt maxTokens st w then [length (overlapWords st)] else []).
Proof.
  unfold g_all, gstep. destruct (splitsAt maxTokens st w); simpl.
  - now rewrite !map_app.
  - rewrite !map_app. simpl. now rewrite app_nil_r.
Qed.

Lemma seeds_loop (words : list jsstring) (st : LoopState) (g : Ghost) :
  map (fun p => length (fst p)) (g_all (gloop maxTokens overlapTokens st g words)) =
  map (fun p => length (fst p)) (g_all g)
  ++ overlapSeeds maxTokens overlapTokens st words.
Proof.
  revert st g. induction words as [|w words IH]; intros st g; simpl.
  - now rewrite app_nil_r.
  - rewrite IH, seeds_step, <- app_assoc. reflexivity.
Qed.

(** *** A property of the words holds of the words of the chunks *)

Lemma wordsAll_step (P : jsstring -> Prop) (st : LoopState) (g : Ghost)
    (w : jsstring) :
  Sim st g -> wordsAll P g -> P w -> wordsAll P (gstep maxTokens st g w).
Proof.
  intros [_ _ [before Hb] _] Hg Hw. unfold wordsAll, g_all in *.
  apply Forall_app in Hg as [Hcl Hop].
  inversion Hop as [|? ? Hcur _]; subst. unfold chunkWords in Hcur.
  simpl in Hcur. unfold gstep.
  destruct (splitsAt maxTokens st w); simpl.
  - apply Forall_app. split.
    + apply Forall_app. split; [assumption|]. now repeat constructor.
    + repeat constructor. unfold chunkWords. simpl.
      apply Forall_app. split; [|now repeat constructor].
      rewrite Hb in Hcur. apply Forall_app in Hcur as [_ Hcur].
      apply Forall_app in Hcur. tauto.
  - apply Forall_app. split; [assumption|]. repeat constructor.
    unfold chunkWords. simpl. rewrite app_assoc.
    apply Forall_app. split; [assumption|now repeat constructor].
Qed.

Lemma wordsAll_loop (P : jsstring -> Prop) (words : list jsstring)
    (st : LoopState) (g : Ghost) :
  Sim st g -> wordsAll P g -> Forall P words ->
  Forall (fun w => truthy w = true) words ->
  wordsAll P (gloop maxTokens overlapTokens st g words).
Proof.
  revert st g. induction words as [|w words IH]; intros st g HS Hg HP Ht;
    [exact Hg|].
  inversion HP; inversion Ht; subst. simpl.
  apply IH; auto using Sim_step, wordsAll_step.
Qed.

End Loop.

Section LoopInvariants.

Variables maxTokens overlapTokens : Z.

Local Abbreviation step' := (step maxTokens overlapTokens).
Local Abbreviation loop' := (loop maxTokens overlapTokens).
Local Abbreviation gloop' := (gloop maxTokens overlapTokens).

(** *** Seeded words are a copy of the end of the chunk before *)

Lemma lastWords_snoc (prev : list jsstring) l p :
  lastWords prev (l ++ [p]) = chunkWords p.
Proof. unfold lastWords. now rewrite fold_left_app. Qed.

Lemma chained_app (prev : list jsstring) l1 l2 :
  chained prev (l1 ++ l2) <-> chained prev l1 /\ chained (lastWords prev l1) l2.
Proof.
  revert prev. induction l1 as [|p l1 IH]; intros prev; simpl.
  - unfold lastWords. simpl. tauto.
  - rewrite IH. unfold lastWords. simpl. tauto.
Qed.

Lemma chained_step (st : LoopState) (g : Ghost) (w : jsstring) :
  Sim st g -> chained [] (g_all g) -> chained [] (g_all (gstep maxTokens st g w)).
Proof.
  intros [_ _ [before Hb] _] Hch. unfold gstep.
  destruct (splitsAt maxTokens st w).
  - unfold g_all at 1. cbn [g_closed g_ov g_new].
    apply chained_app. split; [exact Hch|].
    unfold g_all. rewrite lastWords_snoc. simpl. split; [|exact I].
    unfold chunkWords. simpl. exists (g_ov g ++ before).
    now rewrite Hb, app_assoc.
  - unfold g_all in *. cbn [g_closed g_ov g_new].
    apply chained_app in Hch as [H1 H2]. apply chained_app.
    split; [exact H1|]. simpl in *. tauto.
Qed.

Lemma chained_loop (words : list jsstring) (st : LoopState) (g : Ghost) :
  Sim st g -> chained [] (g_all g) ->
  Forall (fun w => truthy w = true) words ->
  chained [] (g_all (gloop' st g words)).
Proof.
  revert st g. induction words as [|w words IH]; intros st g HS Hch Ht;
    [exact Hch|].
  inversion Ht; subst. simpl.
  apply IH; auto using Sim_step, chained_step.
Qed.

(** *** Budget: only a freshly seeded chunk may exceed it *)

Lemma join_nil_inv (ws : list jsstring) :
  Forall (fun w => truthy w = true) ws -> join SP ws = [] -> ws = [].
Proof.
  intros H E. destruct ws as [|w ws]; [reflexivity|].
  pose proof (join_truthy (w :: ws) H ltac:(discriminate)) as Ht.
  rewrite E in Ht. discriminate.
Qed.

Lemma budgeted_step (st : LoopState) (g : Ghost) (w : jsstring) :
  Sim st g -> truthy w = true -> budgeted maxTokens g ->
  budgeted maxTokens (gstep maxTokens st g w).
Proof.
  intros HS Hw [Hcl Hop].
  pose proof (Sim_step maxTokens overlapTokens st g w HS Hw) as HS'.
  destruct HS as [_ Hcur _ Ht].
  unfold budgeted, gstep in *. destruct (splitsAt maxTokens st w) eqn:E;
    cbn [g_closed g_ov g_new] in *.
  - split.
    + apply Forall_app. split; [assumption|].
      apply Forall_cons; [|apply Forall_nil].
      destruct Hop as [Hop|Hnil]; [exact Hop|].
      unfold splitsAt in E. apply andb_prop in E as [_ E].
      rewrite Hcur, Hnil in E. discriminate.
    + left. right. reflexivity.
  - split; [assumption|]. left.
    unfold splitsAt in E. apply andb_false_iff in E as [E|E].
    + left. unfold chunkWords. cbn [fst snd].
      destruct HS' as [_ Hcur' _ _]. cbn [g_ov g_new] in Hcur'.
      rewrite <- Hcur'. destruct (step_keep maxTokens overlapTokens st w) as (_ & H2 & _).
      { unfold splitsAt. rewrite E. reflexivity. }
      rewrite H2. rewrite Z.gtb_ltb in E. apply Z.ltb_ge in E. exact E.
    + right. cbn [snd]. apply truthy_false in E. rewrite Hcur in E.
      apply (join_nil_inv _ Ht) in E. apply app_eq_nil in E as [_ E].
      rewrite E. reflexivity.
Qed.

Lemma budgeted_loop (words : list jsstring) (st : LoopState) (g : Ghost) :
  Sim st g -> budgeted maxTokens g -> Forall (fun w => truthy w = true) words ->
  budgeted maxTokens (gloop' st g words).
Proof.
  revert st g. induction words as [|w words IH]; intros st g HS Hb Ht;
    [exact Hb|].
  inversion Ht; subst. simpl.
  apply IH; auto using Sim_step, budgeted_step.
Qed.

Lemma gstep_new (st : LoopState) (g : Ghost) (w : jsstring) :
  g_new (gstep maxTokens st g w) <> [].
Proof.
  unfold gstep. destruct (splitsAt maxTokens st w); simpl; [discriminate|].
  destruct (g_new g); discriminate.
Qed.

Lemma gloop_new (words : list jsstring) (st : LoopState) (g : Ghost) :
  g_new g <> [] \/ words <> [] -> g_new (gloop' st g words) <> [].
Proof.
  revert st g. induction words as [|w words IH]; intros st g H; simpl.
  - destruct H; congruence.
  - apply IH. left. apply gstep_new.
Qed.

(** *** The run of the loop on the words of a text *)

Lemma loop_blank :
  loop' initialState [[]] =
  {| chunks := []; currentChunk := []; currentTokens := 0;
     overlapWords := [[]] |}.
Proof.
  simpl. unfold step, placeWord, splitsAt. simpl.
  rewrite andb_false_r. reflexivity.
Qed.

(** What the loop computes on words that are not empty. *)
Lemma loop_result (words : list jsstring) :
  Forall (fun w => good w = true) words -> words <> [] ->
  let st := loop' initialState words in
  let g := gloop' initialState ghost0 words in
  truthy (currentChunk st) = true
  /\ chunks st ++ [currentChunk st] = map (fun p => join SP (chunkWords p)) (g_all g)
  /\ 0%nat :: overlapSeeds maxTokens overlapTokens initialState words
     = map (fun p => length (fst p)) (g_all g)
  /\ wordsAll (fun w => good w = true) g
  /\ taken g = words
  /\ chained [] (g_all g)
  /\ Forall (withinOrSeed maxTokens) (g_all g).
Proof.
  intros Hgood Hne st g.
  pose proof (Forall_good_truthy _ Hgood) as Htr.
  pose proof (Sim_loop maxTokens overlapTokens words _ _ Sim_initial Htr) as HS.
  fold st g in HS.
  assert (Hnew : g_new g <> []) by (apply gloop_new; now right).
  destruct HS as [Hc Hcur Hov Ht].
  assert (Hcurt : truthy (currentChunk st) = true).
  { rewrite Hcur. apply join_truthy; [assumption|].
    intros E. apply app_eq_nil in E. tauto. }
  repeat split.
  - exact Hcurt.
  - unfold g_all. rewrite map_app, Hc. simpl. unfold chunkWords at 2. simpl.
    now rewrite Hcur.
  - unfold g. rewrite seeds_loop. reflexivity.
  - apply wordsAll_loop; auto using Sim_initial.
    unfold wordsAll, g_all. simpl. repeat constructor.
  - unfold g. rewrite taken_loop. reflexivity.
  - apply chained_loop; auto using Sim_initial.
    simpl. split; [now exists []|exact I].
  - pose proof (budgeted_loop words _ _ Sim_initial
                  (conj (Forall_nil _) (or_intror eq_refl)) Htr) as [Hb1 Hb2].
    fold g in Hb1, Hb2. unfold g_all. apply Forall_app. split; [assumption|].
    apply Forall_cons; [|apply Forall_nil].
    destruct Hb2 as [Hb2|Hb2]; [exact Hb2|].
    apply app_eq_nil in Hb2. tauto.
Qed.

End LoopInvariants.

(* ------------------------------------------------------------------ *)
(** ** What [chunkTextByTokens] returns *)

Lemma usableText_cons (c : char) (s : jsstring) :
  usableText (VString (c :: s)) = Some (c :: s).
Proof. reflexivity. Qed.

Lemma wordsOf_blank (s : jsstring) : trim s = [] -> wordsOf s = [].
Proof. intros H. unfold wordsOf. rewrite H. reflexivity. Qed.

Lemma wordsOf_words (s : jsstring) :
  Forall (fun w => good w = true) (split_ws (trim s)) ->
  wordsOf s = split_ws (trim s).
Proof.
  intros H. unfold wordsOf. apply filter_truthy_id, Forall_good_truthy, H.
Qed.

Lemma strip_ghost (l : list (list jsstring * list jsstring)) :
  Forall (fun p => Forall (fun w => good w = true) (chunkWords p)) l ->
  stripOverlaps (map (fun p => length (fst p)) l)
    (map (fun p => join SP (chunkWords p)) l) = map snd l.
Proof.
  unfold stripOverlaps.
  induction 1 as [|p l Hp _ IH]; [reflexivity|].
  simpl. rewrite IH, (wordsOf_join _ Hp). f_equal.
  unfold chunkWords. rewrite skipn_app, skipn_all, Nat.sub_diag. reflexivity.
Qed.

Lemma dup_ghost (l : list (list jsstring * list jsstring)) (prev : list jsstring) :
  Forall (fun p => Forall (fun w => good w = true) (chunkWords p)) l ->
  chained prev l ->
  duplicatedTails prev
    (combine (map (fun p => length (fst p)) l)
       (map (fun p => join SP (chunkWords p)) l)).
Proof.
  intros H. revert prev.
  induction H as [|p l Hp _ IH]; intros prev Hch; [exact I|].
  simpl in *. destruct Hch as [Hpre Hch]. rewrite (wordsOf_join _ Hp).
  split; [|now apply IH].
  unfold chunkWords. rewrite firstn_app, firstn_all, Nat.sub_diag. simpl.
  now rewrite app_nil_r.
Qed.

(** The three ways [chunkTextByTokens] answers: nothing for the empty
    string; the text as it is when it fits the budget or holds no word;
    otherwise the chunks of the loop, each made of seeded and taken words. *)
Lemma chunkText_cases (s : jsstring) (maxTokens overlapTokens : Z) :
  (s = []
   /\ chunkTextByTokens s maxTokens overlapTokens = []
   /\ overlapCounts s maxTokens overlapTokens = [])
  \/ (s <> [] /\ (countTokens s <= maxTokens \/ wordsOf s = [])
      /\ chunkTextByTokens s maxTokens overlapTokens = [s]
      /\ overlapCounts s maxTokens overlapTokens = [0%nat])
  \/ (s <> [] /\ maxTokens < countTokens s /\
      exists l,
        l <> []
        /\ Forall (fun p => Forall (fun w => good w = true) (chunkWords p)) l
        /\ chunkTextByTokens s maxTokens overlapTokens
           = map (fun p => join SP (chunkWords p)) l
        /\ overlapCounts s maxTokens overlapTokens
           = map (fun p => length (fst p)) l
        /\ concat (map snd l) = wordsOf s
        /\ chained [] l
        /\ Forall (withinOrSeed maxTokens) l).
Proof.
  destruct s as [|c s]; [left; auto|]. right.
  unfold chunkTextByTokens, overlapCounts. rewrite usableText_cons.
  destruct (countTokens (VString (c :: s)) <=? maxTokens) eqn:Efit.
  { left. apply Z.leb_le in Efit. repeat split; auto. discriminate. }
  apply Z.leb_gt in Efit.
  destruct (words_of_trim (c :: s)) as [[Hblank Hw]|[Hne Hgood]].
  - left. rewrite Hw, loop_blank. simpl.
    repeat split; auto using wordsOf_blank. discriminate.
  - right. split; [discriminate|]. split; [exact Efit|].
    pose proof (loop_result maxTokens overlapTokens _ Hgood
                  (split_go_not_nil false _)) as H.
    cbv zeta in H. destruct H as (Ht & Hch & Hk & Hall & Htk & Hchain & Hbud).
    rewrite Ht, Hch, Hk.
    set (g := gloop maxTokens overlapTokens initialState ghost0
                (split_ws (trim (c :: s)))) in *.
    exists (g_all g).
    assert (Hnn : g_all g <> []).
    { unfold g_all. destruct (g_closed g); discriminate. }
    repeat split; auto.
    + destruct (g_all g); [congruence|reflexivity].
    + rewrite taken_all, Htk. symmetry. now apply wordsOf_words.
Qed.

(* ------------------------------------------------------------------ *)
(** ** Coverage *)

(** C1. For every text T and all budgets, the chunks of
    [chunkTextByTokens], once the words duplicated from the chunk before
    are removed from the head of every chunk, give back the words of T
    exactly, in order: there is one count per chunk, nothing is removed from
    the first chunk, what is removed from a later chunk is a copy of the end
    of the chunk before it, and what remains, concatenated, is the word
    sequence of T. *)
Theorem chunks_cover_words (T : jsstring) (maxTokens overlapTokens : Z) :
  let cs := chunkTextByTokens T maxTokens overlapTokens in
  let ks := overlapCounts T maxTokens overlapTokens in
  length ks = length cs
  /\ hd 0%nat ks = 0%nat
  /\ duplicatedTails [] (combine ks cs)
  /\ concat (stripOverlaps ks cs) = wordsOf T.
Proof.
  cbv zeta.
  destruct (chunkText_cases T maxTokens overlapTokens)
    as [(HT & Hc & Hk)|[(HT & _ & Hc & Hk)|(HT & _ & l & Hl & Hgood & Hc & Hk & Hcat & Hch & _)]];
    rewrite Hc, Hk.
  - subst T. simpl. auto.
  - split; [reflexivity|]. split; [reflexivity|]. split.
    + simpl. split; [now exists []|exact I].
    + unfold stripOverlaps. simpl. now rewrite app_nil_r.
  - split; [|split; [|split]].
    + now rewrite !length_map.
    + destruct l as [|p l]; [congruence|]. simpl in *.
      destruct Hch as [[before Hb] _]. symmetry in Hb.
      apply app_eq_nil in Hb as [_ Hb]. now rewrite Hb.
    + now apply dup_ghost.
    + now rewrite strip_ghost.
Qed.

(* ------------------------------------------------------------------ *)
(** ** Budget *)

(** Under a budget of 2 tokens the chunks of ["aaaa bbbb cccc"] are
    ["aaaa"], ["aaaa bbbb"] and ["bbbb cccc"].  The second one measures 3
    tokens, and none of its words exceeds the budget: not every chunk is
    within budget or holds an oversize word. *)
Lemma seeded_chunk_over_budget :
  ~ (forall c : jsstring,
       In c (chunkTextByTokens (str "aaaa bbbb cccc") 2 200) ->
       countTokens c <= 2
       \/ exists w : jsstring, In w (wordsOf c) /\ 2 < countTokens w).
Proof.
  intros H. destruct (H (str "aaaa bbbb")) as [Hfit|(w & Hin & Hbig)].
  - vm_compute. auto.
  - vm_compute in Hfit. now apply Hfit.
  - vm_compute in Hin. destruct Hin as [<-|[<-|[]]]; vm_compute in Hbig;
      discriminate.
Qed.

(** The same with the budget floor of a chunked retry, 500 tokens, and the
    default overlap: the first chunk takes 19 words of 25 tokens, all 19 open
    the second chunk, which measures 505 tokens with its one new word. *)
Example seeded_chunk_over_retry_budget :
  overlapCounts fortyLongWords 500 TOKEN_OVERLAP = [0; 19; 1; 18; 1]%nat
  /\ map countTokens (map VString (chunkTextByTokens fortyLongWords 500 TOKEN_OVERLAP))
     = [480; 505; 480; 480; 51].
Proof. split; vm_compute; reflexivity. Qed.

Lemma budget_ghost (maxTokens : Z) (l : list (list jsstring * list jsstring)) :
  Forall (fun p => Forall (fun w => good w = true) (chunkWords p)) l ->
  Forall (withinOrSeed maxTokens) l ->
  Forall2 (fun (k : nat) (c : jsstring) =>
             countTokens c <= maxTokens \/ length (wordsOf c) = S k)
    (map (fun p => length (fst p)) l)
    (map (fun p => join SP (chunkWords p)) l).
Proof.
  induction 1 as [|p l Hp _ IH]; intros Hb; [constructor|].
  inversion Hb as [|? ? Hp' Hl']; subst. simpl. constructor; [|now apply IH].
  destruct Hp' as [Hw|Hs]; [now left|right].
  rewrite (wordsOf_join _ Hp). unfold chunkWords. rewrite length_app. lia.
Qed.

(** C2, amended. For every text T that holds a word, every chunk of
    [chunkTextByTokens] is within [maxTokens], unless it consists of its
    duplicated prefix and exactly one word taken from T (the word that opened
    it; for the first chunk, the first word alone). *)
Theorem chunk_within_budget_or_seed (T : jsstring) (maxTokens overlapTokens : Z) :
  wordsOf T <> [] ->
  Forall2 (fun (k : nat) (c : jsstring) =>
             countTokens c <= maxTokens \/ length (wordsOf c) = S k)
    (overlapCounts T maxTokens overlapTokens)
    (chunkTextByTokens T maxTokens overlapTokens).
Proof.
  intros Hw.
  destruct (chunkText_cases T maxTokens overlapTokens)
    as [(HT & Hc & Hk)|[(HT & Hfit & Hc & Hk)|(HT & _ & l & Hl & Hgood & Hc & Hk & _ & _ & Hb)]];
    rewrite Hc, Hk.
  - constructor.
  - destruct Hfit as [Hfit|Hfit]; [|congruence].
    repeat constructor. exact Hfit.
  - now apply budget_ghost.
Qed.

Lemma chunk_within_budget_or_seed_witness :
  Forall2 (fun (k : nat) (c : jsstring) =>
             countTokens c <= 2 \/ length (wordsOf c) = S k)
    (overlapCounts (str "aaaa bbbb cccc") 2 200)
    (chunkTextByTokens (str "aaaa bbbb cccc") 2 200).
Proof.
  apply (chunk_within_budget_or_seed (str "aaaa bbbb cccc") 2 200).
  vm_compute. discriminate.
Defined.

(* ------------------------------------------------------------------ *)
(** ** Texts that fit the budget, and the empty text *)




(** Empty content under the budget -1: [originalTokenCount > maxTokens]
    holds, 0 being more than -1, so the plan needs chunking and its chunks
    are those of [chunkTextByTokens], none.  The plan is not the one of a
    single empty fragment, and the two entry points agree on zero
    fragments. *)
Lemma empty_content_under_negative_budget :
  needsChunking (chunkDocumentByTokens (CString (str "")) (-1) 200) = true
  /\ plan_chunks (chunkDocumentByTokens (CString (str "")) (-1) 200) = []
  /\ chunkCount (chunkDocumentByTokens (CString (str "")) (-1) 200) = 0
  /\ length (chunkTextByTokens (str "") (-1) 200)
     = length (plan_chunks
                 (chunkDocumentByTokens (CString (str "")) (-1) 200))
  /\ ~ (forall maxTokens overlapTokens,
          needsChunking
            (chunkDocumentByTokens (CString (str "")) maxTokens overlapTokens)
          = false
          /\ plan_chunks
               (chunkDocumentByTokens (CString (str "")) maxTokens
                  overlapTokens)
             = [str ""]
          /\ chunkCount
               (chunkDocumentByTokens (CString (str "")) maxTokens
                  overlapTokens)
             = 1).
Proof.
  split; [vm_compute; reflexivity|]. split; [vm_compute; reflexivity|].
  split; [vm_compute; reflexivity|]. split; [vm_compute; reflexivity|].
  intros H. destruct (H (-1) 200) as (Hn & _). vm_compute in Hn.
  discriminate Hn.
Qed.

(** C10, amended. Under any budget from 0 up, the two entry points
    disagree on empty input: [chunkTextByTokens] returns no chunk for the
    empty string and for a value that is not a string, while
    [chunkDocumentByTokens] on empty content returns
    [needsChunking = false], the one chunk [""] and [chunkCount = 1]. *)
Theorem empty_input_edge (maxTokens overlapTokens : Z) :
  0 <= maxTokens ->
  chunkTextByTokens (VString []) maxTokens overlapTokens = []
  /\ chunkTextByTokens VOther maxTokens overlapTokens = []
  /\ needsChunking (chunkDocumentByTokens (CString []) maxTokens overlapTokens) = false
  /\ plan_chunks (chunkDocumentByTokens (CString []) maxTokens overlapTokens) = [[]]
  /\ chunkCount (chunkDocumentByTokens (CString []) maxTokens overlapTokens) = 1
  /\ length (chunkTextByTokens (VString []) maxTokens overlapTokens)
     <> length (plan_chunks (chunkDocumentByTokens (CString []) maxTokens overlapTokens)).
Proof.
  intros HM.
  assert (E : chunkDocumentByTokens (CString []) maxTokens overlapTokens
              = {| plan_chunks := [[]]; originalTokenCount := 0; chunkCount := 1;
                   needsChunking := false; plan_text := [] |}).
  { unfold chunkDocumentByTokens. simpl contentToText.
    change (countTokens (VString [])) with 0.
    assert (E : (0 >? maxTokens) = false).
    { rewrite Z.gtb_ltb. now apply Z.ltb_ge. }
    now rewrite E. }
  rewrite E. simpl. repeat split; auto.
Qed.

Lemma empty_input_edge_witness :
  chunkTextByTokens (VString []) 100 10 = []
  /\ chunkTextByTokens VOther 100 10 = []
  /\ needsChunking (chunkDocumentByTokens (CString []) 100 10) = false
  /\ plan_chunks (chunkDocumentByTokens (CString []) 100 10) = [[]]
  /\ chunkCount (chunkDocumentByTokens (CString []) 100 10) = 1
  /\ length (chunkTextByTokens (VString []) 100 10)
     <> length (plan_chunks (chunkDocumentByTokens (CString []) 100 10)).
Proof. apply (empty_input_edge 100 10). lia. Defined.

(* ------------------------------------------------------------------ *)
(** ** The overlap buffer *)

(** Fifty-three one-letter words under a budget of 26 tokens and the default
    overlap of 200 tokens: the buffer tracks 52 words when the last word
    arrives, and all 52 open the second chunk.  So the buffer is not held to
    50 words, nor is the duplicated prefix. *)
Lemma overlap_buffer_exceeds_fifty :
  ~ (forall n : nat,
       (length (overlapWords
                  (loop 26 200 initialState
                     (firstn n (split_ws (trim fiftyThreeWords))))) <= 50)%nat)
  /\ ~ Forall (fun k => (k <= 50)%nat) (overlapCounts fiftyThreeWords 26 200).
Proof.
  split.
  - intros H. specialize (H 52%nat). vm_compute in H.
    repeat (apply le_S_n in H). inversion H.
  - assert (E : overlapCounts fiftyThreeWords 26 200 = [0%nat; 52%nat])
      by (vm_compute; reflexivity).
    rewrite E. intros H. inversion H as [|? ? _ H1]; subst.
    inversion H1 as [|? ? H2 _]; subst. lia.
Qed.

Lemma join_length_lower (ws : list jsstring) :
  Forall (fun w => truthy w = true) ws ->
  (2 * length ws <= length (join SP ws) + 1)%nat.
Proof.
  induction 1 as [|w ws Hw Hws IH]; [simpl; lia|].
  apply truthy_length in Hw.
  destruct ws as [|x r]; [simpl in *; lia|].
  rewrite join_cons2, !length_app. simpl length in *. lia.
Qed.

Section OverlapBound.

Variables maxTokens overlapTokens : Z.

Local Abbreviation bound := (Z.max 50 (2 * overlapTokens)).

Lemma trackOverlap_bound (tracked : list jsstring) (w : jsstring) :
  Forall (fun w => truthy w = true) tracked -> truthy w = true ->
  Z.of_nat (length tracked) <= bound ->
  Z.of_nat (length (trackOverlap overlapTokens tracked w)) <= bound.
Proof.
  intros Ht Hw Hb. unfold trackOverlap.
  assert (Hp : Forall (fun w => truthy w = true) (tracked ++ [w])).
  { apply Forall_app. split; [assumption|now constructor]. }
  destruct (50 <? length (tracked ++ [w]))%nat eqn:E50.
  - destruct (countTokens (join SP (tracked ++ [w])) >? overlapTokens) eqn:Etok.
    + destruct tracked; simpl in *; rewrite ?length_app in *; simpl; lia.
    + rewrite Z.gtb_ltb in Etok. apply Z.ltb_ge in Etok.
      pose proof (join_length_lower _ Hp).
      pose proof (countTokens_bounds (join SP (tracked ++ [w]))).
      lia.
  - apply Nat.ltb_ge in E50. lia.
Qed.

Lemma step_overlap_bound (st : LoopState) (w : jsstring) :
  Forall (fun w => truthy w = true) (overlapWords st) -> truthy w = true ->
  Z.of_nat (length (overlapWords st)) <= bound ->
  Forall (fun w => truthy w = true)
    (overlapWords (step maxTokens overlapTokens st w))
  /\ Z.of_nat (length (overlapWords (step maxTokens overlapTokens st w))) <= bound.
Proof.
  intros Ht Hw Hb. destruct (splitsAt maxTokens st w) eqn:E.
  - destruct (step_split maxTokens overlapTokens st w E) as (_ & _ & H3).
    rewrite H3. split; [now constructor|simpl; lia].
  - destruct (step_keep maxTokens overlapTokens st w E) as (_ & _ & H3).
    rewrite H3. split; [now apply trackOverlap_Forall|now apply trackOverlap_bound].
Qed.

Lemma loop_overlap_bound (words : list jsstring) (st : LoopState) :
  Forall (fun w => truthy w = true) words ->
  Forall (fun w => truthy w = true) (overlapWords st) ->
  Z.of_nat (length (overlapWords st)) <= bound ->
  Z.of_nat (length (overlapWords (loop maxTokens overlapTokens st words))) <= bound.
Proof.
  revert st. induction words as [|w words IH]; intros st Hw Ht Hb; [exact Hb|].
  inversion Hw; subst. simpl.
  destruct (step_overlap_bound st w Ht ltac:(assumption) Hb) as [Ht' Hb'].
  now apply IH.
Qed.

Lemma seeds_overlap_bound (words : list jsstring) (st : LoopState) :
  Forall (fun w => truthy w = true) words ->
  Forall (fun w => truthy w = true) (overlapWords st) ->
  Z.of_nat (length (overlapWords st)) <= bound ->
  Forall (fun k => Z.of_nat k <= bound)
    (overlapSeeds maxTokens overlapTokens st words).
Proof.
  revert st. induction words as [|w words IH]; intros st Hw Ht Hb;
    [constructor|].
  inversion Hw; subst. simpl.
  destruct (step_overlap_bound st w Ht ltac:(assumption) Hb) as [Ht' Hb'].
  apply Forall_app. split; [|now apply IH].
  destruct (splitsAt maxTokens st w); now repeat constructor.
Qed.

Lemma Forall_firstn {A} (P : A -> Prop) (n : nat) (l : list A) :
  Forall P l -> Forall P (firstn n l).
Proof.
  intros H. rewrite <- (firstn_skipn n l) in H. apply Forall_app in H. tauto.
Qed.

(** C4, amended. After every word of the loop the overlap buffer holds at
    most max(50, 2 * overlapTokens) words: the oldest tracked word is dropped
    only when more than 50 words are tracked and their joined text also
    exceeds [overlapTokens], one word for each word appended.  The prefix
    duplicated into a chunk is capped by the same bound, which is 50 when
    [overlapTokens <= 25]. *)
Theorem overlap_buffer_bound (T : jsstring) (n : nat) :
  let st := loop maxTokens overlapTokens initialState
              (firstn n (split_ws (trim T))) in
  Z.of_nat (length (overlapWords st)) <= Z.max 50 (2 * overlapTokens)
  /\ Forall (fun k => Z.of_nat k <= Z.max 50 (2 * overlapTokens))
       (overlapCounts T maxTokens overlapTokens)
  /\ (forall tracked w,
        trackOverlap overlapTokens tracked w =
        if (50 <? length (tracked ++ [w]))%nat
           && (overlapTokens <? countTokens (join SP (tracked ++ [w])))
        then tl (tracked ++ [w]) else tracked ++ [w]).
Proof.
  cbv zeta. split; [|split].
  - destruct (words_of_trim T) as [[_ Hw]|[_ Hgood]].
    + rewrite Hw. destruct n as [|n]; [simpl; lia|].
      change (firstn (S n) [[]]) with (@nil char :: firstn n (@nil jsstring)).
      rewrite firstn_nil, loop_blank. simpl. lia.
    + apply loop_overlap_bound; [|constructor|simpl; lia].
      apply Forall_firstn, Forall_good_truthy, Hgood.
  - unfold overlapCounts. destruct (usableText T) as [s|] eqn:Es; [|constructor].
    assert (s = T) by (destruct T; simpl in Es; congruence). subst s.
    assert (H0 : Forall (fun k => Z.of_nat k <= bound) [0%nat])
      by (repeat constructor; simpl; lia).
    destruct (countTokens T <=? maxTokens); [exact H0|].
    destruct (truthy _); [|exact H0].
    constructor; [simpl; lia|].
    destruct (words_of_trim T) as [[_ Hw]|[_ Hgood]].
    + rewrite Hw. simpl. unfold splitsAt. simpl. rewrite andb_false_r.
      constructor.
    + apply seeds_overlap_bound; [|constructor|simpl; lia].
      apply Forall_good_truthy, Hgood.
  - intros tracked w. unfold trackOverlap. rewrite Z.gtb_ltb.
    destruct (50 <? length (tracked ++ [w]))%nat; [|reflexivity].
    destruct (overlapTokens <? countTokens (join SP (tracked ++ [w])));
      reflexivity.
Qed.

End OverlapBound.

(* ------------------------------------------------------------------ *)
(** ** Chunk count against the budget *)

Lemma glue_length (a w : jsstring) :
  length (glue a w) = (length a + (if truthy a then 1 else 0) + length w)%nat.
Proof.
  unfold glue. destruct (truthy a); rewrite ?length_app; simpl; lia.
Qed.

Lemma glue_mono (a b w : jsstring) :
  (length a <= length b)%nat -> (length (glue a w) <= length (glue b w))%nat.
Proof.
  intros H. rewrite !glue_length.
  destruct a, b; simpl in *; lia.
Qed.

Lemma glue_truthy (a w : jsstring) : truthy w = true -> truthy (glue a w) = true.
Proof.
  intros H. apply truthy_length. rewrite glue_length.
  apply truthy_length in H. lia.
Qed.

Lemma glue_join (b : list jsstring) (w : jsstring) :
  Forall (fun w => truthy w = true) b ->
  glue (join SP b) w = join SP (b ++ [w]).
Proof. intros H. symmetry. now apply join_snoc. Qed.

Lemma length_truthy_mono (a b : jsstring) :
  (length a <= length b)%nat -> truthy a = true -> truthy b = true.
Proof. rewrite !truthy_length. lia. Qed.

Section Coupling.

Variables maxTokens1 maxTokens2 overlapTokens : Z.
Hypothesis budgets : maxTokens2 <= maxTokens1.

Lemma trackOverlap_last (tracked : list jsstring) (w : jsstring) :
  exists before, trackOverlap overlapTokens tracked w = before ++ [w].
Proof.
  unfold trackOverlap.
  destruct (50 <? length (tracked ++ [w]))%nat eqn:E; [|now exists tracked].
  destruct (countTokens (join SP (tracked ++ [w])) >? overlapTokens);
    [|now exists tracked].
  destruct tracked as [|x t]; [discriminate|]. now exists t.
Qed.

Lemma trackOverlap_join_le (tracked : list jsstring) (w : jsstring) :
  (length (join SP (trackOverlap overlapTokens tracked w))
   <= length (join SP (tracked ++ [w])))%nat.
Proof.
  destruct (trackOverlap_suffix overlapTokens tracked w) as [q Hq].
  rewrite Hq. apply join_length_suffix.
Qed.

(** Two buffers, one the end of the other, stay so after a word. *)
Lemma trackOverlap_coupled (before b1 : list jsstring) (w : jsstring) :
  exists before',
    trackOverlap overlapTokens (before ++ b1) w
    = before' ++ trackOverlap overlapTokens b1 w.
Proof.
  unfold trackOverlap. rewrite <- app_assoc.
  pose proof (join_length_suffix before (b1 ++ [w])) as Hlen.
  apply countTokens_mono in Hlen.
  destruct before as [|x before'].
  { exists []. reflexivity. }
  assert (Hl : (length (b1 ++ [w]) < length ((x :: before') ++ b1 ++ [w]))%nat)
    by (rewrite !length_app; simpl; lia).
  destruct (Nat.ltb_spec 50 (length (b1 ++ [w]))) as [E1|E1];
    destruct (Nat.ltb_spec 50 (length ((x :: before') ++ b1 ++ [w]))) as [E2|E2];
    try lia.
  - rewrite !Z.gtb_ltb.
    destruct (Z.ltb_spec overlapTokens (countTokens (join SP (b1 ++ [w])))) as [T1|T1];
      destruct (Z.ltb_spec overlapTokens
                  (countTokens (join SP ((x :: before') ++ b1 ++ [w])))) as [T2|T2];
      try lia.
    + destruct (b1 ++ [w]) as [|y r] eqn:Eb; [simpl in E1; lia|].
      exists (before' ++ [y]). simpl. now rewrite <- app_assoc.
    + exists before'. reflexivity.
    + exists (x :: before'). reflexivity.
  - destruct (countTokens (join SP ((x :: before') ++ b1 ++ [w])) >? overlapTokens).
    + exists before'. reflexivity.
    + exists (x :: before'). reflexivity.
  - exists (x :: before'). reflexivity.
Qed.

Lemma splits_transfer (s1 s2 : LoopState) (w : jsstring) :
  (length (currentChunk s1) <= length (currentChunk s2))%nat ->
  splitsAt maxTokens1 s1 w = true -> splitsAt maxTokens2 s2 w = true.
Proof.
  unfold splitsAt. intros Hlen H. apply andb_prop in H as [Htok Htr].
  apply andb_true_intro. split.
  - rewrite Z.gtb_ltb in *. apply Z.ltb_lt in Htok. apply Z.ltb_lt.
    pose proof (glue_mono _ _ w Hlen) as Hg.
    apply countTokens_mono in Hg. unfold glue in Hg. unfold testChunk in *. lia.
  - eapply length_truthy_mono; eauto.
Qed.

Lemma Coupled_initial : Coupled initialState initialState.
Proof.
  constructor; simpl; try lia; auto.
  intros _. split; [lia|now exists []].
Qed.

Lemma Coupled_step (s1 s2 : LoopState) (w : jsstring) :
  Coupled s1 s2 -> truthy w = true ->
  Coupled (step maxTokens1 overlapTokens s1 w)
          (step maxTokens2 overlapTokens s2 w).
Proof.
  intros [Hcount Hlevel Hbehind Ht1 Ht2 Hcur2] Hw.
  assert (Hw1 : Forall (fun w => truthy w = true) [w]) by now constructor.
  destruct (splitsAt maxTokens1 s1 w) eqn:E1;
    destruct (splitsAt maxTokens2 s2 w) eqn:E2.
  - (* both runs close their chunk *)
    destruct (step_split _ overlapTokens s1 w E1) as (A1 & B1 & C1).
    destruct (step_split _ overlapTokens s2 w E2) as (A2 & B2 & C2).
    fold (glue (join SP (overlapWords s1)) w) in B1.
    fold (glue (join SP (overlapWords s2)) w) in B2.
    rewrite (glue_join _ w Ht1) in B1. rewrite (glue_join _ w Ht2) in B2.
    constructor; rewrite ?A1, ?A2, ?B1, ?B2, ?C1, ?C2, ?length_app;
      simpl length; auto.
    + lia.
    + intros H. destruct Hlevel as [_ [before Hb]]; [lia|].
      split; [|now exists []].
      rewrite Hb, <- app_assoc. apply join_length_suffix.
    + intros H. apply (join_length_suffix (overlapWords s2) [w]).
    + intros _. apply join_truthy.
      * apply Forall_app. split; assumption.
      * destruct (overlapWords s2); discriminate.
  - (* only the run under the larger budget closes its chunk *)
    destruct (step_split _ overlapTokens s1 w E1) as (A1 & B1 & C1).
    destruct (step_keep _ overlapTokens s2 w E2) as (A2 & B2 & C2).
    fold (glue (join SP (overlapWords s1)) w) in B1.
    change (testChunk s2 w) with (glue (currentChunk s2) w) in B2.
    assert (Hlt : (length (chunks s1) < length (chunks s2))%nat).
    { destruct (Nat.eq_dec (length (chunks s1)) (length (chunks s2))) as [e|]; [|lia].
      destruct (Hlevel e) as [Hl _].
      rewrite (splits_transfer s1 s2 w Hl E1) in E2. discriminate. }
    constructor; rewrite ?A1, ?A2, ?B1, ?B2, ?C1, ?C2, ?length_app;
      simpl length.
    + lia.
    + intros H. split.
      * apply glue_mono. apply Hbehind. lia.
      * destruct (trackOverlap_last (overlapWords s2) w) as [before Hb].
        now exists before.
    + intros H. rewrite glue_length. lia.
    + assumption.
    + now apply trackOverlap_Forall.
    + intros _. now apply glue_truthy.
  - (* only the run under the smaller budget closes its chunk *)
    destruct (step_keep _ overlapTokens s1 w E1) as (A1 & B1 & C1).
    destruct (step_split _ overlapTokens s2 w E2) as (A2 & B2 & C2).
    fold (glue (join SP (overlapWords s2)) w) in B2.
    rewrite (glue_join _ w Ht2) in B2.
    constructor; rewrite ?A1, ?A2, ?B1, ?B2, ?C1, ?C2, ?length_app;
      simpl length.
    + lia.
    + intros H. lia.
    + intros H. destruct Hlevel as [_ [before Hb]]; [lia|].
      etransitivity; [apply trackOverlap_join_le|].
      rewrite Hb, <- app_assoc. apply join_length_suffix.
    + now apply trackOverlap_Forall.
    + assumption.
    + intros _. apply join_truthy.
      * apply Forall_app. split; assumption.
      * destruct (overlapWords s2); discriminate.
  - (* neither run closes its chunk *)
    destruct (step_keep _ overlapTokens s1 w E1) as (A1 & B1 & C1).
    destruct (step_keep _ overlapTokens s2 w E2) as (A2 & B2 & C2).
    change (testChunk s1 w) with (glue (currentChunk s1) w) in B1.
    change (testChunk s2 w) with (glue (currentChunk s2) w) in B2.
    constructor; rewrite ?A1, ?A2, ?B1, ?B2, ?C1, ?C2.
    + lia.
    + intros H. destruct (Hlevel H) as [Hl [before Hb]]. split.
      * now apply glue_mono.
      * rewrite Hb. apply trackOverlap_coupled.
    + intros H. specialize (Hbehind H).
      etransitivity; [apply trackOverlap_join_le|].
      rewrite <- (glue_join _ w Ht1). now apply glue_mono.
    + now apply trackOverlap_Forall.
    + now apply trackOverlap_Forall.
    + intros _. now apply glue_truthy.
Qed.

Lemma Coupled_loop (words : list jsstring) (s1 s2 : LoopState) :
  Coupled s1 s2 -> Forall (fun w => truthy w = true) words ->
  Coupled (loop maxTokens1 overlapTokens s1 words)
          (loop maxTokens2 overlapTokens s2 words).
Proof.
  revert s1 s2. induction words as [|w words IH]; intros s1 s2 HC Hw;
    [exact HC|].
  inversion Hw; subst. simpl. apply IH; [now apply Coupled_step|assumption].
Qed.

End Coupling.

Lemma result_length (st : LoopState) (s : jsstring) :
  let chunks' :=
    if truthy (currentChunk st) then chunks st ++ [currentChunk st]
    else chunks st in
  length (if (0 <? length chunks')%nat then chunks' else [s]) =
  Nat.max 1 (length (chunks st) + (if truthy (currentChunk st) then 1 else 0)).
Proof.
  cbv zeta. destruct (truthy (currentChunk st)).
  - rewrite length_app. simpl length.
    destruct (Nat.ltb_spec 0 (length (chunks st) + 1)); [|lia].
    rewrite length_app. simpl length. lia.
  - destruct (Nat.ltb_spec 0 (length (chunks st))); simpl length; lia.
Qed.

(** C5. For a fixed text and a fixed overlap, a smaller [maxTokens] never
    gives fewer chunks. *)
Theorem chunk_count_monotone (T : value) (maxTokens1 maxTokens2 overlapTokens : Z) :
  maxTokens2 <= maxTokens1 ->
  (length (chunkTextByTokens T maxTokens1 overlapTokens)
   <= length (chunkTextByTokens T maxTokens2 overlapTokens))%nat.
Proof.
  intros Hle. destruct T as [[|c s]|]; [simpl; lia| |simpl; lia].
  unfold chunkTextByTokens. rewrite usableText_cons.
  cbv zeta.
  destruct (Z.leb_spec (countTokens (VString (c :: s))) maxTokens1) as [F1|F1];
    destruct (Z.leb_spec (countTokens (VString (c :: s))) maxTokens2) as [F2|F2];
    rewrite ?result_length; simpl length; try lia.
  destruct (words_of_trim (c :: s)) as [[_ Hw]|[_ Hgood]].
  - rewrite Hw, !loop_blank. simpl. lia.
  - pose proof (Coupled_loop maxTokens1 maxTokens2 overlapTokens Hle _ _ _
                  Coupled_initial (Forall_good_truthy _ Hgood))
      as [Hcount Hlevel _ _ _ Hcur2].
    set (s1 := loop maxTokens1 overlapTokens initialState _) in *.
    set (s2 := loop maxTokens2 overlapTokens initialState _) in *.
    destruct (Nat.eq_dec (length (chunks s1)) (length (chunks s2))) as [e|ne].
    + destruct (Hlevel e) as [Hl _].
      destruct (truthy (currentChunk s1)) eqn:E1.
      * rewrite (length_truthy_mono _ _ Hl E1). lia.
      * destruct (truthy (currentChunk s2)); lia.
    + rewrite Hcur2 by lia. destruct (truthy (currentChunk s1)); lia.
Qed.

Lemma chunk_count_monotone_witness :
  (length (chunkTextByTokens (str "aaaa bbbb cccc") 3 200)
   <= length (chunkTextByTokens (str "aaaa bbbb cccc") 2 200))%nat.
Proof. apply (chunk_count_monotone (str "aaaa bbbb cccc") 3 2 200). lia. Defined.

(* ------------------------------------------------------------------ *)
(** ** Text metrics *)

Lemma split_go_runs (s : jsstring) :
  length (filter truthy (split_go true s)) = wordRuns true s
  /\ length (filter truthy (split_go false s)) = wordRuns true s
  /\ length (filter truthy (tl (split_go false s))) = wordRuns false s.
Proof.
  induction s as [|c s (IHt & IHf & IHg)]; [simpl; auto|].
  simpl. destruct (is_ws c) eqn:Hc.
  - simpl. auto.
  - pose proof (split_go_not_nil false s) as Hne.
    destruct (split_go false s) as [|w ws]; [congruence|].
    simpl in *. auto.
Qed.

Lemma wordRuns_trimStart (s : jsstring) :
  wordRuns true (trimStart s) = wordRuns true s.
Proof.
  induction s as [|c s IH]; [reflexivity|].
  simpl. destruct (is_ws c) eqn:Hc; [exact IH|]. simpl. now rewrite Hc.
Qed.

Lemma wordRuns_trimEnd (s : jsstring) (b : bool) :
  wordRuns b (trimEnd s) = wordRuns b s.
Proof.
  revert b. induction s as [|c s IH]; intros b; [reflexivity|].
  simpl. destruct (trimEnd s) as [|d t] eqn:E.
  - destruct (is_ws c) eqn:Hc; simpl; rewrite ?Hc, <- ?IH; reflexivity.
  - change (wordRuns b (c :: d :: t)) with
      (if is_ws c then wordRuns true (d :: t)
       else ((if b then 1 else 0) + wordRuns false (d :: t))%nat).
    now rewrite !IH.
Qed.

Lemma countWords_runs (s : jsstring) :
  countWords s = Z.of_nat (spec_wordCount s).
Proof.
  unfold countWords, spec_wordCount. destruct s as [|c s]; [reflexivity|].
  rewrite usableText_cons. f_equal. unfold wordsOf, split_ws, trim.
  destruct (split_go_runs (trimEnd (trimStart (c :: s)))) as (_ & H & _).
  now rewrite H, wordRuns_trimEnd, wordRuns_trimStart.
Qed.

(** C8. For every string, [countTokens] is the ceiling of a quarter of its
    length, that is the one integer k with 4(k-1) < length <= 4k;
    [countWords] is the number of tokens of the trimmed text that are not
    empty, which is the number of its words; [analyzeText] gives (0, 0) for
    the empty string and for a value that is not a string, and never a
    negative count. *)
Theorem text_metrics (text : jsstring) (v : value) :
  countTokens text = Qceiling (Z.of_nat (length text) # 4)
  /\ 4 * (countTokens text - 1) < Z.of_nat (length text) <= 4 * countTokens text
  /\ countWords text
     = Z.of_nat (length (filter truthy (split_ws (trim text))))
  /\ countWords text = Z.of_nat (spec_wordCount text)
  /\ analyzeText (VString []) = {| wordCount := 0; tokenCount := 0 |}
  /\ analyzeText VOther = {| wordCount := 0; tokenCount := 0 |}
  /\ 0 <= wordCount (analyzeText v)
  /\ 0 <= tokenCount (analyzeText v).
Proof.
  split; [|split; [|split; [|split; [|split; [|split; [|split]]]]]].
  - rewrite countTokens_string.
    unfold Qceiling, Qfloor, Qopp. simpl Qnum. simpl Qden.
    pose proof (Z.div_mod (- Z.of_nat (length text)) 4 ltac:(lia)).
    pose proof (Z.mod_pos_bound (- Z.of_nat (length text)) 4 ltac:(lia)).
    pose proof (Z.div_mod (Z.of_nat (length text) + 3) 4 ltac:(lia)).
    pose proof (Z.mod_pos_bound (Z.of_nat (length text) + 3) 4 ltac:(lia)).
    lia.
  - apply countTokens_bounds.
  - unfold countWords. destruct text; reflexivity.
  - apply countWords_runs.
  - reflexivity.
  - reflexivity.
  - unfold analyzeText. destruct (usableText v) eqn:E; simpl; [|lia].
    unfold countWords. rewrite E. lia.
  - unfold analyzeText. destruct (usableText v); simpl; [|lia].
    apply countTokens_nonneg.
Qed.

(* ------------------------------------------------------------------ *)
(** ** The budget of a chunked retry *)

Lemma Math_floor_quotient (a k : Z) :
  0 < k -> Math_floor (inject_Z a / inject_Z k) = a / k.
Proof.
  intros Hk. destruct k as [|p|p]; try lia.
  unfold Math_floor, Qfloor, Qdiv, Qmult, Qinv, inject_Z. simpl.
  now rewrite Z.mul_1_r.
Qed.

(** C9. On a retry with selected chunk count k (more than 1), the budget
    handed to [chunkDocumentByTokens] is
    max(floor(countTokens(fileContent) / k), 500); a document of 12,500
    tokens with k = 5 gets exactly 2500. *)
Theorem retry_budget (fileContent : jsstring) (k : Z) :
  1 < k ->
  retryTargetTokens fileContent k = Z.max (countTokens fileContent / k) 500
  /\ retryPlan fileContent k
     = chunkDocumentByTokens (CString fileContent)
         (Z.max (countTokens fileContent / k) 500) TOKEN_OVERLAP
  /\ (countTokens fileContent = 12500 -> k = 5 ->
      retryTargetTokens fileContent k = 2500).
Proof.
  intros Hk.
  assert (E : retryTargetTokens fileContent k
              = Z.max (countTokens fileContent / k) 500).
  { unfold retryTargetTokens. now rewrite Math_floor_quotient by lia. }
  split; [exact E|]. split.
  - unfold retryPlan. now rewrite E.
  - intros Ht H5. rewrite E, Ht, H5. reflexivity.
Qed.

Lemma retry_budget_witness :
  countTokens scenarioDocument = 12500
  /\ retryTargetTokens scenarioDocument 5
     = Z.max (countTokens scenarioDocument / 5) 500
  /\ retryTargetTokens scenarioDocument 5 = 2500.
Proof.
  destruct (retry_budget scenarioDocument 5 ltac:(lia)) as (A & _ & C).
  assert (Ht : countTokens scenarioDocument = 12500) by (vm_compute; reflexivity).
  split; [exact Ht|]. split; [exact A|]. apply C; [exact Ht|reflexivity].
Defined.

(* ------------------------------------------------------------------ *)
(** ** Summaries of chunked documents *)

Section Summaries.

Variable groq : Groq.

Lemma chunkRequests_app (t1 t2 : list Event) :
  chunkRequests (t1 ++ t2) = chunkRequests t1 ++ chunkRequests t2.
Proof.
  induction t1 as [|[[]|] t1 IH]; simpl; rewrite ?IH; reflexivity.
Qed.

Lemma chunkResults_app (t1 t2 : list Event) :
  chunkResults (t1 ++ t2) = chunkResults t1 ++ chunkResults t2.
Proof.
  induction t1 as [|[[] []|] t1 IH]; simpl; rewrite ?IH; reflexivity.
Qed.

Lemma mergeRequests_app (t1 t2 : list Event) :
  mergeRequests (t1 ++ t2) = mergeRequests t1 ++ mergeRequests t2.
Proof.
  induction t1 as [|[[]|] t1 IH]; simpl; rewrite ?IH; reflexivity.
Qed.

Lemma chunkFailures_app (t1 t2 : list Event) :
  chunkFailures (t1 ++ t2) = chunkFailures t1 ++ chunkFailures t2.
Proof.
  induction t1 as [|[[] []|] t1 IH]; simpl; rewrite ?IH; reflexivity.
Qed.

Lemma processDocumentChunk_run (content : Content) (scope desc : jsstring)
    (i n : nat) (tr : list Event) :
  processDocumentChunk groq content scope desc i n tr =
  let p := ChunkPrompt scope desc i n (contentToText content) in
  match groq tr p with
  | Rejected m =>
      (inl (str "Failed to process chunk: " ++ m), tr ++ [GroqCall p (Rejected m)])
  | Completed c =>
      (inr (orElse c (str "No summary generated")),
       tr ++ [GroqCall p (Completed c)])
  end.
Proof.
  unfold processDocumentChunk, tryCatch, bind, create, ret, throw. cbv zeta.
  destruct (groq tr _); reflexivity.
Qed.

Lemma combineSummaries_run (sums : list jsstring) (scope desc file : jsstring)
    (tr : list Event) :
  combineSummaries groq sums scope desc file tr =
  let p := MergePrompt file sums in
  match groq tr p with
  | Rejected m =>
      (inl (str "Failed to combine summaries: " ++ m),
       tr ++ [GroqCall p (Rejected m)])
  | Completed c =>
      (inr (orElse c (str "No final summary generated")),
       tr ++ [GroqCall p (Completed c)])
  end.
Proof.
  unfold combineSummaries, tryCatch, bind, create, ret, throw. cbv zeta.
  destruct (groq tr _); reflexivity.
Qed.

Lemma summarizeChunks_cons (scope desc : jsstring) (total i : nat)
    (c : Content) (rest : list Content) (acc : list jsstring)
    (tr : list Event) :
  summarizeChunks groq scope desc total i (c :: rest) acc tr =
  let p := ChunkPrompt scope desc i total (contentToText c) in
  match groq tr p with
  | Rejected m =>
      (inl (str "Failed to process chunk: " ++ m), tr ++ [GroqCall p (Rejected m)])
  | Completed c0 =>
      summarizeChunks groq scope desc total (S i) rest
        (acc ++ [orElse c0 (str "No summary generated")])
        (if (i <? total - 1)%nat
         then (tr ++ [GroqCall p (Completed c0)]) ++ [Sleep 500]
         else tr ++ [GroqCall p (Completed c0)])
  end.
Proof.
  cbn [summarizeChunks]. unfold bind. rewrite processDocumentChunk_run.
  cbv zeta. destruct (groq tr _); [reflexivity|].
  destruct (i <? total - 1)%nat; reflexivity.
Qed.

(** The loop over the chunks: it makes chunk requests only, in index
    order; it returns the summaries of all of them when none is rejected,
    and otherwise throws at the first rejection, which is then the only
    one. *)
Lemma summarizeChunks_run (scope desc : jsstring) (total : nat)
    (rest : list Content) :
  forall (i : nat) (acc : list jsstring) (tr : list Event),
  exists evs,
    snd (summarizeChunks groq scope desc total i rest acc tr) = tr ++ evs
    /\ mergeRequests evs = []
    /\ match fst (summarizeChunks groq scope desc total i rest acc tr) with
       | inr sums =>
           chunkFailures evs = []
           /\ sums = acc ++ chunkResults evs
           /\ chunkRequests evs
              = mapi_from (fun c j => (j, total, contentToText c)) i rest
       | inl m =>
           exists msg, chunkFailures evs = [msg]
                       /\ m = str "Failed to process chunk: " ++ msg
       end.
Proof.
  induction rest as [|c rest IH]; intros i acc tr.
  - exists []. simpl. rewrite !app_nil_r. auto.
  - rewrite summarizeChunks_cons. cbv zeta.
    destruct (groq tr _) as [m|c0] eqn:Eg.
    + exists [GroqCall (ChunkPrompt scope desc i total (contentToText c))
                (Rejected m)].
      simpl. split; [reflexivity|]. split; [reflexivity|]. now exists m.
    + set (ev := GroqCall _ (Completed c0)).
      destruct (i <? total - 1)%nat.
      * destruct (IH (S i) (acc ++ [orElse c0 (str "No summary generated")])
                    ((tr ++ [ev]) ++ [Sleep 500]))
          as (evs & Htr & Hm & Hres).
        exists (ev :: Sleep 500 :: evs).
        rewrite Htr. split; [now rewrite <- !app_assoc|]. split; [exact Hm|].
        destruct (fst _) as [m|sums].
        -- exact Hres.
        -- destruct Hres as (Hf & Hs & Hr). subst ev. simpl.
           rewrite Hf, Hs, Hr, <- app_assoc. auto.
      * destruct (IH (S i) (acc ++ [orElse c0 (str "No summary generated")])
                    (tr ++ [ev]))
          as (evs & Htr & Hm & Hres).
        exists (ev :: evs).
        rewrite Htr. split; [now rewrite <- !app_assoc|]. split; [exact Hm|].
        destruct (fst _) as [m|sums].
        -- exact Hres.
        -- destruct Hres as (Hf & Hs & Hr). subst ev. simpl.
           rewrite Hf, Hs, Hr, <- app_assoc. auto.
Qed.

Lemma mapi_from_length {A B} (f : A -> nat -> B) (i : nat) (l : list A) :
  length (mapi_from f i l) = length l.
Proof.
  revert i. induction l as [|a l IH]; intros i; simpl; [reflexivity|].
  now rewrite IH.
Qed.

Lemma chunk_counts_agree (tr : list Event) :
  chunkFailures tr = [] -> length (chunkResults tr) = length (chunkRequests tr).
Proof.
  induction tr as [|[[] []|] tr IH]; simpl; intros H; auto; try discriminate.
Qed.

End Summaries.

Section SummarizeDocument.

Variable groq : Groq.
Variable request : SummaryRequest.

Local Abbreviation scope := (extractionScope request).
Local Abbreviation desc := (scopeDescription request).

Lemma summarizeDocument_single (c : Content) :
  requestChunks request = [c] ->
  summarizeDocument groq request [] = singleRun groq request c.
Proof.
  intros E. unfold summarizeDocument, singleRun, tryCatch.
  fold (requestChunks request). rewrite E. unfold bind.
  rewrite processDocumentChunk_run. cbv zeta.
  destruct (groq [] _); reflexivity.
Qed.

Lemma summarizeDocument_multi :
  length (requestChunks request) <> 1%nat ->
  summarizeDocument groq request [] = multiRun groq request (requestChunks request).
Proof.
  intros Hn. unfold summarizeDocument, multiRun, tryCatch.
  fold (requestChunks request).
  destruct (requestChunks request) as [|c [|c2 r]];
    [|simpl in Hn; congruence|];
    unfold bind at 1 2;
    (destruct (summarizeChunks groq scope desc _ 0 _ [] []) as [[m|sums] tr];
     [reflexivity|]);
    rewrite combineSummaries_run; cbv zeta;
    destruct (groq tr _); reflexivity.
Qed.

End SummarizeDocument.

Lemma one_chunk (request : SummaryRequest) :
  length (requestChunks request) = 1%nat ->
  exists c, requestChunks request = [c].
Proof.
  destruct (requestChunks request) as [|c [|c2 r]]; simpl; intros H;
    try discriminate. now exists c.
Qed.

(** C6. If the request for any chunk of a document is rejected,
    [summarizeDocument] returns the failed response ([success = false], no
    summary) whose error carries the message of that rejection, and no merge
    request is made: no partial summaries are combined. *)
Theorem chunk_failure_fails_document (groq : Groq) (request : SummaryRequest)
    (msg : jsstring) :
  let run := summarizeDocument groq request [] in
  In msg (chunkFailures (snd run)) ->
  fst run = inr (failedResponse request (str "Failed to process chunk: " ++ msg))
  /\ (forall res, fst run = inr res ->
        success res = false
        /\ summary res = []
        /\ error res = Some (str "Failed to process chunk: " ++ msg))
  /\ mergeRequests (snd run) = [].
Proof.
  cbv zeta. intros Hin.
  assert (H : fst (summarizeDocument groq request [])
              = inr (failedResponse request (str "Failed to process chunk: " ++ msg))
              /\ mergeRequests (snd (summarizeDocument groq request [])) = []).
  { destruct (Nat.eq_dec (length (requestChunks request)) 1) as [e|ne].
    - destruct (one_chunk request e) as [c Hc].
      rewrite (summarizeDocument_single groq request c Hc) in *.
      unfold singleRun in *. cbv zeta in *.
      destruct (groq [] _) as [m|c0]; simpl in *.
      + destruct Hin as [->|[]]. auto.
      + destruct Hin.
    - rewrite (summarizeDocument_multi groq request ne) in *.
      unfold multiRun in *.
      destruct (summarizeChunks_run groq (extractionScope request)
                  (scopeDescription request)
                  (length (requestChunks request)) (requestChunks request)
                  0%nat [] []) as (evs & Htr & Hm & Hres).
      destruct (summarizeChunks groq _ _ _ 0 _ [] []) as [[m|sums] tr];
        simpl in Htr, Hres; subst tr.
      + destruct Hres as (msg0 & Hf & ->). simpl in *. rewrite Hf in Hin.
        destruct Hin as [->|[]]. auto.
      + destruct Hres as (Hf & _ & _). cbv zeta in Hin.
        destruct (groq evs _); simpl in Hin;
          rewrite chunkFailures_app, Hf in Hin; destruct Hin. }
  destruct H as [Hres Hmerge]. split; [exact Hres|]. split; [|exact Hmerge].
  intros res Hr. rewrite Hres in Hr. injection Hr as <-. simpl. auto.
Qed.

Lemma chunk_failure_fails_document_witness :
  fst (summarizeDocument rejectsSecond threeChunks [])
  = inr (failedResponse threeChunks (str "Failed to process chunk: rate limit"))
  /\ mergeRequests (snd (summarizeDocument rejectsSecond threeChunks [])) = [].
Proof.
  destruct (chunk_failure_fails_document rejectsSecond threeChunks
              (str "rate limit")) as (A & _ & C).
  - vm_compute. left. reflexivity.
  - split; [exact A|exact C].
Defined.

(** C7. When a document is summarized in n > 1 chunks, a merge request
    carries exactly the n partial summaries returned for the chunk requests,
    which were made for the chunks 0 to n-1 in index order, and it is made
    whenever no chunk request is rejected; with exactly one chunk there is no
    merge request and the partial summary of that chunk is the summary
    returned. *)
Theorem merge_receives_all_partials (groq : Groq) (request : SummaryRequest) :
  let chunks := requestChunks request in
  let n := length chunks in
  let run := summarizeDocument groq request [] in
  ((1 < n)%nat ->
   (forall f sums, In (f, sums) (mergeRequests (snd run)) ->
      mergeRequests (snd run) = [(filename request, sums)]
      /\ sums = chunkResults (snd run)
      /\ length sums = n
      /\ chunkRequests (snd run)
         = mapi_from (fun c j => (j, n, contentToText c)) 0 chunks)
   /\ (chunkFailures (snd run) = [] ->
       mergeRequests (snd run) = [(filename request, chunkResults (snd run))]))
  /\ (n = 1%nat ->
      mergeRequests (snd run) = []
      /\ (chunkFailures (snd run) = [] ->
          exists s res, chunkResults (snd run) = [s]
                        /\ fst run = inr res
                        /\ summary res = s /\ success res = true)).
Proof.
  cbv zeta. split.
  - intros Hn.
    rewrite (summarizeDocument_multi groq request ltac:(lia)).
    unfold multiRun.
    destruct (summarizeChunks_run groq (extractionScope request)
                (scopeDescription request)
                (length (requestChunks request)) (requestChunks request)
                0%nat [] []) as (evs & Htr & Hm & Hres).
    destruct (summarizeChunks groq _ _ _ 0 _ [] []) as [[m|sums] tr];
      simpl in Htr, Hres; subst tr.
    + destruct Hres as (msg0 & Hf & _). simpl. rewrite Hm, Hf.
      split; [intros f sums []|discriminate].
    + destruct Hres as (Hf & Hs & Hr). simpl in Hs. subst sums. cbv zeta.
      assert (Hlen : length (chunkResults evs) = length (requestChunks request)).
      { rewrite (chunk_counts_agree evs Hf), Hr. apply mapi_from_length. }
      destruct (groq evs _); simpl;
        rewrite mergeRequests_app, chunkResults_app, chunkRequests_app, Hm;
        simpl; rewrite !app_nil_r.
      * split; [|reflexivity]. intros f sums [H|[]]. injection H as <- <-. auto.
      * split; [|reflexivity]. intros f sums [H|[]]. injection H as <- <-. auto.
  - intros Hn. destruct (one_chunk request Hn) as [c Hc].
    rewrite (summarizeDocument_single groq request c Hc).
    unfold singleRun. cbv zeta.
    destruct (groq [] _) as [m|c0]; simpl.
    + split; [reflexivity|discriminate].
    + split; [reflexivity|]. intros _. eexists _, _. repeat split.
Qed.

Lemma merge_receives_all_partials_witness :
  mergeRequests (snd (summarizeDocument answersAll threeChunks []))
  = [(str "deck.pdf", [str "about one"; str "about two"; str "about three"])]
  /\ chunkRequests (snd (summarizeDocument answersAll threeChunks []))
     = [(0%nat, 3%nat, str "one"); (1%nat, 3%nat, str "two");
        (2%nat, 3%nat, str "three")]
  /\ mergeRequests (snd (summarizeDocument answersAll wholeDocument [])) = []
  /\ exists s res,
       chunkResults (snd (summarizeDocument answersAll wholeDocument [])) = [s]
       /\ fst (summarizeDocument answersAll wholeDocument []) = inr res
       /\ summary res = s /\ success res = true.
Proof.
  destruct (merge_receives_all_partials answersAll threeChunks) as [H _].
  destruct (H ltac:(simpl; lia)) as [Hall Hissued].
  assert (Hm := Hissued ltac:(vm_compute; reflexivity)).
  destruct (Hall (str "deck.pdf")
              (chunkResults (snd (summarizeDocument answersAll threeChunks []))))
    as (_ & _ & _ & Hr).
  { rewrite Hm. left. reflexivity. }
  destruct (merge_receives_all_partials answersAll wholeDocument) as [_ H1].
  destruct (H1 ltac:(reflexivity)) as [Hnone Hone].
  split; [rewrite Hm; vm_compute; reflexivity|].
  split; [rewrite Hr; vm_compute; reflexivity|].
  split; [exact Hnone|].
  apply Hone. vm_compute. reflexivity.
Defined.

(* ------------------------------------------------------------------ *)
(** ** Further properties of the chunker *)

Section FreshLoop.

Variables maxTokens overlapTokens : Z.

Lemma tl_snoc {A} (l : list A) (x : A) : l <> [] -> tl (l ++ [x]) = tl l ++ [x].
Proof. destruct l; [congruence|reflexivity]. Qed.

Lemma g_all_not_nil (g : Ghost) : g_all g <> [].
Proof. unfold g_all. destruct (g_closed g); discriminate. Qed.

Lemma step_buffer_not_nil (st : LoopState) (w : jsstring) :
  overlapWords (step maxTokens overlapTokens st w) <> [].
Proof.
  destruct (splitsAt maxTokens st w) eqn:E.
  - destruct (step_split maxTokens overlapTokens st w E) as (_ & _ & H).
    rewrite H. discriminate.
  - destruct (step_keep maxTokens overlapTokens st w E) as (_ & _ & H).
    rewrite H. destruct (trackOverlap_last overlapTokens (overlapWords st) w)
      as [before Hb].
    rewrite Hb. destruct before; discriminate.
Qed.

Lemma Fresh_first (w : jsstring) :
  Fresh (step maxTokens overlapTokens initialState w)
        (gstep maxTokens initialState ghost0 w).
Proof.
  assert (E : splitsAt maxTokens initialState w = false).
  { unfold splitsAt. simpl. apply andb_false_r. }
  constructor.
  - apply gstep_new.
  - apply step_buffer_not_nil.
  - unfold gstep. rewrite E. constructor.
  - unfold gstep. rewrite E. constructor.
Qed.

Lemma Fresh_step (st : LoopState) (g : Ghost) (w : jsstring) :
  Fresh st g ->
  Fresh (step maxTokens overlapTokens st w) (gstep maxTokens st g w).
Proof.
  intros [Hnew Hbuf Hcl Hseed]. constructor.
  - apply gstep_new.
  - apply step_buffer_not_nil.
  - unfold gstep. destruct (splitsAt maxTokens st w); cbn [g_closed].
    + apply Forall_app. split; [assumption|]. now repeat constructor.
    + assumption.
  - unfold gstep. destruct (splitsAt maxTokens st w).
    + unfold g_all at 1. cbn [g_closed g_ov g_new].
      change (g_closed g ++ [(g_ov g, g_new g)]) with (g_all g).
      rewrite tl_snoc by apply g_all_not_nil.
      apply Forall_app. split; [assumption|]. now repeat constructor.
    + unfold g_all in *. cbn [g_closed g_ov g_new].
      destruct (g_closed g) as [|p cl]; [constructor|].
      simpl in *. apply Forall_app in Hseed as [H1 H2].
      apply Forall_app. split; [assumption|].
      inversion H2; subst. now repeat constructor.
Qed.

Lemma Fresh_loop (words : list jsstring) (st : LoopState) (g : Ghost) :
  Fresh st g ->
  Fresh (loop maxTokens overlapTokens st words)
        (gloop maxTokens overlapTokens st g words).
Proof.
  revert st g. induction words as [|w words IH]; intros st g H; [exact H|].
  simpl. apply IH, Fresh_step, H.
Qed.

Lemma Fresh_run (words : list jsstring) :
  words <> [] ->
  Fresh (loop maxTokens overlapTokens initialState words)
        (gloop maxTokens overlapTokens initialState ghost0 words).
Proof.
  destruct words as [|w words]; [congruence|]. intros _.
  simpl. apply Fresh_loop, Fresh_first.
Qed.

(** The answers of [chunkTextByTokens], with what the loop keeps of its
    chunks: each one took a word of the text, and each one after the first
    was seeded with a word. *)
Lemma chunkText_cases_fresh (s : jsstring) :
  (s = []
   /\ chunkTextByTokens s maxTokens overlapTokens = []
   /\ overlapCounts s maxTokens overlapTokens = [])
  \/ (s <> [] /\ (countTokens s <= maxTokens \/ wordsOf s = [])
      /\ chunkTextByTokens s maxTokens overlapTokens = [s]
      /\ overlapCounts s maxTokens overlapTokens = [0%nat])
  \/ (s <> [] /\ maxTokens < countTokens s /\
      exists l,
        l <> []
        /\ Forall (fun p => Forall (fun w => good w = true) (chunkWords p)) l
        /\ chunkTextByTokens s maxTokens overlapTokens
           = map (fun p => join SP (chunkWords p)) l
        /\ overlapCounts s maxTokens overlapTokens
           = map (fun p => length (fst p)) l
        /\ concat (map snd l) = wordsOf s
        /\ chained [] l
        /\ Forall (fun p => snd p <> []) l
        /\ Forall (fun p => fst p <> []) (tl l)).
Proof.
  destruct s as [|c s]; [left; auto|]. right.
  unfold chunkTextByTokens, overlapCounts. rewrite usableText_cons.
  destruct (countTokens (VString (c :: s)) <=? maxTokens) eqn:Efit.
  { left. apply Z.leb_le in Efit. repeat split; auto. discriminate. }
  apply Z.leb_gt in Efit.
  destruct (words_of_trim (c :: s)) as [[Hblank Hw]|[Hne Hgood]].
  - left. rewrite Hw, loop_blank. simpl.
    repeat split; auto using wordsOf_blank. discriminate.
  - right. split; [discriminate|]. split; [exact Efit|].
    pose proof (loop_result maxTokens overlapTokens _ Hgood
                  (split_go_not_nil false _)) as H.
    pose proof (Fresh_run _ (split_go_not_nil false (trim (c :: s))))
      as [Fnew _ Fcl Fseed].
    cbv zeta in H. destruct H as (Ht & Hch & Hk & Hall & Htk & Hchain & _).
    rewrite Ht, Hch, Hk.
    set (g := gloop maxTokens overlapTokens initialState ghost0
                (split_ws (trim (c :: s)))) in *.
    exists (g_all g).
    pose proof (g_all_not_nil g) as Hnn.
    split; [exact Hnn|]. split; [exact Hall|].
    split; [destruct (g_all g); [congruence|reflexivity]|].
    split; [reflexivity|].
    split; [rewrite taken_all, Htk; symmetry; now apply wordsOf_words|].
    split; [exact Hchain|]. split; [|exact Fseed].
    unfold g_all. apply Forall_app. split; [exact Fcl|]. now repeat constructor.
Qed.

End FreshLoop.

Lemma length_le_concat {A B} (f : A -> list B) (l : list A) :
  Forall (fun p => f p <> []) l -> (length l <= length (concat (map f l)))%nat.
Proof.
  induction 1 as [|p l Hp _ IH]; simpl; [lia|].
  rewrite length_app. destruct (f p); [congruence|simpl; lia].
Qed.

Lemma chunks_never_empty_aux (T : jsstring) (maxTokens overlapTokens : Z) :
  T <> [] ->
  chunkTextByTokens T maxTokens overlapTokens <> []
  /\ Forall (fun c => truthy c = true)
       (chunkTextByTokens T maxTokens overlapTokens).
Proof.
  intros HT.
  destruct (chunkText_cases_fresh maxTokens overlapTokens T)
    as [(E & _)|[(_ & _ & Hc & _)|(_ & _ & l & Hl & Hgood & Hc & _ & _ & _ & Hsnd & _)]];
    [congruence| |]; rewrite Hc.
  - split; [discriminate|]. repeat constructor. destruct T; [congruence|reflexivity].
  - split; [destruct l; [congruence|discriminate]|].
    rewrite Forall_map, Forall_forall. intros p Hp.
    rewrite Forall_forall in Hgood, Hsnd.
    apply join_truthy.
    + apply Forall_good_truthy, Hgood, Hp.
    + unfold chunkWords. intros E. apply app_eq_nil in E as [_ E].
      now apply (Hsnd p Hp).
Qed.

(** X1. For a text that is not empty, [chunkTextByTokens] returns at least
    one chunk, and no chunk it returns is the empty string. *)
Theorem chunks_never_empty (T : jsstring) (maxTokens overlapTokens : Z) :
  T <> [] ->
  chunkTextByTokens T maxTokens overlapTokens <> []
  /\ Forall (fun c => truthy c = true)
       (chunkTextByTokens T maxTokens overlapTokens).
Proof.
  intros HT. destruct (chunks_never_empty_aux T maxTokens overlapTokens HT).
  split; assumption.
Qed.

Lemma chunks_never_empty_witness :
  chunkTextByTokens (str "aaaa bbbb cccc") 2 200 <> []
  /\ Forall (fun c => truthy c = true)
       (chunkTextByTokens (str "aaaa bbbb cccc") 2 200).
Proof.
  apply (chunks_never_empty (str "aaaa bbbb cccc") 2 200). discriminate.
Defined.

(** X2. For a text that holds a word, every chunk holds at least one word
    beyond its duplicated prefix, so there are never more chunks than the
    text has words. *)
Theorem every_chunk_takes_a_word (T : jsstring) (maxTokens overlapTokens : Z) :
  wordsOf T <> [] ->
  Forall2 (fun (k : nat) (c : jsstring) => (k < length (wordsOf c))%nat)
    (overlapCounts T maxTokens overlapTokens)
    (chunkTextByTokens T maxTokens overlapTokens)
  /\ (length (chunkTextByTokens T maxTokens overlapTokens)
      <= length (wordsOf T))%nat.
Proof.
  intros Hw.
  destruct (chunkText_cases_fresh maxTokens overlapTokens T)
    as [(E & _)|[(_ & Hfit & Hc & Hk)|(_ & _ & l & Hl & Hgood & Hc & Hk & Hcat & _ & Hsnd & _)]];
    [subst T; now elim Hw| |]; rewrite Hc, ?Hk.
  - destruct (wordsOf T) eqn:E; [congruence|].
    split; [repeat constructor; rewrite E; simpl; lia|simpl; lia].
  - split.
    + clear Hc Hk Hcat Hl.
      induction l as [|p l IH]; [constructor|].
      inversion Hgood; inversion Hsnd; subst. simpl.
      constructor; [|now apply IH].
      rewrite wordsOf_join by assumption. unfold chunkWords.
      rewrite length_app. destruct (snd p); [congruence|simpl; lia].
    + rewrite length_map, <- Hcat. now apply length_le_concat.
Qed.

Lemma every_chunk_takes_a_word_witness :
  Forall2 (fun (k : nat) (c : jsstring) => (k < length (wordsOf c))%nat)
    (overlapCounts (str "aaaa bbbb cccc") 2 200)
    (chunkTextByTokens (str "aaaa bbbb cccc") 2 200)
  /\ (length (chunkTextByTokens (str "aaaa bbbb cccc") 2 200)
      <= length (wordsOf (str "aaaa bbbb cccc")))%nat.
Proof.
  apply (every_chunk_takes_a_word (str "aaaa bbbb cccc") 2 200).
  vm_compute. discriminate.
Defined.

Lemma consecutive_ghost (l : list (list jsstring * list jsstring))
    (prev : list jsstring) :
  Forall (fun p => Forall (fun w => good w = true) (chunkWords p)) l ->
  chained prev l ->
  Forall (fun p => fst p <> []) (tl l) ->
  consecutive
    (fun c1 c2 : jsstring =>
       exists w, hd_error (wordsOf c2) = Some w /\ In w (wordsOf c1))
    (map (fun p => join SP (chunkWords p)) l).
Proof.
  intros Hgood. revert prev.
  induction Hgood as [|p l Hp Hl IH]; intros prev Hch Hseed; [exact I|].
  destruct l as [|q l]; [exact I|].
  simpl in Hch. destruct Hch as (_ & [before Hb] & Hch').
  simpl in Hseed. inversion Hseed as [|? ? Hq Hseed']; subst.
  inversion Hl as [|? ? Hqgood _]; subst.
  change (map (fun p => join SP (chunkWords p)) (p :: q :: l))
    with (join SP (chunkWords p) :: map (fun p => join SP (chunkWords p)) (q :: l)).
  cbn [consecutive map]. split.
  - rewrite (wordsOf_join _ Hp), (wordsOf_join _ Hqgood), Hb.
    unfold chunkWords at 1. destruct (fst q) as [|w ov]; [congruence|].
    exists w. split; [reflexivity|]. apply in_or_app. right. now left.
  - apply (IH (chunkWords p)); [|exact Hseed'].
    simpl. split; [now exists before|exact Hch'].
Qed.

(** X3. Consecutive chunks always overlap, whatever [overlapTokens] is: the
    first word of every chunk after the first is a word of the chunk before
    it. *)
Theorem consecutive_chunks_share_a_word (T : jsstring)
    (maxTokens overlapTokens : Z) :
  consecutive
    (fun c1 c2 : jsstring =>
       exists w, hd_error (wordsOf c2) = Some w /\ In w (wordsOf c1))
    (chunkTextByTokens T maxTokens overlapTokens).
Proof.
  destruct (chunkText_cases_fresh maxTokens overlapTokens T)
    as [(_ & Hc & _)|[(_ & _ & Hc & _)|(_ & _ & l & _ & Hgood & Hc & _ & _ & Hch & _ & Hseed)]];
    rewrite Hc; try exact I.
  now apply (consecutive_ghost l []).
Qed.

(** X4. When a text that holds a word exceeds the budget, every chunk
    returned is re-spaced: its words joined by single spaces, without the
    line breaks, tabs or repeated spaces of the text. *)
Theorem chunks_are_respaced (T : jsstring) (maxTokens overlapTokens : Z) :
  maxTokens < countTokens T -> wordsOf T <> [] ->
  Forall (fun c => c = join SP (wordsOf c) /\ trim c = c)
    (chunkTextByTokens T maxTokens overlapTokens).
Proof.
  intros Hbig Hw.
  destruct (chunkText_cases T maxTokens overlapTokens)
    as [(E & _)|[(_ & Hfit & _)|(_ & _ & l & _ & Hgood & Hc & _)]].
  - subst T. now elim Hw.
  - destruct Hfit; [lia|congruence].
  - rewrite Hc, Forall_map. eapply Forall_impl; [|exact Hgood].
    intros p Hp. simpl. now rewrite (wordsOf_join _ Hp), (trim_join _ Hp).
Qed.

Lemma chunks_are_respaced_witness :
  Forall (fun c => c = join SP (wordsOf c) /\ trim c = c)
    (chunkTextByTokens twoLines 2 200).
Proof.
  apply (chunks_are_respaced twoLines 2 200).
  - vm_compute. reflexivity.
  - vm_compute. discriminate.
Defined.

(** *** Re-spacing only shortens a text *)

Lemma join_split_go_length (b : bool) (s : jsstring) :
  (length (join SP (split_go b s)) <= length s)%nat.
Proof.
  revert b. induction s as [|c s IH]; intros b; [simpl; lia|].
  simpl. destruct (is_ws c).
  - destruct b; [specialize (IH true); lia|].
    specialize (IH true). pose proof (split_go_not_nil true s) as Hne.
    destruct (split_go true s) as [|w ws]; [congruence|].
    rewrite join_cons2. simpl in *. lia.
  - specialize (IH false). pose proof (split_go_not_nil false s) as Hne.
    destruct (split_go false s) as [|w ws]; [congruence|].
    destruct ws as [|x r]; [simpl in *; lia|].
    rewrite !join_cons2 in *. simpl in *. lia.
Qed.

Lemma trimStart_length (s : jsstring) : (length (trimStart s) <= length s)%nat.
Proof.
  induction s as [|c s IH]; simpl; [lia|]. destruct (is_ws c); simpl; lia.
Qed.

Lemma trimEnd_length (s : jsstring) : (length (trimEnd s) <= length s)%nat.
Proof.
  induction s as [|c s IH]; simpl; [lia|].
  destruct (trimEnd s); [destruct (is_ws c)|]; simpl in *; lia.
Qed.

Lemma respaced_length (s : jsstring) :
  Forall (fun w => good w = true) (split_ws (trim s)) ->
  (length (join SP (wordsOf s)) <= length s)%nat.
Proof.
  intros H. rewrite (wordsOf_words s H).
  pose proof (join_split_go_length false (trim s)).
  pose proof (trimEnd_length (trimStart s)).
  pose proof (trimStart_length s).
  unfold split_ws, trim in *. lia.
Qed.

Lemma join_length_prefix (a b : list jsstring) :
  (length (join SP a) <= length (join SP (a ++ b)))%nat.
Proof.
  induction a as [|x a IH]; [simpl; lia|].
  destruct a as [|y a].
  - destruct b as [|z b]; [simpl; lia|].
    change (([x] ++ z :: b)) with (x :: z :: b).
    rewrite join_cons2, length_app. simpl. lia.
  - change ((x :: y :: a) ++ b) with (x :: y :: (a ++ b)).
    rewrite !join_cons2, !length_app. simpl in IH. simpl length. lia.
Qed.

(** Words that together fit the budget are never split. *)
Lemma loop_without_split (maxTokens overlapTokens : Z) (words : list jsstring) :
  forall (st : LoopState) (pre : list jsstring),
  Forall (fun w => truthy w = true) pre ->
  Forall (fun w => truthy w = true) words ->
  currentChunk st = join SP pre ->
  countTokens (join SP (pre ++ words)) <= maxTokens ->
  chunks (loop maxTokens overlapTokens st words) = chunks st
  /\ currentChunk (loop maxTokens overlapTokens st words) = join SP (pre ++ words).
Proof.
  induction words as [|w words IH]; intros st pre Hpre Hw Hcur Hfit.
  - simpl. now rewrite app_nil_r.
  - inversion Hw as [|? ? Hw1 Hw2]; subst.
    assert (Htest : testChunk st w = join SP (pre ++ [w])).
    { unfold testChunk. rewrite Hcur. symmetry. now apply join_snoc. }
    assert (E : splitsAt maxTokens st w = false).
    { unfold splitsAt. apply andb_false_iff. left.
      rewrite Z.gtb_ltb. apply Z.ltb_ge. rewrite Htest.
      etransitivity; [|exact Hfit]. apply countTokens_mono.
      replace (pre ++ w :: words) with ((pre ++ [w]) ++ words)
        by now rewrite <- app_assoc.
      apply join_length_prefix. }
    destruct (step_keep maxTokens overlapTokens st w E) as (H1 & H2 & _).
    simpl.
    destruct (IH (step maxTokens overlapTokens st w) (pre ++ [w])) as [A B].
    + apply Forall_app. split; [assumption|now constructor].
    + assumption.
    + now rewrite H2.
    + now rewrite <- app_assoc.
    + rewrite A, B, H1, <- app_assoc. auto.
Qed.

(** X5. When a text that holds a word exceeds the budget only because of
    its spacing (the words joined by single spaces fit), the one chunk
    returned is the re-spaced text, not the text. *)
Theorem spacing_overflow_respaces (T : jsstring) (maxTokens overlapTokens : Z) :
  maxTokens < countTokens T ->
  wordsOf T <> [] ->
  countTokens (join SP (wordsOf T)) <= maxTokens ->
  chunkTextByTokens T maxTokens overlapTokens = [join SP (wordsOf T)]
  /\ join SP (wordsOf T) <> T.
Proof.
  intros Hbig Hw Hfit. split.
  - unfold chunkTextByTokens. destruct T as [|c s]; [now elim Hw|].
    rewrite usableText_cons.
    destruct (Z.leb_spec (countTokens (VString (c :: s))) maxTokens); [lia|].
    destruct (words_of_trim (c :: s)) as [[Hblank _]|[_ Hgood]].
    { now rewrite (wordsOf_blank _ Hblank) in Hw. }
    rewrite (wordsOf_words _ Hgood) in *.
    destruct (loop_without_split maxTokens overlapTokens
                (split_ws (trim (c :: s))) initialState [])
      as [A B]; auto using Forall_good_truthy.
    cbv zeta. simpl app in B. rewrite A, B. simpl chunks.
    rewrite join_truthy; auto using Forall_good_truthy.
  - intros E. rewrite E in Hfit. lia.
Qed.

Lemma spacing_overflow_respaces_witness :
  chunkTextByTokens (str "a          b") 2 200
  = [join SP (wordsOf (str "a          b"))]
  /\ join SP (wordsOf (str "a          b")) <> str "a          b".
Proof.
  apply (spacing_overflow_respaces (str "a          b") 2 200).
  - vm_compute. reflexivity.
  - vm_compute. discriminate.
  - vm_compute. discriminate.
Defined.

(** X6. When the words of the text joined by single spaces exceed the
    budget and there are at least two of them, at least two chunks are
    returned. *)
Theorem oversize_text_is_split (T : jsstring) (maxTokens overlapTokens : Z) :
  maxTokens < countTokens (join SP (wordsOf T)) ->
  (2 <= length (wordsOf T))%nat ->
  (2 <= length (chunkTextByTokens T maxTokens overlapTokens))%nat.
Proof.
  intros Hbig H2.
  assert (Hw : wordsOf T <> []) by (destruct (wordsOf T); simpl in H2; [lia|discriminate]).
  assert (HbigT : maxTokens < countTokens T).
  { destruct (words_of_trim T) as [[Hblank _]|[_ Hgood]].
    - now rewrite (wordsOf_blank _ Hblank) in Hw.
    - pose proof (countTokens_mono _ _ (respaced_length T Hgood)). lia. }
  destruct (chunkText_cases T maxTokens overlapTokens)
    as [(E & _)|[(_ & Hfit & _)|(_ & _ & l & Hl & Hgood & Hc & _ & Hcat & Hch & Hbud)]].
  - subst T. now elim Hw.
  - destruct Hfit; [lia|congruence].
  - rewrite Hc, length_map.
    destruct l as [|p [|q l]]; [congruence| |simpl; lia].
    exfalso. simpl in Hcat, Hch. rewrite app_nil_r in Hcat.
    destruct Hch as [[before Hb] _]. symmetry in Hb.
    apply app_eq_nil in Hb as [_ Hb].
    inversion Hbud as [|? ? Hp _]; subst.
    unfold withinOrSeed, chunkWords in Hp. rewrite Hb, Hcat in Hp.
    simpl app in Hp. destruct Hp; lia.
Qed.

Lemma oversize_text_is_split_witness :
  (2 <= length (chunkTextByTokens (str "aaaa bbbb cccc") 2 200))%nat.
Proof.
  apply (oversize_text_is_split (str "aaaa bbbb cccc") 2 200).
  - vm_compute. reflexivity.
  - vm_compute. lia.
Defined.

(* ------------------------------------------------------------------ *)
(** ** Plans, recommendations and retries *)

Lemma analyzeText_tokens (s : jsstring) :
  tokenCount (analyzeText s) = countTokens s.
Proof. destruct s; reflexivity. Qed.

Lemma Math_ceil_quotient (a k : Z) :
  0 < k ->
  k * (Math_ceil (inject_Z a / inject_Z k) - 1) < a
  <= k * Math_ceil (inject_Z a / inject_Z k).
Proof.
  intros Hk. destruct k as [|p|p]; try lia.
  assert (E : Math_ceil (inject_Z a / inject_Z (Z.pos p)) = - (- a / Z.pos p)).
  { unfold Math_ceil, Qceiling, Qfloor, Qdiv, Qmult, Qinv, Qopp, inject_Z.
    simpl. now rewrite Z.mul_1_r. }
  rewrite E.
  pose proof (Z.div_mod (- a) (Z.pos p) ltac:(lia)).
  pose proof (Z.mod_pos_bound (- a) (Z.pos p) ltac:(lia)).
  nia.
Qed.

(** X7. The plan of [chunkDocumentByTokens] is consistent: it needs chunking
    exactly when [shouldChunkDocumentByTokens] says so, [chunkCount] is the
    number of chunks, and it holds no chunk only for empty content under a
    negative budget. *)
Theorem plan_is_consistent (content : Content) (maxTokens overlapTokens : Z) :
  let plan := chunkDocumentByTokens content maxTokens overlapTokens in
  needsChunking plan = shouldChunkDocumentByTokens content maxTokens
  /\ chunkCount plan = Z.of_nat (length (plan_chunks plan))
  /\ originalTokenCount plan = countTokens (contentToText content)
  /\ plan_text plan = contentToText content
  /\ (chunkCount plan = 0 <-> contentToText content = [] /\ maxTokens < 0).
Proof.
  cbv zeta. unfold chunkDocumentByTokens, shouldChunkDocumentByTokens.
  set (T := contentToText content).
  destruct (Z.gtb_spec (countTokens T) maxTokens) as [Hbig|Hfit];
    cbn [negb needsChunking chunkCount plan_chunks originalTokenCount plan_text];
    (split; [reflexivity|]); (split; [reflexivity|]);
    (split; [reflexivity|]); (split; [reflexivity|]); split.
  - intros Hz.
    destruct T as [|c s]; [split; [reflexivity|]|].
    + change (countTokens (VString [])) with 0 in Hbig. lia.
    + destruct (chunks_never_empty_aux (c :: s) maxTokens overlapTokens
                  ltac:(discriminate)) as [Hne _].
      destruct (chunkTextByTokens _ _ _); [congruence|simpl in Hz; lia].
  - intros [E _]. rewrite E. reflexivity.
  - simpl. lia.
  - intros [E Hneg]. rewrite E in Hfit.
    change (countTokens (VString [])) with 0 in Hfit. lia.
Qed.

Lemma plan_is_consistent_witness :
  chunkCount (chunkDocumentByTokens (CString []) (-1) 200) = 0
  /\ chunkCount (chunkDocumentByTokens (CString (str "aaaa bbbb cccc")) 2 200) = 3.
Proof.
  destruct (plan_is_consistent (CString []) (-1) 200) as (_ & _ & _ & _ & H).
  split; [apply H; split; [reflexivity|lia]|].
  destruct (plan_is_consistent (CString (str "aaaa bbbb cccc")) 2 200)
    as (_ & H2 & _).
  rewrite H2. vm_compute. reflexivity.
Defined.

(** X8. [analyzeDocumentForTokenChunking] recommends chunking exactly when
    the plan under the default budget needs it; its estimate is 1 for a
    document that fits and otherwise the ceiling of the token count over
    9800, which is at least 2. *)
Theorem recommendation_matches_plan (content : Content) :
  let a := analyzeDocumentForTokenChunking content in
  let tokens := countTokens (contentToText content) in
  shouldChunk (recommendation a)
  = needsChunking (chunkDocumentByTokens content MAX_TOKENS_PER_CHUNK TOKEN_OVERLAP)
  /\ shouldChunk (recommendation a)
     = shouldChunkDocumentByTokens content MAX_TOKENS_PER_CHUNK
  /\ tokenCount (analysis a) = tokens
  /\ (tokens <= 10000 -> estimatedChunks (recommendation a) = 1)
  /\ (10000 < tokens ->
      2 <= estimatedChunks (recommendation a)
      /\ 9800 * (estimatedChunks (recommendation a) - 1) < tokens
         <= 9800 * estimatedChunks (recommendation a)).
Proof.
  cbv zeta.
  unfold analyzeDocumentForTokenChunking, chunkDocumentByTokens,
    shouldChunkDocumentByTokens.
  cbn [recommendation analysis shouldChunk estimatedChunks].
  rewrite !analyzeText_tokens.
  set (t := countTokens (contentToText content)).
  unfold MAX_TOKENS_PER_CHUNK, TOKEN_OVERLAP. change (10000 - 200) with 9800.
  destruct (Z.gtb_spec t 10000) as [Hbig|Hfit]; simpl negb; cbn [needsChunking].
  - repeat split; auto; try lia;
      pose proof (Math_ceil_quotient t 9800 ltac:(lia)); lia.
  - repeat split; auto; lia.
Qed.

Lemma recommendation_matches_plan_witness :
  estimatedChunks (recommendation
    (analyzeDocumentForTokenChunking (CString scenarioDocument))) = 2
  /\ estimatedChunks (recommendation
       (analyzeDocumentForTokenChunking (CString (str "memo")))) = 1.
Proof.
  destruct (recommendation_matches_plan (CString scenarioDocument))
    as (_ & _ & _ & _ & H).
  destruct (recommendation_matches_plan (CString (str "memo")))
    as (_ & _ & _ & H1 & _).
  assert (Ht : countTokens (contentToText (CString scenarioDocument)) = 12500)
    by (vm_compute; reflexivity).
  split.
  - rewrite Ht in H. specialize (H ltac:(lia)). lia.
  - apply H1. vm_compute. discriminate.
Defined.

(** X9. A chunked retry never uses a budget under 500 tokens, and it chunks
    the document exactly when the document measures more than 500 tokens,
    whatever chunk count above 1 was selected: a smaller document is sent
    back whole. *)
Theorem retry_chunks_only_large_documents (fileContent : jsstring) (k : Z) :
  1 < k ->
  500 <= retryTargetTokens fileContent k
  /\ needsChunking (retryPlan fileContent k) = (500 <? countTokens fileContent)
  /\ (countTokens fileContent <= 500 ->
      plan_chunks (retryPlan fileContent k) = [fileContent]).
Proof.
  intros Hk.
  assert (E : retryTargetTokens fileContent k
              = Z.max (countTokens fileContent / k) 500).
  { unfold retryTargetTokens. now rewrite Math_floor_quotient by lia. }
  pose proof (countTokens_nonneg fileContent) as H0.
  assert (Hdiv : countTokens fileContent / k <= countTokens fileContent)
    by (apply Z.div_le_upper_bound; nia).
  assert (Hlt : 0 < countTokens fileContent ->
                countTokens fileContent / k < countTokens fileContent)
    by (intros; apply Z.div_lt; lia).
  unfold retryPlan, chunkDocumentByTokens. rewrite E. simpl contentToText.
  split; [lia|].
  destruct (Z.gtb_spec (countTokens fileContent)
              (Z.max (countTokens fileContent / k) 500)) as [Hbig|Hfit];
    simpl.
  - split; [symmetry; apply Z.ltb_lt; lia|]. lia.
  - split; [symmetry; apply Z.ltb_ge|reflexivity].
    destruct (Z_lt_le_dec 0 (countTokens fileContent)); [|lia].
    specialize (Hlt ltac:(assumption)). lia.
Qed.

Lemma retry_chunks_only_large_documents_witness :
  500 <= retryTargetTokens (str "short memo") 3
  /\ needsChunking (retryPlan (str "short memo") 3) = false
  /\ plan_chunks (retryPlan (str "short memo") 3) = [str "short memo"].
Proof.
  destruct (retry_chunks_only_large_documents (str "short memo") 3 ltac:(lia))
    as (A & B & C).
  split; [exact A|]. split; [rewrite B; reflexivity|].
  apply C. vm_compute. discriminate.
Defined.

(* ------------------------------------------------------------------ *)
(** ** Words and tokens *)

Lemma wordsOf_good (T : jsstring) : Forall (fun w => good w = true) (wordsOf T).
Proof.
  destruct (words_of_trim T) as [[Hblank _]|[_ Hgood]].
  - rewrite (wordsOf_blank _ Hblank). constructor.
  - now rewrite (wordsOf_words _ Hgood).
Qed.

Lemma countWords_length (s : jsstring) :
  countWords s = Z.of_nat (length (wordsOf s)).
Proof. unfold countWords. destruct s; reflexivity. Qed.

(** X10. The words [countWords] counts are never empty and hold no
    whitespace; joining them by single spaces gives a text with the same
    words, no longer than the original. *)
Theorem respacing_keeps_the_words (T : jsstring) :
  Forall (fun w => w <> [] /\ Forall (fun c => is_ws c = false) w) (wordsOf T)
  /\ wordsOf (join SP (wordsOf T)) = wordsOf T
  /\ countWords (join SP (wordsOf T)) = countWords T
  /\ (length (join SP (wordsOf T)) <= length T)%nat.
Proof.
  pose proof (wordsOf_good T) as Hgood.
  assert (Hrt : wordsOf (join SP (wordsOf T)) = wordsOf T)
    by now apply wordsOf_join.
  split; [|split; [exact Hrt|split]].
  - eapply Forall_impl; [|exact Hgood]. intros w Hw. unfold good in Hw.
    apply andb_prop in Hw as [Ht Hf]. split.
    + intros E. subst w. discriminate.
    + rewrite forallb_forall in Hf. apply Forall_forall. intros c Hc.
      apply negb_true_iff. now apply Hf.
  - now rewrite !countWords_length, Hrt.
  - destruct (words_of_trim T) as [[Hblank _]|[_ Hg]].
    + rewrite (wordsOf_blank _ Hblank). simpl. lia.
    + now apply respaced_length.
Qed.

(** X11. A text never has more than twice as many words as tokens, and the
    token estimate of a concatenation is at least that of each part and at
    most their sum. *)
Theorem words_and_tokens (T a b : jsstring) :
  countWords T <= 2 * countTokens T
  /\ countTokens a <= countTokens (VString (a ++ b))
  /\ countTokens b <= countTokens (VString (a ++ b))
  /\ countTokens (VString (a ++ b)) <= countTokens a + countTokens b.
Proof.
  split; [|split; [|split]].
  - rewrite countWords_length.
    pose proof (join_length_lower _ (Forall_good_truthy _ (wordsOf_good T))).
    assert (Hlen : (length (join SP (wordsOf T)) <= length T)%nat).
    { destruct (words_of_trim T) as [[Hblank _]|[_ Hg]].
      - rewrite (wordsOf_blank _ Hblank). simpl. lia.
      - now apply respaced_length. }
    pose proof (countTokens_bounds T). lia.
  - apply countTokens_mono. rewrite length_app. lia.
  - apply countTokens_mono. rewrite length_app. lia.
  - rewrite !countTokens_string, length_app, Nat2Z.inj_add.
    pose proof (Z.div_mod (Z.of_nat (length a) + Z.of_nat (length b) + 3) 4 ltac:(lia)).
    pose proof (Z.mod_pos_bound (Z.of_nat (length a) + Z.of_nat (length b) + 3) 4 ltac:(lia)).
    pose proof (Z.div_mod (Z.of_nat (length a) + 3) 4 ltac:(lia)).
    pose proof (Z.mod_pos_bound (Z.of_nat (length a) + 3) 4 ltac:(lia)).
    pose proof (Z.div_mod (Z.of_nat (length b) + 3) 4 ltac:(lia)).
    pose proof (Z.mod_pos_bound (Z.of_nat (length b) + 3) 4 ltac:(lia)).
    lia.
Qed.

(* ------------------------------------------------------------------ *)
(** ** Further properties of the summary service *)

Section SummaryTraces.

Variable groq : Groq.

Lemma sleeps_app (t1 t2 : list Event) : sleeps (t1 ++ t2) = sleeps t1 ++ sleeps t2.
Proof.
  induction t1 as [|[|] t1 IH]; simpl; rewrite ?IH; reflexivity.
Qed.

Lemma mergeFailures_app (t1 t2 : list Event) :
  mergeFailures (t1 ++ t2) = mergeFailures t1 ++ mergeFailures t2.
Proof.
  induction t1 as [|[[] []|] t1 IH]; simpl; rewrite ?IH; reflexivity.
Qed.

Lemma groqCalls_app (t1 t2 : list Event) :
  groqCalls (t1 ++ t2) = groqCalls t1 ++ groqCalls t2.
Proof.
  induction t1 as [|[|] t1 IH]; simpl; rewrite ?IH; reflexivity.
Qed.

Lemma results_le_requests (tr : list Event) :
  (length (chunkResults tr) <= length (chunkRequests tr))%nat.
Proof.
  induction tr as [|[[] []|] tr IH]; simpl; lia.
Qed.

(** The events of the loop over the chunks, when it runs over all the
    chunks from [i] on. *)
Lemma summarizeChunks_events (scope desc : jsstring) (total : nat)
    (rest : list Content) :
  forall (i : nat) (acc : list jsstring) (tr : list Event),
  (i + length rest = total)%nat ->
  exists evs,
    snd (summarizeChunks groq scope desc total i rest acc tr) = tr ++ evs
    /\ Forall (fun ms => ms = 500) (sleeps evs)
    /\ length (sleeps evs)
       = Nat.min (length (chunkResults evs)) (length rest - 1)
    /\ chunkRequests evs
       = mapi_from (fun c j => (j, total, contentToText c)) i
           (firstn (length (chunkRequests evs)) rest)
    /\ (length (chunkRequests evs) <= length rest)%nat
    /\ length (groqCalls evs) = length (chunkRequests evs)
    /\ mergeFailures evs = []
    /\ match fst (summarizeChunks groq scope desc total i rest acc tr) with
       | inl _ =>
           exists before p msg,
             evs = before ++ [GroqCall p (Rejected msg)]
             /\ chunkFailures before = []
       | inr _ => length (chunkResults evs) = length rest
       end.
Proof.
  induction rest as [|c rest IH]; intros i acc tr Hi.
  - exists []. simpl. rewrite app_nil_r. repeat split; auto.
  - rewrite summarizeChunks_cons. cbv zeta.
    destruct (groq tr _) as [m|c0] eqn:Eg.
    + exists [GroqCall (ChunkPrompt scope desc i total (contentToText c))
                (Rejected m)].
      simpl. repeat split; auto; try lia.
      exists [], (ChunkPrompt scope desc i total (contentToText c)), m. auto.
    + set (ev := GroqCall (ChunkPrompt scope desc i total (contentToText c))
                   (Completed c0)).
      simpl length in Hi.
      destruct (Nat.ltb_spec i (total - 1)) as [Hlt|Hge].
      * destruct (IH (S i) (acc ++ [orElse c0 (str "No summary generated")])
                    ((tr ++ [ev]) ++ [Sleep 500]) ltac:(lia))
          as (evs & Htr & Hs & Hn & Hr & Hle & Hg & Hmf & Hres).
        exists (ev :: Sleep 500 :: evs). rewrite Htr.
        split; [now rewrite <- !app_assoc|].
        subst ev. simpl. rewrite <- Hr.
        split; [now constructor|]. split; [|split; [reflexivity|split; [lia|split; [lia|split; [assumption|]]]]].
        -- rewrite Hn. destruct rest as [|c2 rest]; simpl in *; lia.
        -- destruct (fst _).
           ++ destruct Hres as (before & p & msg & E & Hf).
              exists (GroqCall (ChunkPrompt scope desc i total (contentToText c))
                        (Completed c0) :: Sleep 500 :: before), p, msg.
              rewrite E. split; [reflexivity|]. simpl. assumption.
           ++ lia.
      * destruct (IH (S i) (acc ++ [orElse c0 (str "No summary generated")])
                    (tr ++ [ev]) ltac:(lia))
          as (evs & Htr & Hs & Hn & Hr & Hle & Hg & Hmf & Hres).
        exists (ev :: evs). rewrite Htr.
        split; [now rewrite <- !app_assoc|].
        subst ev. simpl. rewrite <- Hr.
        split; [assumption|]. split; [|split; [reflexivity|split; [lia|split; [lia|split; [assumption|]]]]].
        -- assert (rest = []) by (destruct rest; simpl in *; [reflexivity|lia]).
           subst rest. simpl in *.
           pose proof (results_le_requests evs). 
           rewrite Hn. lia.
        -- destruct (fst _).
           ++ destruct Hres as (before & p & msg & E & Hf).
              exists (GroqCall (ChunkPrompt scope desc i total (contentToText c))
                        (Completed c0) :: before), p, msg.
              rewrite E. split; [reflexivity|]. simpl. assumption.
           ++ lia.
Qed.

End SummaryTraces.

Lemma fold_left_sum {A} (f : A -> Z) (l : list A) (z : Z) :
  fold_left (fun n a => n + f a) l z = z + sumZ (map f l).
Proof.
  revert z. induction l as [|a l IH]; intros z; simpl; [lia|].
  rewrite IH. unfold sumZ. lia.
Qed.

Lemma analyzeText_words (s : jsstring) :
  wordCount (analyzeText s) = countWords s.
Proof. destruct s; reflexivity. Qed.

Lemma mapi_from_firstn {A B} (f : A -> nat -> B) (k i : nat) (l : list A) :
  mapi_from f i (firstn k l) = firstn k (mapi_from f i l).
Proof.
  revert i l. induction k as [|k IH]; intros i [|a l]; simpl; auto.
  now rewrite IH.
Qed.

Lemma successResponse_counts (request : SummaryRequest) (chunks : list Content)
    (text : jsstring) (count : Z) :
  res_wordCount (successResponse request chunks text count)
  = sumZ (map (fun c => countWords (contentToText c)) chunks)
  /\ res_tokenCount (successResponse request chunks text count)
     = sumZ (map (fun c => countTokens (contentToText c)) chunks).
Proof.
  unfold successResponse. cbn [res_wordCount res_tokenCount].
  rewrite !fold_left_sum. split.
  - simpl. f_equal. apply map_ext. intros c. apply analyzeText_words.
  - simpl. f_equal. apply map_ext. intros c. apply analyzeText_tokens.
Qed.

(** How a run over a number of chunks other than one ends: at the first
    rejected chunk request, or with a merge request after all chunk
    requests were answered. *)
Lemma multi_outcome (groq : Groq) (request : SummaryRequest)
    (chunks : list Content) :
  exists evs,
    Forall (fun ms => ms = 500) (sleeps evs)
    /\ length (sleeps evs)
       = Nat.min (length (chunkResults evs)) (length chunks - 1)
    /\ chunkRequests evs
       = firstn (length (chunkRequests evs)) (expectedRequests chunks)
    /\ (length (chunkRequests evs) <= length chunks)%nat
    /\ length (groqCalls evs) = length (chunkRequests evs)
    /\ mergeFailures evs = []
    /\ mergeRequests evs = []
    /\ ((exists before p msg,
           evs = before ++ [GroqCall p (Rejected msg)]
           /\ chunkFailures before = []
           /\ chunkFailures evs = [msg]
           /\ multiRun groq request chunks
              = (inr (failedResponse request
                        (str "Failed to process chunk: " ++ msg)), evs))
        \/ (chunkFailures evs = []
            /\ length (chunkResults evs) = length chunks
            /\ chunkRequests evs = expectedRequests chunks
            /\ exists r,
                 multiRun groq request chunks
                 = (inr match r with
                        | Rejected m =>
                            failedResponse request
                              (str "Failed to combine summaries: " ++ m)
                        | Completed c =>
                            successResponse request chunks
                              (orElse c (str "No final summary generated"))
                              (Z.of_nat (length chunks))
                        end,
                    evs ++ [GroqCall (MergePrompt (filename request)
                                        (chunkResults evs)) r]))).
Proof.
  destruct (summarizeChunks_events groq (extractionScope request)
              (scopeDescription request) (length chunks) chunks 0%nat [] []
              ltac:(reflexivity))
    as (evs & Htr & Hs & Hn & Hr & Hle & Hg & Hmf & Hres).
  destruct (summarizeChunks_run groq (extractionScope request)
              (scopeDescription request) (length chunks) chunks 0%nat [] [])
    as (evs' & Htr' & Hm & Hres').
  assert (evs' = evs) by (simpl in Htr, Htr'; congruence). subst evs'.
  exists evs. rewrite mapi_from_firstn in Hr. fold (expectedRequests chunks) in Hr.
  repeat (split; [assumption|]).
  unfold multiRun.
  destruct (summarizeChunks groq _ _ _ 0 _ [] []) as [[m|sums] tr].
  - left. simpl in *. subst tr.
    destruct Hres as (before & p & msg & E & Hf).
    destruct Hres' as (msg' & Hf' & ->).
    exists before, p, msg. split; [exact E|]. split; [exact Hf|].
    assert (msg' = msg).
    { rewrite E, chunkFailures_app, Hf in Hf'. simpl in Hf'.
      destruct p; simpl in Hf'; congruence. }
    subst msg'. auto.
  - right. simpl in *. subst tr.
    destruct Hres' as (Hf & Hs' & Hr'). simpl in Hs'. subst sums.
    split; [exact Hf|]. split; [exact Hres|]. split; [exact Hr'|].
    exists (groq evs (MergePrompt (filename request) (chunkResults evs))).
    destruct (groq evs _); reflexivity.
Qed.

(** X12. [summarizeDocument] never throws: it always resolves to a
    response for the file of the request.  A successful response has no
    error, counts the chunks processed and adds up the words and tokens of
    all chunks; a failed one has an error, an empty summary and all counts at
    zero, whatever was measured. *)
Theorem summarize_always_responds (groq : Groq) (request : SummaryRequest) :
  exists res,
    fst (summarizeDocument groq request []) = inr res
    /\ res_filename res = filename request
    /\ (success res = true ->
        error res = None
        /\ res_chunkCount res = Z.of_nat (length (requestChunks request))
        /\ res_wordCount res
           = sumZ (map (fun c => countWords (contentToText c))
                     (requestChunks request))
        /\ res_tokenCount res
           = sumZ (map (fun c => countTokens (contentToText c))
                     (requestChunks request)))
    /\ (success res = false ->
        error res <> None /\ summary res = []
        /\ res_chunkCount res = 0 /\ res_wordCount res = 0
        /\ res_tokenCount res = 0).
Proof.
  destruct (Nat.eq_dec (length (requestChunks request)) 1) as [e|ne].
  - destruct (one_chunk request e) as [c Hc].
    rewrite (summarizeDocument_single groq request c Hc), Hc.
    unfold singleRun. cbv zeta. destruct (groq [] _) as [m|c0]; eexists;
      (split; [reflexivity|]); (split; [reflexivity|]); split;
      cbn [success failedResponse successResponse]; try discriminate.
    + intros _. cbn. repeat split; discriminate.
    + intros _. split; [reflexivity|]. split; [reflexivity|].
      apply successResponse_counts.
  - rewrite (summarizeDocument_multi groq request ne).
    destruct (multi_outcome groq request (requestChunks request))
      as (evs & _ & _ & _ & _ & _ & _ & _ & [(b & p & msg & _ & _ & _ & E)|(_ & _ & _ & r & E)]);
      rewrite E.
    + eexists. split; [reflexivity|]. split; [reflexivity|].
      split; [discriminate|]. intros _. cbn. repeat split; discriminate.
    + destruct r as [m|c0]; eexists; (split; [reflexivity|]);
        (split; [reflexivity|]); split;
        cbn [success failedResponse successResponse]; try discriminate.
      * intros _. cbn. repeat split; discriminate.
      * intros _. split; [reflexivity|]. split; [reflexivity|].
        apply successResponse_counts.
Qed.

Lemma summarize_always_responds_witness :
  exists res,
    fst (summarizeDocument answersAll threeChunks []) = inr res
    /\ success res = true
    /\ res_chunkCount res = 3
    /\ res_wordCount res = 3
    /\ res_tokenCount res = 4.
Proof.
  destruct (summarize_always_responds answersAll threeChunks)
    as (res & E & _ & Hok & _).
  exists res. split; [exact E|].
  assert (Hs : success res = true).
  { vm_compute in E. injection E as <-. reflexivity. }
  destruct (Hok Hs) as (_ & A & B & C).
  split; [exact Hs|]. split; [exact A|]. split; [rewrite B|rewrite C];
    vm_compute; reflexivity.
Defined.

Lemma single_trace (groq : Groq) (request : SummaryRequest) (c : Content) :
  exists r,
    snd (singleRun groq request c)
    = [GroqCall (ChunkPrompt (extractionScope request) (scopeDescription request)
                   0 1 (contentToText c)) r].
Proof.
  unfold singleRun. cbv zeta. destruct (groq [] _) as [m|c0]; eexists; reflexivity.
Qed.

(** X13. If the merge request is rejected, every chunk request had been
    answered, and still the document fails: the response is the failed one,
    with the message of the rejection after "Failed to combine summaries: ",
    and the partial summaries are lost. *)
Theorem merge_failure_fails_document (groq : Groq) (request : SummaryRequest)
    (m : jsstring) :
  let run := summarizeDocument groq request [] in
  In m (mergeFailures (snd run)) ->
  fst run = inr (failedResponse request (str "Failed to combine summaries: " ++ m))
  /\ chunkFailures (snd run) = []
  /\ length (chunkResults (snd run)) = length (requestChunks request).
Proof.
  cbv zeta. intros Hin.
  destruct (Nat.eq_dec (length (requestChunks request)) 1) as [e|ne].
  - destruct (one_chunk request e) as [c Hc].
    rewrite (summarizeDocument_single groq request c Hc) in *.
    destruct (single_trace groq request c) as [r Hr]. rewrite Hr in Hin.
    destruct r; destruct Hin.
  - rewrite (summarizeDocument_multi groq request ne) in *.
    destruct (multi_outcome groq request (requestChunks request))
      as (evs & _ & _ & _ & _ & _ & Hmf & _ & [(b & p & msg & _ & _ & _ & E)|(Hf & Hlen & _ & r & E)]);
      rewrite E in *; cbn [fst snd] in *.
    + rewrite Hmf in Hin. destruct Hin.
    + rewrite mergeFailures_app, Hmf in Hin.
      rewrite chunkFailures_app, chunkResults_app, Hf.
      destruct r as [m'|c0]; simpl in Hin; [|destruct Hin].
      destruct Hin as [->|[]]. simpl. rewrite app_nil_r. auto.
Qed.

Lemma merge_failure_fails_document_witness :
  fst (summarizeDocument rejectsMerge threeChunks [])
  = inr (failedResponse threeChunks (str "Failed to combine summaries: too long"))
  /\ length (chunkResults (snd (summarizeDocument rejectsMerge threeChunks [])))
     = 3%nat.
Proof.
  destruct (merge_failure_fails_document rejectsMerge threeChunks (str "too long"))
    as (A & _ & C).
  - vm_compute. left. reflexivity.
  - split; [exact A|exact C].
Defined.

(** X14. [summarizeDocument] stops at the first rejected chunk request:
    that request is the last event of the run, so the chunks after it are
    never sent and no pause follows. *)
Theorem chunk_failure_ends_the_run (groq : Groq) (request : SummaryRequest)
    (msg : jsstring) :
  let tr := snd (summarizeDocument groq request []) in
  In msg (chunkFailures tr) ->
  exists before p,
    tr = before ++ [GroqCall p (Rejected msg)]
    /\ chunkFailures before = []
    /\ length (chunkRequests tr) = S (length (chunkResults tr)).
Proof.
  cbv zeta. intros Hin.
  destruct (Nat.eq_dec (length (requestChunks request)) 1) as [e|ne].
  - destruct (one_chunk request e) as [c Hc].
    rewrite (summarizeDocument_single groq request c Hc) in *.
    destruct (single_trace groq request c) as [r Hr]. rewrite Hr in *.
    destruct r as [m|c0]; simpl in Hin; [|destruct Hin].
    destruct Hin as [->|[]]. exists [], (ChunkPrompt (extractionScope request)
      (scopeDescription request) 0 1 (contentToText c)). auto.
  - rewrite (summarizeDocument_multi groq request ne) in *.
    destruct (multi_outcome groq request (requestChunks request))
      as (evs & _ & _ & _ & _ & _ & _ & _ & [(b & p & m & Eb & Hb & Hf & E)|(Hf & _ & _ & r & E)]);
      rewrite E in *; cbn [fst snd] in *.
    + rewrite Hf in Hin. destruct Hin as [->|[]].
      exists b, p. split; [exact Eb|]. split; [exact Hb|].
      rewrite Eb, chunkRequests_app, chunkResults_app, !length_app.
      rewrite (chunk_counts_agree b Hb).
      rewrite Eb, chunkFailures_app, Hb in Hf.
      destruct p; simpl in Hf; [|discriminate]. simpl. lia.
    + rewrite chunkFailures_app, Hf in Hin. destruct r; destruct Hin.
Qed.

Lemma chunk_failure_ends_the_run_witness :
  exists before p,
    snd (summarizeDocument rejectsSecond threeChunks [])
    = before ++ [GroqCall p (Rejected (str "rate limit"))]
    /\ chunkFailures before = []
    /\ length (chunkRequests (snd (summarizeDocument rejectsSecond threeChunks [])))
       = S (length (chunkResults (snd (summarizeDocument rejectsSecond threeChunks [])))).
Proof.
  apply (chunk_failure_ends_the_run rejectsSecond threeChunks (str "rate limit")).
  vm_compute. left. reflexivity.
Defined.

(** X15. [summarizeDocument] sends the chunks in index order and never
    sends one twice: the chunk requests of a run are the first ones of the
    list of all chunks with their indices, and a run makes at most one merge
    request and at most one request more than there are chunks. *)
Theorem requests_in_order_without_retry (groq : Groq) (request : SummaryRequest) :
  let tr := snd (summarizeDocument groq request []) in
  let chunks := requestChunks request in
  chunkRequests tr
  = firstn (length (chunkRequests tr)) (expectedRequests chunks)
  /\ (length (chunkRequests tr) <= length chunks)%nat
  /\ (length (mergeRequests tr) <= 1)%nat
  /\ (length (groqCalls tr) <= length chunks + 1)%nat.
Proof.
  cbv zeta.
  destruct (Nat.eq_dec (length (requestChunks request)) 1) as [e|ne].
  - destruct (one_chunk request e) as [c Hc].
    rewrite (summarizeDocument_single groq request c Hc), Hc.
    destruct (single_trace groq request c) as [r Hr]. rewrite Hr.
    simpl. repeat split; lia.
  - rewrite (summarizeDocument_multi groq request ne).
    destruct (multi_outcome groq request (requestChunks request))
      as (evs & _ & _ & Hr & Hle & Hg & _ & Hm & [(b & p & m & _ & _ & _ & E)|(_ & _ & _ & r & E)]);
      rewrite E; cbn [fst snd].
    + rewrite Hm, Hg. simpl. repeat split; auto; lia.
    + rewrite chunkRequests_app, mergeRequests_app, groqCalls_app, Hm,
        !length_app, Hg.
      simpl. rewrite app_nil_r, Nat.add_0_r. repeat split; auto; lia.
Qed.

(** X16. Every pause of [summarizeDocument] lasts 500 ms, and there is one
    after each answered chunk request but the last chunk's: as many pauses
    as answered chunk requests, at most the number of chunks less one. *)
Theorem pauses_between_chunks (groq : Groq) (request : SummaryRequest) :
  let tr := snd (summarizeDocument groq request []) in
  Forall (fun ms => ms = 500) (sleeps tr)
  /\ length (sleeps tr)
     = Nat.min (length (chunkResults tr)) (length (requestChunks request) - 1).
Proof.
  cbv zeta.
  destruct (Nat.eq_dec (length (requestChunks request)) 1) as [e|ne].
  - destruct (one_chunk request e) as [c Hc].
    rewrite (summarizeDocument_single groq request c Hc), Hc.
    destruct (single_trace groq request c) as [r Hr]. rewrite Hr.
    simpl. split; [constructor|]. now rewrite Nat.min_0_r.
  - rewrite (summarizeDocument_multi groq request ne).
    destruct (multi_outcome groq request (requestChunks request))
      as (evs & Hs & Hn & _ & _ & _ & _ & _ & [(b & p & m & _ & _ & _ & E)|(_ & _ & _ & r & E)]);
      rewrite E; cbn [fst snd].
    + auto.
    + rewrite sleeps_app, chunkResults_app. simpl. rewrite !app_nil_r. auto.
Qed.

(** X17. For a request whose array of chunks is empty, [summarizeDocument]
    makes no chunk request and yet makes one merge request, with no summary
    to merge. *)
Theorem empty_chunk_array_still_merges (groq : Groq) (request : SummaryRequest) :
  requestChunks request = [] ->
  exists r,
    snd (summarizeDocument groq request [])
    = [GroqCall (MergePrompt (filename request) []) r].
Proof.
  intros E.
  rewrite (summarizeDocument_multi groq request) by (rewrite E; discriminate).
  rewrite E. unfold multiRun. simpl. cbv zeta.
  destruct (groq [] _); eexists; reflexivity.
Qed.

Lemma empty_chunk_array_still_merges_witness :
  exists r,
    snd (summarizeDocument answersAll noChunks [])
    = [GroqCall (MergePrompt (filename noChunks) []) r].
Proof. apply (empty_chunk_array_still_merges answersAll noChunks). reflexivity. Defined.

(* ------------------------------------------------------------------ *)
(** ** Duplicate files *)

Lemma jseqb_spec (a b : jsstring) : jseqb a b = true <-> a = b.
Proof.
  revert b. induction a as [|x a IH]; intros [|y b]; simpl; split;
    intros H; try discriminate; auto.
  - apply andb_prop in H as [Hx Ha]. apply N.eqb_eq in Hx.
    apply IH in Ha. congruence.
  - injection H as -> ->. rewrite N.eqb_refl. now apply IH.
Qed.

Lemma jseqb_refl (a : jsstring) : jseqb a a = true.
Proof. now apply jseqb_spec. Qed.

Lemma jseqb_sym (a b : jsstring) : jseqb a b = jseqb b a.
Proof.
  destruct (jseqb a b) eqn:E1, (jseqb b a) eqn:E2; auto.
  - apply jseqb_spec in E1. subst. now rewrite jseqb_refl in E2.
  - apply jseqb_spec in E2. subst. now rewrite jseqb_refl in E1.
Qed.

Lemma has_spec (set : list jsstring) (key : jsstring) :
  has set key = true <-> In key set.
Proof.
  unfold has. rewrite existsb_exists. split.
  - intros (x & Hin & Heq). apply jseqb_spec in Heq. now subst.
  - intros Hin. exists key. split; [assumption|apply jseqb_refl].
Qed.

Lemma sameContent_sym (c1 c2 : option jsstring) :
  sameContent c1 c2 = sameContent c2 c1.
Proof.
  destruct c1 as [a|], c2 as [b|]; simpl; auto.
  rewrite (jseqb_sym a b). destruct (truthy a), (truthy b); reflexivity.
Qed.

Example duplicates_of_duplicates :
  isDuplicate reportA reportB = true
  /\ isDuplicate reportB reportC = true
  /\ isDuplicate reportA reportC = false
  /\ findDuplicateFiles [reportA; reportB; reportC] = [[reportA; reportB]].
Proof. repeat split; vm_compute; reflexivity. Qed.

(** X18. [isDuplicate] holds of every file with itself and does not depend
    on the order of its arguments, but it does not carry over: a file may
    duplicate two files that do not duplicate each other. *)
Theorem isDuplicate_relation :
  (forall f, isDuplicate f f = true)
  /\ (forall f g, isDuplicate f g = isDuplicate g f)
  /\ ~ (forall f g h, isDuplicate f g = true -> isDuplicate g h = true ->
                      isDuplicate f h = true).
Proof.
  split; [|split].
  - intros f. unfold isDuplicate. now rewrite jseqb_refl, N.eqb_refl.
  - intros f g. unfold isDuplicate.
    now rewrite (jseqb_sym (df_name f)), (N.eqb_sym (df_size f)),
      (sameContent_sym (df_content f)).
  - intros H. specialize (H reportA reportB reportC eq_refl eq_refl).
    discriminate H.
Qed.

Lemma Subseq_refl {A} (l : list A) : Subseq l l.
Proof. induction l; constructor; assumption. Qed.

Lemma Subseq_filter {A} (P : A -> bool) (l : list A) : Subseq (filter P l) l.
Proof.
  induction l as [|a l IH]; simpl; [constructor|].
  destruct (P a); constructor; assumption.
Qed.

Lemma Subseq_In {A} (l1 l2 : list A) (a : A) :
  Subseq l1 l2 -> In a l1 -> In a l2.
Proof.
  induction 1; simpl; intros Hin; auto.
  destruct Hin; auto.
Qed.

Lemma collectDuplicates_spec (file : DocumentFile) (later : list DocumentFile) :
  forall group processed,
  collectDuplicates file later group processed
  = (group ++ filter (isDuplicate file) later,
     processed ++ map df_id (filter (isDuplicate file) later)).
Proof.
  induction later as [|other later IH]; intros group processed; simpl.
  - now rewrite !app_nil_r.
  - destruct (isDuplicate file other); rewrite IH; simpl;
      now rewrite <- ?app_assoc.
Qed.

Lemma findDuplicatesFrom_cons (file : DocumentFile) (later : list DocumentFile)
    (processed : list jsstring) :
  findDuplicatesFrom (file :: later) processed =
  if has processed (df_id file) then findDuplicatesFrom later processed
  else
    (if (1 <? length (file :: filter (isDuplicate file) later))%nat
     then [file :: filter (isDuplicate file) later] else [])
    ++ findDuplicatesFrom later
         ((processed ++ [df_id file])
          ++ map df_id (filter (isDuplicate file) later)).
Proof.
  simpl. destruct (has processed (df_id file)); [reflexivity|].
  rewrite collectDuplicates_spec. reflexivity.
Qed.

Lemma duplicateGroupOf_skip (f : DocumentFile) (files group : list DocumentFile) :
  duplicateGroupOf files group -> duplicateGroupOf (f :: files) group.
Proof.
  intros (file & members & E & Hne & Hall & Hsub).
  exists file, members. repeat split; auto. now constructor.
Qed.

Lemma groups_from (files : list DocumentFile) :
  forall processed,
  Forall (duplicateGroupOf files) (findDuplicatesFrom files processed).
Proof.
  induction files as [|file later IH]; intros processed; [constructor|].
  rewrite findDuplicatesFrom_cons.
  assert (Hrec : forall pr, Forall (duplicateGroupOf (file :: later))
                              (findDuplicatesFrom later pr)).
  { intros pr. eapply Forall_impl; [|apply IH].
    intros g. apply duplicateGroupOf_skip. }
  destruct (has processed (df_id file)); [apply Hrec|].
  apply Forall_app. split; [|apply Hrec].
  destruct (Nat.ltb_spec 1 (length (file :: filter (isDuplicate file) later)));
    [|constructor].
  constructor; [|constructor].
  exists file, (filter (isDuplicate file) later). repeat split.
  - intros E. rewrite E in *. simpl in *. lia.
  - apply Forall_forall. intros other Hin. apply filter_In in Hin. tauto.
  - constructor. apply Subseq_filter.
Qed.

(** X19. Every group [findDuplicateFiles] reports is made of a file
    followed by at least one later file that [isDuplicate] pairs with it, in
    the order of the list. *)
Theorem duplicate_groups_are_duplicates (files : list DocumentFile) :
  Forall (duplicateGroupOf files) (findDuplicateFiles files).
Proof. apply groups_from. Qed.

Lemma filter_nil_iff {A} (P : A -> bool) (l : list A) :
  filter P l = [] <-> Forall (fun a => P a = false) l.
Proof.
  induction l as [|a l IH]; simpl; [split; auto|].
  destruct (P a) eqn:E; split; intros H.
  - discriminate.
  - inversion H; congruence.
  - constructor; [assumption|now apply IH].
  - inversion H; subst. now apply IH.
Qed.

Lemma no_pairs_no_groups (files : list DocumentFile) :
  forall processed,
  ForallOrdPairs (fun f g => isDuplicate f g = false) files ->
  findDuplicatesFrom files processed = [].
Proof.
  induction files as [|file later IH]; intros processed H; [reflexivity|].
  inversion H as [|? ? Hall Hrest]; subst.
  rewrite findDuplicatesFrom_cons.
  destruct (has processed (df_id file)); [now apply IH|].
  rewrite (proj2 (filter_nil_iff _ _) Hall). simpl. now apply IH.
Qed.

Lemma no_groups_no_pairs (files : list DocumentFile) :
  forall processed,
  NoDup (map df_id files) ->
  (forall x, In x processed -> ~ In x (map df_id files)) ->
  findDuplicatesFrom files processed = [] ->
  ForallOrdPairs (fun f g => isDuplicate f g = false) files.
Proof.
  induction files as [|file later IH]; intros processed Hnd Hdis Hres;
    [constructor|].
  inversion Hnd as [|? ? Hnotin Hnd']; subst.
  rewrite findDuplicatesFrom_cons in Hres.
  destruct (has processed (df_id file)) eqn:Ehas.
  { apply has_spec in Ehas. exfalso. apply (Hdis _ Ehas). now left. }
  apply app_eq_nil in Hres as [Hgroup Hrec].
  assert (Hfil : filter (isDuplicate file) later = []).
  { destruct (filter (isDuplicate file) later); [reflexivity|].
    simpl in Hgroup. discriminate. }
  constructor; [now apply filter_nil_iff|].
  rewrite Hfil in Hrec. simpl in Hrec. rewrite app_nil_r in Hrec.
  apply (IH (processed ++ [df_id file])); auto.
  intros x Hx Hin. apply in_app_or in Hx as [Hx|[<-|[]]].
  - apply (Hdis x Hx). now right.
  - contradiction.
Qed.

(** X20. For files with distinct ids, [findDuplicateFiles] reports no group
    exactly when no file duplicates a later one. *)
Theorem no_group_iff_no_duplicate (files : list DocumentFile) :
  NoDup (map df_id files) ->
  (findDuplicateFiles files = []
   <-> ForallOrdPairs (fun f g => isDuplicate f g = false) files).
Proof.
  intros Hnd. split.
  - apply no_groups_no_pairs; [assumption|]. intros x [].
  - apply no_pairs_no_groups.
Qed.

Lemma no_group_iff_no_duplicate_witness :
  findDuplicateFiles [reportA; reportC] = []
  <-> ForallOrdPairs (fun f g => isDuplicate f g = false) [reportA; reportC].
Proof.
  apply (no_group_iff_no_duplicate [reportA; reportC]).
  repeat constructor; simpl; intros H; repeat destruct H as [H|H];
    try discriminate H; auto.
Defined.

(** *** The key of a file *)

Lemma str_inj (s1 s2 : String.string) : str s1 = str s2 -> s1 = s2.
Proof.
  revert s2. induction s1 as [|a s1 IH]; intros [|b s2] H; simpl in H;
    try discriminate; [reflexivity|].
  injection H as Ha Hs. f_equal; [|now apply IH].
  rewrite <- (ascii_N_embedding a), <- (ascii_N_embedding b). now rewrite Ha.
Qed.

Lemma to_uint_not_nil (n : N) : N.to_uint n <> Decimal.Nil.
Proof.
  intros E. pose proof (DecimalN.Unsigned.of_to n) as H. rewrite E in H.
  simpl in H. subst n. discriminate E.
Qed.

Lemma decimalN_inj (n m : N) : decimalN n = decimalN m -> n = m.
Proof.
  unfold decimalN. intros H. apply str_inj in H.
  pose proof (NilZero.usu _ (to_uint_not_nil n)) as Hn.
  pose proof (NilZero.usu _ (to_uint_not_nil m)) as Hm.
  rewrite H, Hm in Hn. injection Hn as Hn.
  rewrite <- (DecimalN.Unsigned.of_to n), <- (DecimalN.Unsigned.of_to m).
  now rewrite Hn.
Qed.

Lemma digits_no_dash (d : Decimal.uint) :
  ~ In 45%N (str (NilEmpty.string_of_uint d)).
Proof.
  induction d; simpl; intros H; try (destruct H as [H|H]; [discriminate H|]);
    auto.
Qed.

Lemma decimalN_no_dash (n : N) : ~ In 45%N (decimalN n).
Proof.
  unfold decimalN, NilZero.string_of_uint.
  destruct (N.to_uint n) eqn:E; try (rewrite <- E; apply digits_no_dash).
  simpl. intros [H|[]]. discriminate H.
Qed.

Lemma split_at_last (x : char) (a b d1 d2 : jsstring) :
  ~ In x d1 -> ~ In x d2 ->
  a ++ x :: d1 = b ++ x :: d2 -> a = b /\ d1 = d2.
Proof.
  intros H1 H2. revert b. induction a as [|y a IH]; intros [|z b] E; simpl in E.
  - injection E as E. auto.
  - injection E as Ez E. subst. exfalso. apply H1. apply in_or_app. right. now left.
  - injection E as Ey E. subst. exfalso. apply H2. apply in_or_app. right. now left.
  - injection E as Ey E. destruct (IH b E). subst. auto.
Qed.

Lemma fileKey_inj (f g : DocumentFile) :
  fileKey f = fileKey g <-> sameNameAndSize f g.
Proof.
  unfold fileKey, sameNameAndSize. split.
  - intros E. change (str "-") with [45%N] in E. simpl in E.
    apply split_at_last in E; auto using decimalN_no_dash.
    destruct E as [E1 E2]. split; [assumption|now apply decimalN_inj].
  - intros [-> ->]. reflexivity.
Qed.

(** *** Removing duplicates *)

Lemma NoDup_snoc {A} (l : list A) (x : A) :
  NoDup l -> ~ In x l -> NoDup (l ++ [x]).
Proof.
  induction l as [|a l IH]; intros Hnd Hx; simpl.
  - constructor; [intros []|constructor].
  - inversion Hnd; subst. constructor.
    + intros Hin. apply in_app_or in Hin as [Hin|[<-|[]]]; auto.
      apply Hx. now left.
    + apply IH; auto. intros Hin. apply Hx. now right.
Qed.

Lemma removeDuplicates_run (files : list DocumentFile) :
  forall uniq,
  NoDup (map fileKey uniq) ->
  exists kept,
    removeDuplicatesFrom files uniq (map fileKey uniq) = uniq ++ kept
    /\ Subseq kept files
    /\ NoDup (map fileKey (uniq ++ kept))
    /\ (forall f, In f files -> In (fileKey f) (map fileKey (uniq ++ kept))).
Proof.
  induction files as [|file rest IH]; intros uniq Hnd.
  - exists []. simpl. rewrite app_nil_r.
    repeat split; auto; [constructor|intros f []].
  - simpl. destruct (has (map fileKey uniq) (fileKey file)) eqn:Ehas; simpl.
    + destruct (IH uniq Hnd) as (kept & E & Hsub & Hnd' & Hall).
      exists kept. rewrite E. repeat split; auto; [now constructor|].
      intros f [<-|Hin]; [|now apply Hall].
      apply has_spec in Ehas. rewrite map_app. apply in_or_app. now left.
    + assert (Hnotin : ~ In (fileKey file) (map fileKey uniq)).
      { intros Hin. apply has_spec in Hin. congruence. }
      assert (Hnd1 : NoDup (map fileKey (uniq ++ [file]))).
      { rewrite map_app. simpl. now apply NoDup_snoc. }
      replace (map fileKey uniq ++ [fileKey file])
        with (map fileKey (uniq ++ [file])) by now rewrite map_app.
      destruct (IH (uniq ++ [file]) Hnd1) as (kept & E & Hsub & Hnd' & Hall).
      exists (file :: kept). rewrite E, <- !app_assoc. simpl.
      rewrite <- app_assoc in Hnd', Hall. simpl in Hnd', Hall.
      repeat split; auto; [now constructor|].
      intros f [<-|Hin]; [|now apply Hall].
      rewrite map_app. apply in_or_app. right. now left.
Qed.

Lemma NoDup_keys_pairs (l : list DocumentFile) :
  NoDup (map fileKey l) ->
  ForallOrdPairs (fun f g => ~ sameNameAndSize f g) l.
Proof.
  induction l as [|f l IH]; intros H; [constructor|].
  simpl in H. inversion H as [|? ? Hnotin Hnd]; subst.
  constructor; [|now apply IH].
  apply Forall_forall. intros g Hg Hsame. apply Hnotin.
  apply fileKey_inj in Hsame. rewrite Hsame. now apply in_map.
Qed.

Lemma removeDuplicates_fixed (files : list DocumentFile) :
  forall uniq,
  NoDup (map fileKey (uniq ++ files)) ->
  removeDuplicatesFrom files uniq (map fileKey uniq) = uniq ++ files.
Proof.
  induction files as [|file rest IH]; intros uniq Hnd; simpl.
  - now rewrite app_nil_r.
  - assert (Ehas : has (map fileKey uniq) (fileKey file) = false).
    { destruct (has _ _) eqn:E; [|reflexivity]. exfalso.
      apply has_spec in E. rewrite map_app in Hnd. simpl in Hnd.
      apply NoDup_remove_2 in Hnd. apply Hnd. apply in_or_app. now left. }
    rewrite Ehas. simpl.
    replace (map fileKey uniq ++ [fileKey file])
      with (map fileKey (uniq ++ [file])) by now rewrite map_app.
    rewrite IH; rewrite <- app_assoc; [reflexivity|exact Hnd].
Qed.

(** X21. [removeDuplicates] keeps some of the files, in their order, so
    that no two of the files kept have the same name and size while every
    file of the list has one of the same name and size among them; applied
    again it changes nothing. *)
Theorem removeDuplicates_keeps_one_of_each (files : list DocumentFile) :
  let kept := removeDuplicates files in
  Subseq kept files
  /\ ForallOrdPairs (fun f g => ~ sameNameAndSize f g) kept
  /\ (forall f, In f files -> exists g, In g kept /\ sameNameAndSize g f)
  /\ removeDuplicates kept = kept.
Proof.
  cbv zeta. unfold removeDuplicates.
  destruct (removeDuplicates_run files [] ltac:(constructor))
    as (kept & E & Hsub & Hnd & Hall).
  simpl in E, Hnd, Hall.
  rewrite E. split; [exact Hsub|]. split; [now apply NoDup_keys_pairs|]. split.
  - intros f Hin. specialize (Hall f Hin). apply in_map_iff in Hall.
    destruct Hall as (g & Hk & Hg). exists g. split; [assumption|].
    now apply fileKey_inj.
  - exact (removeDuplicates_fixed kept [] Hnd).
Qed.

Example removeDuplicates_ignores_content :
  removeDuplicates [reportA; reportB; reportC] = [reportA; reportC].
Proof. vm_compute. reflexivity. Qed.

(* ------------------------------------------------------------------ *)
(** ** File names and file types *)

Lemma arrayIncludes_spec (array : list jsstring) (x : jsstring) :
  arrayIncludes array x = true <-> In x array.
Proof.
  unfold arrayIncludes. rewrite existsb_exists. split.
  - intros (y & Hin & Heq). apply jseqb_spec in Heq. now subst.
  - intros Hin. exists x. split; [assumption|apply jseqb_refl].
Qed.

Lemma startsWith_spec (s prefix : jsstring) :
  startsWith s prefix = true <-> exists rest, s = prefix ++ rest.
Proof.
  revert s. induction prefix as [|p prefix IH]; intros s; simpl.
  - split; [intros _; now exists s|reflexivity].
  - destruct s as [|c s].
    + split; [discriminate|]. intros (rest & E). discriminate.
    + rewrite andb_true_iff, N.eqb_eq, IH. split.
      * intros (-> & rest & ->). now exists rest.
      * intros (rest & E). injection E as -> ->. split; [reflexivity|].
        now exists rest.
Qed.

Lemma includes_spec (s sub : jsstring) :
  includes s sub = true <-> exists before after, s = before ++ sub ++ after.
Proof.
  induction s as [|c s IH].
  - simpl. rewrite orb_false_r, startsWith_spec. split.
    + intros (rest & E). now exists [], rest.
    + intros (before & after & E). destruct before; simpl in E.
      * now exists after.
      * discriminate.
  - cbn [includes]. rewrite orb_true_iff, startsWith_spec, IH. split.
    + intros [(rest & E)|(before & after & E)].
      * now exists [], rest.
      * exists (c :: before), after. simpl. now rewrite E.
    + intros (before & after & E). destruct before as [|b before].
      * left. now exists after.
      * right. simpl in E. injection E as _ E. now exists before, after.
Qed.

Lemma endsWith_spec (s suffix : jsstring) :
  endsWith s suffix = true <-> exists before, s = before ++ suffix.
Proof.
  unfold endsWith. rewrite startsWith_spec. split.
  - intros (rest & E). exists (rev rest).
    rewrite <- (rev_involutive s), E, rev_app_distr.
    now rewrite rev_involutive.
  - intros (before & ->). exists (rev before). apply rev_app_distr.
Qed.

Lemma lastIndexOf_range (s : jsstring) (c : char) :
  -1 <= lastIndexOf s c < Z.of_nat (length s).
Proof.
  induction s as [|x s IH]; simpl lastIndexOf; simpl length; [lia|].
  destruct (Z.leb_spec 0 (lastIndexOf s c)); [lia|].
  destruct (x =? c)%N; lia.
Qed.

Lemma lastIndexOf_absent (s : jsstring) (c : char) :
  ~ In c s -> lastIndexOf s c = -1.
Proof.
  induction s as [|x s IH]; intros Hn; simpl; [reflexivity|].
  rewrite IH by (intros H; apply Hn; now right). simpl.
  destruct (N.eqb_spec x c) as [->|]; [|reflexivity].
  exfalso. apply Hn. now left.
Qed.

Lemma lastIndexOf_last (stem ext : jsstring) (c : char) :
  ~ In c ext -> lastIndexOf (stem ++ c :: ext) c = Z.of_nat (length stem).
Proof.
  intros Hn. induction stem as [|x stem IH].
  - simpl. rewrite (lastIndexOf_absent ext c Hn). simpl.
    now rewrite N.eqb_refl.
  - cbn [app lastIndexOf]. rewrite IH.
    destruct (Z.leb_spec 0 (Z.of_nat (length stem))); simpl length; lia.
Qed.

Lemma slice_beyond (s : jsstring) (start : Z) :
  Z.of_nat (length s) <= start -> slice s start = [].
Proof.
  intros H. unfold slice.
  destruct (Z.ltb_spec start 0); [lia|].
  rewrite Z.min_r by lia. rewrite Nat2Z.id. apply skipn_all.
Qed.

Lemma slice_app (before after : jsstring) :
  slice (before ++ after) (Z.of_nat (length before)) = after.
Proof.
  unfold slice. destruct (Z.ltb_spec (Z.of_nat (length before)) 0); [lia|].
  rewrite length_app, Z.min_l by lia.
  rewrite Nat2Z.id, skipn_app, skipn_all, Nat.sub_diag. reflexivity.
Qed.

(** X22.  [getFileExtension] on a name shorter than 2^32 code units: a
    name without a full stop has the empty extension, and so has a name
    whose only full stop comes first; otherwise the extension is what
    follows the last full stop. *)
Theorem getFileExtension_cases (filename : jsstring) :
  Z.of_nat (length filename) < 2 ^ 32 ->
  (~ In DOT filename -> getFileExtension filename = [])
  /\ (forall stem ext,
        filename = stem ++ DOT :: ext -> ~ In DOT ext ->
        getFileExtension filename
        = match stem with [] => [] | _ :: _ => ext end).
Proof.
  intros Hlen. unfold getFileExtension, toUint32. split.
  - intros Hn. rewrite (lastIndexOf_absent _ _ Hn).
    apply slice_beyond. change ((-1 - 1) mod 2 ^ 32) with (2 ^ 32 - 2). lia.
  - intros stem ext -> Hn. rewrite (lastIndexOf_last _ _ _ Hn).
    destruct stem as [|x stem].
    + apply slice_beyond. change ((Z.of_nat (length (@nil char)) - 1) mod 2 ^ 32)
        with (2 ^ 32 - 1). simpl app in *. lia.
    + rewrite length_app in Hlen. cbn [length] in Hlen |- *.
      rewrite Z.mod_small by lia.
      replace (Z.of_nat (S (length stem)) - 1 + 2)
        with (Z.of_nat (length ((x :: stem) ++ [DOT]))).
      * change ((x :: stem) ++ DOT :: ext)
          with ((x :: stem) ++ [DOT] ++ ext).
        rewrite app_assoc. apply slice_app.
      * rewrite length_app. cbn [length]. lia.
Qed.

Lemma getFileExtension_cases_witness :
  getFileExtension (str "report.final.pdf") = str "pdf".
Proof.
  refine (proj2 (getFileExtension_cases (str "report.final.pdf") _)
            (str "report.final") (str "pdf") eq_refl _).
  - vm_compute. reflexivity.
  - vm_compute. intuition discriminate.
Defined.

(** X23.  A file whose type [validateFileType] accepts is always given
    to an extractor by [extractFileContent], and never to the CSV one.
    A file of a type that contains "presentation" is read as a spreadsheet
    or as a Word document; the PowerPoint extractor is only reached by a
    text file whose name ends in ".pptx". *)
Theorem accepted_types_are_dispatched (fileType name : jsstring) :
  validateFileType fileType = true ->
  let extractor := extractFileContent_dispatch fileType name in
  extractor <> Unsupported
  /\ extractor <> ExtractCSV
  /\ (includes fileType (str "presentation") = true ->
      extractor = ExtractExcel \/ extractor = ExtractWord)
  /\ (extractor = ExtractPowerPoint ->
      includes fileType (str "text") = true
      /\ endsWith name (str ".pptx") = true).
Proof.
  intros Hok. apply arrayIncludes_spec in Hok. cbv zeta.
  unfold extractFileContent_dispatch.
  generalize (endsWith name (str ".xlsx")) (endsWith name (str ".docx"))
    (endsWith name (str ".pptx")) (endsWith name (str ".txt"))
    (endsWith name (str ".csv")).
  intros xlsx docx pptx txt csv.
  unfold allowedTypes in Hok. simpl In in Hok.
  destruct Hok as [<-|[<-|[<-|[<-|[<-|[<-|[]]]]]]];
    destruct xlsx, docx, pptx; vm_compute;
    repeat split; try discriminate; auto; intros H; discriminate H.
Qed.

Lemma accepted_types_are_dispatched_witness :
  extractFileContent_dispatch pptxType (str "deck.pptx") = ExtractWord.
Proof.
  destruct (accepted_types_are_dispatched pptxType (str "deck.pptx") eq_refl)
    as (_ & _ & H & _).
  destruct (H eq_refl) as [E|E]; [discriminate E|exact E].
Defined.

(* ------------------------------------------------------------------ *)
(** ** The classification service *)

Section Classification.

Import Classify.

Variable normalizeFilename : jsstring -> jsstring.
Variable groq : Groq.

Lemma mapGet_some (key : Document -> jsstring) (docs : list Document)
    (k : jsstring) (doc : Document) :
  mapGet key docs k = Some doc -> In doc docs /\ key doc = k.
Proof.
  unfold mapGet. intros H. apply find_some in H. destruct H as [Hin Heq].
  split; [now apply in_rev|now apply jseqb_spec].
Qed.

Lemma mapGet_present (key : Document -> jsstring) (docs : list Document)
    (doc : Document) :
  In doc docs -> exists doc', mapGet key docs (key doc) = Some doc'.
Proof.
  intros Hin. unfold mapGet.
  destruct (find (fun d => jseqb (key d) (key doc)) (rev docs)) as [d|] eqn:E.
  - now exists d.
  - apply in_rev in Hin. pose proof (find_none _ _ E doc Hin) as Hf.
    simpl in Hf. rewrite jseqb_refl in Hf. discriminate.
Qed.

Lemma classifiedNames_app (l1 l2 : list Classification) :
  classifiedNames (l1 ++ l2) = classifiedNames l1 ++ classifiedNames l2.
Proof. apply map_app. Qed.

Lemma matchClassifications_names (docs : list Document)
    (cs final : list Classification) (matched : list jsstring) :
  (forall name, In name (classifiedNames final) ->
                In name (documentNames docs)) ->
  (forall name, In name matched -> In name (classifiedNames final)) ->
  let run := matchClassifications normalizeFilename docs cs final matched in
  (forall name, In name (classifiedNames (fst run)) ->
                In name (documentNames docs))
  /\ (forall name, In name (snd run) -> In name (classifiedNames (fst run))).
Proof.
  revert final matched.
  induction cs as [|c cs IH]; intros final matched Hfinal Hmatched.
  - simpl. split; assumption.
  - cbn [matchClassifications].
    assert (Hstep : forall c' doc,
               In doc docs -> filename c' = doc_filename doc ->
               (forall name, In name (classifiedNames (final ++ [c'])) ->
                             In name (documentNames docs))
               /\ (forall name, In name (matched ++ [doc_filename doc]) ->
                                In name (classifiedNames (final ++ [c'])))).
    { intros c' doc Hin Hname. rewrite classifiedNames_app. simpl. split.
      - intros name H. apply in_app_or in H.
        destruct H as [H|[<-|[]]]; [now apply Hfinal|].
        rewrite Hname. now apply in_map.
      - intros name H. apply in_or_app. apply in_app_or in H.
        destruct H as [H|[<-|[]]]; [left; now apply Hmatched|].
        right. left. assumption. }
    destruct (mapGet doc_filename docs (filename c)) as [doc|] eqn:E.
    + apply mapGet_some in E. destruct E as [Hin Hname].
      destruct (Hstep c doc Hin (eq_sym Hname)). now apply IH.
    + destruct (mapGet _ docs (normalizeFilename (filename c)))
        as [doc|] eqn:E'.
      * apply mapGet_some in E'. destruct E' as [Hin _].
        destruct (Hstep (withFilename c (doc_filename doc)) doc Hin eq_refl).
        now apply IH.
      * now apply IH.
Qed.

Lemma finalClassifications_names (docs : list Document)
    (cs : list Classification) :
  sameNames (classifiedNames (finalClassifications normalizeFilename docs cs))
    (documentNames docs).
Proof.
  unfold finalClassifications.
  destruct (matchClassifications_names docs cs [] [])
    as [Hfinal Hmatched]; try (intros name []).
  destruct (matchClassifications normalizeFilename docs cs [] [])
    as [final matched]. simpl in Hfinal, Hmatched.
  set (unmatched := filter _ docs).
  assert (Hboth : sameNames
            (classifiedNames (final ++ map missingClassification unmatched))
            (documentNames docs)).
  { intros name. rewrite classifiedNames_app, in_app_iff. split.
    - intros [H|H]; [now apply Hfinal|].
      unfold classifiedNames in H. rewrite map_map in H.
      apply in_map_iff in H. destruct H as (doc & <- & H).
      apply filter_In in H. apply (in_map doc_filename). apply H.
    - intros H. apply in_map_iff in H. destruct H as (doc & <- & Hin).
      destruct (has matched (doc_filename doc)) eqn:E.
      + left. apply Hmatched. now apply has_spec.
      + right. unfold classifiedNames. rewrite map_map.
        apply in_map_iff. exists doc. split; [reflexivity|].
        apply filter_In. split; [assumption|]. now rewrite E. }
  destruct (0 <? length unmatched)%nat eqn:E; [exact Hboth|].
  apply Nat.ltb_ge in E. destruct unmatched; [|simpl in E; lia].
  simpl in Hboth. now rewrite app_nil_r in Hboth.
Qed.

Lemma fallback_names (docs : list Document) :
  classifiedNames (map fallbackClassification docs) = documentNames docs.
Proof. unfold classifiedNames. rewrite map_map. reflexivity. Qed.

Lemma retryLoop_names (docs : list Document) (ctx : option jsstring)
    (remaining attempt : nat) (log : Log) :
  sameNames
    (classifiedNames
       (fst (retryLoop normalizeFilename groq docs ctx remaining attempt log)))
    (documentNames docs).
Proof.
  revert attempt log. induction remaining as [|remaining IH];
    intros attempt log; cbn [retryLoop].
  - simpl. rewrite fallback_names. intros name. reflexivity.
  - destruct (groq (requests log) docs ctx).
    + apply IH.
    + simpl. apply finalClassifications_names.
Qed.

Lemma processBatch_names (docs : list Document) (ctx : option jsstring)
    (log : Log) :
  sameNames
    (classifiedNames (fst (processBatch normalizeFilename groq docs ctx log)))
    (documentNames docs).
Proof. apply retryLoop_names. Qed.

Lemma processBatch_unfold (docs : list Document) (ctx : option jsstring)
    (log : Log) :
  processBatch normalizeFilename groq docs ctx log
  = match groq (requests log) docs ctx with
    | Transformed cs =>
        (finalClassifications normalizeFilename docs cs, sent log)
    | Throws =>
        match groq (S (requests log)) docs ctx with
        | Transformed cs =>
            (finalClassifications normalizeFilename docs cs,
             sent (waited 1000 (sent log)))
        | Throws =>
            match groq (S (S (requests log))) docs ctx with
            | Transformed cs =>
                (finalClassifications normalizeFilename docs cs,
                 sent (waited 2000 (sent (waited 1000 (sent log)))))
            | Throws =>
                (map fallbackClassification docs,
                 sent (waited 2000 (sent (waited 1000 (sent log)))))
            end
        end
    end.
Proof. reflexivity. Qed.

Lemma processBatch_requests (docs : list Document) (ctx : option jsstring)
    (log : Log) :
  let log' := snd (processBatch normalizeFilename groq docs ctx log) in
  (requests log + 1 <= requests log' <= requests log + 3)%nat.
Proof.
  cbv zeta. rewrite processBatch_unfold.
  destruct (groq (requests log) docs ctx); [|simpl; lia].
  destruct (groq (S (requests log)) docs ctx); [|simpl; lia].
  destruct (groq (S (S (requests log))) docs ctx); simpl; lia.
Qed.

(** X24.  [processBatch] returns, and the filenames of what it returns are
    the filenames of the batch: every document has a classification under
    its own filename, and every classification carries the filename of a
    document, whatever the model answered. *)
Theorem processBatch_classifies_the_batch (docs : list Document)
    (ctx : option jsstring) (log : Log) :
  let classifications :=
    fst (processBatch normalizeFilename groq docs ctx log) in
  (forall doc, In doc docs ->
     exists c, In c classifications /\ filename c = doc_filename doc)
  /\ (forall c, In c classifications ->
        exists doc, In doc docs /\ doc_filename doc = filename c).
Proof.
  cbv zeta. pose proof (processBatch_names docs ctx log) as H. split.
  - intros doc Hin.
    assert (Hn : In (doc_filename doc) (documentNames docs))
      by now apply in_map.
    apply H in Hn. apply in_map_iff in Hn. destruct Hn as (c & E & Hc).
    now exists c.
  - intros c Hin.
    assert (Hn : In (filename c)
                   (classifiedNames
                      (fst (processBatch normalizeFilename groq docs ctx
                              log))))
      by now apply in_map.
    apply H in Hn. apply in_map_iff in Hn. destruct Hn as (doc & E & Hd).
    now exists doc.
Qed.

(** X25.  [processBatch] sends between one and three requests.  It waits
    1000 ms after a first failure and 2000 ms after a second, and not after
    a third; the first attempt that does not throw decides the result, and
    after three failures every document gets the fallback entry. *)
Theorem processBatch_retries (docs : list Document) (ctx : option jsstring)
    (log : Log) :
  let run := processBatch normalizeFilename groq docs ctx log in
  exists k : nat,
    (1 <= k <= 3)%nat
    /\ requests (snd run) = (requests log + k)%nat
    /\ delays (snd run) = delays log ++ firstn (k - 1) [1000; 2000]
    /\ (forall j, (j < k - 1)%nat ->
          groq (requests log + j)%nat docs ctx = Throws)
    /\ match groq (requests log + (k - 1))%nat docs ctx with
       | Transformed cs =>
           fst run = finalClassifications normalizeFilename docs cs
       | Throws => k = 3%nat /\ fst run = map fallbackClassification docs
       end.
Proof.
  cbv zeta. rewrite processBatch_unfold.
  destruct (groq (requests log) docs ctx) as [|cs0] eqn:E0.
  2:{ exists 1%nat. cbn [Nat.sub firstn fst snd].
      rewrite Nat.add_0_r, E0, app_nil_r.
      split; [lia|]. split; [simpl; lia|]. split; [reflexivity|].
      split; [intros j Hj; lia|reflexivity]. }
  destruct (groq (S (requests log)) docs ctx) as [|cs1] eqn:E1.
  2:{ exists 2%nat. cbn [Nat.sub firstn fst snd].
      rewrite Nat.add_1_r, E1.
      split; [lia|]. split; [simpl; lia|]. split; [reflexivity|].
      split; [|reflexivity].
      intros j Hj. assert (j = 0)%nat as -> by lia.
      now rewrite Nat.add_0_r. }
  assert (Hfail : forall j, (j < 2)%nat ->
                    groq (requests log + j)%nat docs ctx = Throws).
  { intros j Hj. destruct j as [|[|j]]; [| |lia].
    - now rewrite Nat.add_0_r.
    - now rewrite Nat.add_1_r. }
  exists 3%nat. cbn [Nat.sub firstn].
  replace (requests log + 2)%nat with (S (S (requests log))) by lia.
  split; [lia|].
  destruct (groq (S (S (requests log))) docs ctx) as [|cs2] eqn:E2;
    cbn [fst snd].
  - split; [simpl; lia|]. split; [simpl; now rewrite <- app_assoc|].
    split; [assumption|]. split; reflexivity.
  - split; [simpl; lia|]. split; [simpl; now rewrite <- app_assoc|].
    split; [assumption|]. reflexivity.
Qed.

(** X26.  [regenerateDocumentClassification] never throws, and the
    classification it returns carries the filename of the document. *)
Theorem regenerate_keeps_the_filename (document : Document)
    (ctx : option jsstring) (log : Log) :
  exists c,
    fst (regenerateDocumentClassification normalizeFilename groq document
           ctx log) = inr c
    /\ filename c = doc_filename document.
Proof.
  unfold regenerateDocumentClassification.
  pose proof (processBatch_names [document] ctx log) as H.
  destruct (processBatch normalizeFilename groq [document] ctx log)
    as [[|c cs] log']; simpl in H |- *.
  - destruct (proj2 (H (doc_filename document))). now left.
  - exists c. split; [reflexivity|].
    destruct (proj1 (H (filename c))) as [E|[]]; [now left|now symmetry].
Qed.

Lemma batches_step (n i : nat) :
  (i < n -> (n - i + 9) / 10 = S ((n - (i + 10) + 9) / 10))%nat.
Proof.
  intros Hi. destruct (Nat.le_gt_cases 10 (n - i)).
  - replace (n - i + 9)%nat with ((n - (i + 10) + 9) + 1 * 10)%nat by lia.
    rewrite Nat.div_add by lia. lia.
  - replace (n - (i + 10))%nat with 0%nat by lia.
    change ((0 + 9) / 10)%nat with 0%nat.
    symmetry. apply (Nat.div_unique _ _ _ (n - i - 1)); lia.
Qed.

Lemma batchLoop_spec (request : Request) (fuel i : nat)
    (all : list Classification) (log : Log) :
  (length (documents request) - i <= fuel)%nat ->
  let run := batchLoop normalizeFilename groq request fuel i all log in
  let batches := ((length (documents request) - i + 9) / 10)%nat in
  sameNames (classifiedNames (fst run))
    (classifiedNames all ++ documentNames (skipn i (documents request)))
  /\ (requests log + batches <= requests (snd run)
      <= requests log + 3 * batches)%nat.
Proof.
  revert i all log. induction fuel as [|fuel IH]; intros i all log Hfuel.
  - cbn [batchLoop fst snd]. cbv zeta.
    assert (Hlen : (length (documents request) <= i)%nat) by lia.
    rewrite (skipn_all2 _ Hlen), app_nil_r.
    replace (length (documents request) - i)%nat with 0%nat by lia.
    change ((0 + 9) / 10)%nat with 0%nat.
    split; [intros name; reflexivity|lia].
  - cbn [batchLoop]. cbv zeta.
    destruct (Nat.ltb_spec i (length (documents request))) as [Hi|Hi].
    + pose proof (processBatch_names
                    (firstn BATCH_SIZE (skipn i (documents request)))
                    (projectContext request) log) as Hn.
      pose proof (processBatch_requests
                    (firstn BATCH_SIZE (skipn i (documents request)))
                    (projectContext request) log) as Hr.
      destruct (processBatch normalizeFilename groq
                  (firstn BATCH_SIZE (skipn i (documents request)))
                  (projectContext request) log) as [bcs log'].
      cbv zeta in Hr. simpl fst in Hn. simpl snd in Hr.
      destruct (IH (i + BATCH_SIZE)%nat (all ++ bcs) log') as [IHn IHr].
      { unfold BATCH_SIZE. lia. }
      split.
      * intros name. rewrite (IHn name).
        rewrite classifiedNames_app, <- app_assoc, !in_app_iff.
        rewrite (Hn name).
        assert (Hsplit : documentNames (skipn i (documents request))
                         = documentNames
                             (firstn BATCH_SIZE (skipn i (documents request)))
                           ++ documentNames
                                (skipn (i + BATCH_SIZE) (documents request))).
        { unfold documentNames. rewrite <- map_app.
          rewrite (Nat.add_comm i BATCH_SIZE), <- skipn_skipn.
          now rewrite firstn_skipn. }
        rewrite Hsplit, in_app_iff. reflexivity.
      * unfold BATCH_SIZE in IHr |- *.
        assert (Hb : ((length (documents request) - i + 9) / 10
                      = S ((length (documents request) - (i + 10) + 9) / 10))%nat).
        { now apply batches_step. }
        rewrite Hb. clear Hb.
        set (b := ((length (documents request) - (i + 10) + 9) / 10)%nat)
          in *.
        clearbody b. lia.
    + cbn [fst snd]. rewrite (skipn_all2 _ Hi), app_nil_r.
      replace (length (documents request) - i)%nat with 0%nat by lia.
      change ((0 + 9) / 10)%nat with 0%nat.
      split; [intros name; reflexivity|lia].
Qed.

(** X27.  With an API key, [classifyDocuments] returns classifications
    whose filenames are the filenames of the request, after sending one to
    three requests for each batch of ten documents.  Without a key it
    throws before sending anything. *)
Theorem classifyDocuments_covers_the_request (apiKey : option jsstring)
    (request : Request) (log : Log) :
  let run := classifyDocuments normalizeFilename groq apiKey request log in
  let batches := ((length (documents request) + 9) / 10)%nat in
  (validateApiKey apiKey = true ->
   exists classifications,
     fst run = inr classifications
     /\ sameNames (classifiedNames classifications)
          (documentNames (documents request))
     /\ (requests log + batches <= requests (snd run)
         <= requests log + 3 * batches)%nat)
  /\ (validateApiKey apiKey = false ->
      (exists message, fst run = inl message) /\ snd run = log).
Proof.
  cbv zeta. unfold classifyDocuments. split; intros Hkey; rewrite Hkey.
  - cbn [negb].
    destruct (batchLoop_spec request (length (documents request)) 0 [] log)
      as [Hn Hr]; [lia|].
    destruct (batchLoop normalizeFilename groq request
                (length (documents request)) 0 [] log) as [all log'].
    simpl in Hn, Hr. rewrite Nat.sub_0_r in Hr.
    exists all. simpl. repeat split; try assumption; try lia; apply Hn.
  - cbn [negb]. simpl. split; [eauto|reflexivity].
Qed.

Lemma filter_none {A} (f : A -> bool) (l : list A) :
  (forall x, In x l -> f x = false) -> filter f l = [].
Proof.
  induction l as [|x l IH]; intros H; [reflexivity|].
  simpl. rewrite (H x) by now left.
  apply IH. intros y Hy. apply H. now right.
Qed.

Lemma matchClassifications_exact (docs : list Document)
    (cs final : list Classification) (matched : list jsstring) :
  (forall name, In name (classifiedNames cs) ->
                In name (documentNames docs)) ->
  matchClassifications normalizeFilename docs cs final matched
  = (final ++ cs, matched ++ classifiedNames cs).
Proof.
  revert final matched. induction cs as [|c cs IH];
    intros final matched Hcs.
  - simpl. now rewrite !app_nil_r.
  - cbn [matchClassifications].
    assert (Hc : In (filename c) (documentNames docs)).
    { apply Hcs. now left. }
    apply in_map_iff in Hc. destruct Hc as (doc & Hname & Hin).
    destruct (mapGet_present doc_filename docs doc Hin) as (doc' & E).
    rewrite Hname in E. rewrite E.
    apply mapGet_some in E. destruct E as [_ E].
    rewrite IH by (intros name H; apply Hcs; now right).
    rewrite E. simpl. now rewrite <- !app_assoc.
Qed.

(** X28.  When the first attempt yields classifications whose filenames
    are those of the batch, [processBatch] returns them as they are, after
    one request and without waiting. *)
Theorem exact_reply_is_returned (docs : list Document)
    (ctx : option jsstring) (log : Log) (cs : list Classification) :
  groq (requests log) docs ctx = Transformed cs ->
  sameNames (classifiedNames cs) (documentNames docs) ->
  processBatch normalizeFilename groq docs ctx log = (cs, sent log).
Proof.
  intros Hgroq Hnames. unfold processBatch, MAX_RETRIES.
  cbn [retryLoop]. rewrite Hgroq. f_equal.
  unfold finalClassifications.
  rewrite matchClassifications_exact by (intros name; apply Hnames).
  simpl app.
  rewrite filter_none; [reflexivity|].
  intros doc Hin.
  assert (H : In (doc_filename doc) (classifiedNames cs)).
  { apply Hnames. now apply in_map. }
  apply has_spec in H. now rewrite H.
Qed.

End Classification.

Lemma classifyDocuments_covers_the_request_witness :
  exists classifications,
    fst (Classify.classifyDocuments trim Classify.answersThird
           (Some (str "gsk_key"))
           {| Classify.documents := [Classify.deck; Classify.model];
              Classify.projectContext := None |} Classify.log0)
    = inr classifications
    /\ Classify.classifiedNames classifications
       = [str "deck.pdf"; str "model.xlsx"].
Proof.
  destruct (proj1 (classifyDocuments_covers_the_request trim
                     Classify.answersThird (Some (str "gsk_key"))
                     {| Classify.documents := [Classify.deck; Classify.model];
                        Classify.projectContext := None |} Classify.log0)
              eq_refl) as (classifications & E & _).
  exists classifications. split; [exact E|].
  vm_compute in E. injection E as <-. reflexivity.
Defined.

Lemma exact_reply_is_returned_witness :
  Classify.processBatch trim Classify.answersFirst
    [Classify.deck; Classify.model] None Classify.log0
  = (map Classify.universal [Classify.deck; Classify.model],
     Classify.sent Classify.log0).
Proof.
  apply exact_reply_is_returned; [reflexivity|].
  intros name. reflexivity.
Defined.

(** The third request is answered: two delays, three requests. *)
Example processBatch_third_attempt :
  Classify.processBatch trim Classify.answersThird [Classify.deck] None
    Classify.log0
  = ([Classify.universal Classify.deck],
     {| Classify.requests := 3; Classify.delays := [1000; 2000] |}).
Proof. reflexivity. Qed.

(** No request is answered: every document gets the fallback entry, and
    there is no delay after the last failure. *)
Example processBatch_gives_up :
  Classify.processBatch trim Classify.alwaysThrows
    [Classify.deck; Classify.model] None Classify.log0
  = (map Classify.fallbackClassification [Classify.deck; Classify.model],
     {| Classify.requests := 3; Classify.delays := [1000; 2000] |}).
Proof. reflexivity. Qed.

(* ------------------------------------------------------------------ *)
(** ** The summary route *)

Section SummaryRoute.

Import Route.

Variable toString : Json -> jsstring.
Variable stringify : Json -> jsstring.

Lemma asContent_truthy (v : Json) :
  truthyJson v = true -> asContent toString stringify v <> CString [].
Proof. destruct v as [| | | |[|c s]| |]; simpl; congruence. Qed.

Lemma asString_truthy (v : Json) :
  truthyJson v = true -> isString v = true ->
  asString toString v <> [].
Proof. destruct v as [| | | |[|c s]| |]; simpl; congruence. Qed.

Lemma mapChunks_ok (items : list Json) (index : nat)
    (chunks : list DocumentChunk) :
  mapChunks toString stringify items index = inr chunks ->
  length chunks = length items
  /\ map chunkIndex chunks = map Some (seq index (length items))
  /\ ~ In (CString []) (map content chunks).
Proof.
  revert index chunks. induction items as [|item items IH];
    intros index chunks H; cbn [mapChunks] in H.
  - injection H as <-. simpl. auto.
  - destruct (get item (str "parsedContent")) as [parsedContent|];
      [|discriminate].
    destruct (truthyJson parsedContent) eqn:Ht; [|discriminate].
    cbn [negb] in H.
    destruct (mapChunks toString stringify items (S index)) as [|rest] eqn:E;
      [discriminate|].
    injection H as <-. destruct (IH _ _ E) as (Hlen & Hidx & Hne).
    cbn [length map seq content chunkIndex]. rewrite Hlen, Hidx.
    split; [reflexivity|]. split; [reflexivity|].
    intros [Hc|Hc]; [|now apply Hne].
    now apply (asContent_truthy parsedContent Ht).
Qed.

Lemma wholeDocumentRequest_ok (document : Json) (scope desc : jsstring)
    (request : SummaryRequest) :
  wholeDocumentRequest toString stringify document scope desc = inr request ->
  extractionScope request = scope
  /\ scopeDescription request = desc
  /\ documentChunks request = None
  /\ documentContent request <> CString [].
Proof.
  unfold wholeDocumentRequest. intros H.
  destruct (get document (str "filename")) as [name|]; [|discriminate].
  destruct (get document (str "parsedContent")) as [parsedContent|];
    [|discriminate].
  destruct (truthyJson name); [|discriminate].
  destruct (truthyJson parsedContent) eqn:Ht; [|discriminate].
  injection H as <-. cbn. repeat split.
  now apply asContent_truthy.
Qed.

Lemma chunkedRequest_ok (items : list Json) (scope desc : jsstring)
    (request : SummaryRequest) :
  chunkedRequest toString stringify items scope desc = inr request ->
  extractionScope request = scope
  /\ scopeDescription request = desc
  /\ exists chunks,
       documentChunks request = Some chunks
       /\ chunks <> []
       /\ map chunkIndex chunks = map Some (seq 0 (length chunks))
       /\ ~ In (CString []) (map content chunks).
Proof.
  unfold chunkedRequest. intros H.
  destruct items as [|first rest]; [discriminate|].
  destruct (get first (str "filename")) as [name|]; [|discriminate].
  destruct (truthyJson name); [|discriminate]. cbn [negb] in H.
  destruct (mapChunks toString stringify (first :: rest) 0)
    as [|chunks] eqn:E; [discriminate|].
  injection H as <-. cbn. split; [reflexivity|]. split; [reflexivity|].
  destruct (mapChunks_ok _ _ _ E) as (Hlen & Hidx & Hne).
  exists chunks. split; [reflexivity|]. split.
  - intros ->. discriminate Hlen.
  - now rewrite Hlen.
Qed.

Lemma checkFields_ok (document documentChunks es sd : Json)
    (request : SummaryRequest) :
  checkFields toString stringify document documentChunks es sd
  = inr request ->
  asString toString es <> [] /\ asString toString sd <> []
  /\ (wholeDocumentRequest toString stringify document
        (asString toString es) (asString toString sd) = inr request
      \/ exists items,
           chunkedRequest toString stringify items
             (asString toString es) (asString toString sd) = inr request).
Proof.
  unfold checkFields. cbv zeta. intros H.
  destruct (negb (truthyJson document && isObject document)
            && negb (truthyJson documentChunks && isArray documentChunks));
    [discriminate|].
  destruct (truthyJson document && isObject document
            && (truthyJson documentChunks && isArray documentChunks));
    [discriminate|].
  destruct (truthyJson es) eqn:Hes; [|discriminate].
  destruct (isString es) eqn:Hes'; [|discriminate].
  destruct (truthyJson sd) eqn:Hsd; [|discriminate].
  destruct (isString sd) eqn:Hsd'; [|discriminate].
  cbn [negb orb] in H.
  split; [now apply asString_truthy|]. split; [now apply asString_truthy|].
  destruct (truthyJson document && isObject document); [now left|].
  destruct documentChunks; try discriminate. right. now exists items.
Qed.

Lemma validate_ok (apiKey : option jsstring) (body : option Json)
    (request : SummaryRequest) :
  validate toString stringify apiKey body = inr request ->
  validateGroqApiKey apiKey = true
  /\ exists document documentChunks es sd,
       checkFields toString stringify document documentChunks es sd
       = inr request.
Proof.
  unfold validate. intros H.
  destruct (validateGroqApiKey apiKey); [|discriminate].
  split; [reflexivity|]. cbn [negb] in H.
  destruct body as [body|]; [|discriminate].
  destruct (get body (str "document")) as [document|]; [|discriminate].
  destruct (get body (str "documentChunks")) as [documentChunks|];
    [|discriminate].
  destruct (get body (str "extractionScope")) as [es|]; [|discriminate].
  destruct (get body (str "scopeDescription")) as [sd|]; [|discriminate].
  now exists document, documentChunks, es, sd.
Qed.

Lemma validate_well_formed (apiKey : option jsstring) (body : option Json)
    (request : SummaryRequest) :
  validate toString stringify apiKey body = inr request ->
  validateGroqApiKey apiKey = true
  /\ extractionScope request <> []
  /\ scopeDescription request <> []
  /\ requestChunks request <> []
  /\ ~ In (CString []) (requestChunks request)
  /\ (forall chunks, documentChunks request = Some chunks ->
        map chunkIndex chunks = map Some (seq 0 (length chunks))).
Proof.
  intros H. apply validate_ok in H.
  destruct H as (Hkey & document & documentChunks & es & sd & H).
  split; [exact Hkey|].
  apply checkFields_ok in H. destruct H as (Hes & Hsd & [H|(items & H)]).
  - apply wholeDocumentRequest_ok in H.
    destruct H as (E1 & E2 & E3 & Hc). unfold requestChunks.
    rewrite E1, E2, E3. repeat split; try assumption; try discriminate.
    intros [Hin|[]]. now apply Hc.
  - apply chunkedRequest_ok in H.
    destruct H as (E1 & E2 & chunks & E3 & Hne & Hidx & Hc).
    unfold requestChunks. rewrite E1, E2, E3.
    repeat split; try assumption.
    + destruct chunks; [congruence|discriminate].
    + intros chunks' E. now injection E as <-.
Qed.

(** X29.  A request that [POST] passes to [summarizeDocument] is well
    formed: the API key is set, both scope strings are non-empty, there is
    at least one chunk, no content is the empty string, and the chunks of an
    array are numbered from 0 in order. *)
Theorem route_requests_are_well_formed (apiKey : option jsstring)
    (body : option Json) (request : SummaryRequest) :
  validate toString stringify apiKey body = inr request ->
  validateGroqApiKey apiKey = true
  /\ extractionScope request <> []
  /\ scopeDescription request <> []
  /\ requestChunks request <> []
  /\ ~ In (CString []) (requestChunks request)
  /\ (forall chunks, documentChunks request = Some chunks ->
        map chunkIndex chunks = map Some (seq 0 (length chunks))).
Proof. apply validate_well_formed. Qed.

Lemma validate_reply_status (apiKey : option jsstring) (body : option Json)
    (reply : Reply) :
  validate toString stringify apiKey body = inl reply ->
  status reply = 400 \/ status reply = 500.
Proof.
  unfold validate, checkFields, wholeDocumentRequest, chunkedRequest.
  cbv zeta. intros H.
  repeat match type of H with
         | context [if ?b then _ else _] => destruct b
         | context [match ?x with _ => _ end] => destruct x
         end;
    try discriminate; injection H as <-; simpl; auto.
Qed.

Lemma summarizeDocument_merges (groq : Groq) (request : SummaryRequest) :
  requestChunks request <> [] ->
  exists response events,
    summarizeDocument groq request [] = (inr response, events)
    /\ events <> []
    /\ forall file sums, In (file, sums) (mergeRequests events) ->
         (2 <= length sums)%nat.
Proof.
  intros Hne.
  destruct (Nat.eq_dec (length (requestChunks request)) 1) as [H1|H1].
  - destruct (one_chunk request H1) as (c & E).
    rewrite (summarizeDocument_single groq request c E).
    unfold singleRun. cbv zeta.
    destruct (groq [] _); eexists; eexists;
      (split; [reflexivity|]); (split; [discriminate|]);
      intros file sums [].
  - rewrite (summarizeDocument_multi groq request H1).
    destruct (multi_outcome groq request (requestChunks request))
      as (evs & _ & _ & Hreq & _ & Hcalls & _ & Hm
          & [(b & p & m & Eb & _ & _ & E)|(_ & Hlen & Hall & r & E)]);
      rewrite E; eexists; eexists; (split; [reflexivity|]).
    + split; [rewrite Eb; now destruct b|].
      rewrite Hm. intros file sums [].
    + split; [now destruct evs|].
      intros file sums. rewrite mergeRequests_app, Hm. simpl.
      intros [Hin|[]]. injection Hin as _ <-. rewrite Hlen.
      destruct (requestChunks request) as [|c1 [|c2 rest]];
        simpl in *; try congruence; lia.
Qed.

(** X30.  [POST] replies 200 exactly when the body passes its checks,
    whether or not the summary then succeeds; otherwise it replies 400 or
    500 without any request to the model.  Through the route a merge
    request always carries at least two partial summaries. *)
Theorem route_replies (groq : Groq) (apiKey : option jsstring)
    (body : option Json) :
  let run := POST toString stringify groq apiKey body in
  (status (fst run) = 200 <->
   exists request, validate toString stringify apiKey body = inr request)
  /\ (status (fst run) = 200 \/ status (fst run) = 400
      \/ status (fst run) = 500)
  /\ (status (fst run) = 200 <-> snd run <> [])
  /\ (forall file sums, In (file, sums) (mergeRequests (snd run)) ->
        (2 <= length sums)%nat).
Proof.
  cbv zeta. unfold POST.
  destruct (validate toString stringify apiKey body) as [reply|request] eqn:E.
  - apply validate_reply_status in E. cbn [fst snd].
    split; [split; [lia|intros (request & H); discriminate H]|].
    split; [lia|]. split; [split; [lia|congruence]|].
    intros file sums [].
  - apply validate_well_formed in E.
    destruct E as (_ & _ & _ & Hne & _).
    destruct (summarizeDocument_merges groq request Hne)
      as (response & events & -> & Hev & Hm).
    cbn [fst snd status].
    split; [split; [eauto|reflexivity]|].
    split; [now left|]. split; [split; [auto|reflexivity]|exact Hm].
Qed.

End SummaryRoute.

Lemma route_requests_are_well_formed_witness :
  exists request,
    Route.validate Route.unprinted Route.unprinted (Some (str "gsk_key"))
      (Some Route.twoChunkBody) = inr request
    /\ Route.validateGroqApiKey (Some (str "gsk_key")) = true
    /\ extractionScope request <> []
    /\ scopeDescription request <> []
    /\ requestChunks request <> []
    /\ ~ In (CString []) (requestChunks request)
    /\ (forall chunks, documentChunks request = Some chunks ->
          map chunkIndex chunks = map Some (seq 0 (length chunks))).
Proof.
  eexists. split; [reflexivity|].
  exact (route_requests_are_well_formed Route.unprinted Route.unprinted
           (Some (str "gsk_key")) (Some Route.twoChunkBody) _ eq_refl).
Defined.

(** An empty array of chunks is turned away before any request is made. *)
Example route_rejects_empty_chunks (groq : Groq) :
  Route.POST Route.unprinted Route.unprinted groq (Some (str "gsk_key"))
    (Some Route.emptyChunksBody)
  = (Route.badRequest (str "documentChunks array cannot be empty"), []).
Proof. reflexivity. Qed.
